(** * engine2d.cpp: the entity store, the systems and the fixed-timestep loop

    A shallow embedding of [src/engine2d.cpp].  C++ [float] is IEEE-754
    binary32 and [double] is binary64; both are modelled with the
    parameterised operations of the standard library's [SpecFloat]
    (round to nearest, ties to even), so every arithmetic step below is the
    rounded operation the program performs.  [std::unordered_map] is a
    [gmap]; [std::vector<Entity>] is a [list]. *)

From Stdlib Require Import ZArith QArith Qabs Lia Bool List.
From Stdlib Require Import Floats.SpecFloat.
From stdpp Require Import base option list strings gmap.

#[local] Open Scope Z_scope.

(** ** Machine integers *)

Module Int.
(** C++ [int] on the target: 32 bits, two's complement. *)
Definition min_signed : Z := -2147483648.
Definition max_signed : Z := 2147483647.
Definition modulus : Z := 4294967296.

Definition in_range (z : Z) : bool := (min_signed <=? z) && (z <=? max_signed).

(** The value an out-of-range result wraps to. *)
Definition wrap (z : Z) : Z := (z - min_signed) mod modulus + min_signed.

(** [a / b] on [int] truncates toward zero. *)
Definition div (a b : Z) : Z := Z.quot a b.
End Int.

Module Uint64.
Definition modulus : Z := 18446744073709551616.
Definition sub (a b : Z) : Z := (a - b) mod modulus.
End Uint64.

(** ** binary64, as far as the loop driver uses it *)

Module F64.
Definition prec : Z := 53.
Definition emax : Z := 1024.
Definition t := spec_float.

Definition of_Z (n : Z) : t := binary_normalize prec emax n 0 false.
Definition div : t -> t -> t := SFdiv prec emax.

(** [float] to [double]: every binary32 value is a binary64 value. *)
Definition of_f32 (x : spec_float) : t :=
  match x with
  | S754_finite s m e => binary_round prec emax s m e
  | _ => x
  end.
End F64.

(** ** binary32 *)

Module F32.
Definition prec : Z := 24.
Definition emax : Z := 128.
Definition t := spec_float.

Definition add : t -> t -> t := SFadd prec emax.
Definition sub : t -> t -> t := SFsub prec emax.
Definition mul : t -> t -> t := SFmul prec emax.
Definition div : t -> t -> t := SFdiv prec emax.
Definition leb : t -> t -> bool := SFleb.
(** [a >= b] *)
Definition geb (a b : t) : bool := SFleb b a.

(** [int] to [float]. *)
Definition of_Z (n : Z) : t := binary_normalize prec emax n 0 false.

(** [(float)d] for a [double] [d]. *)
Definition of_f64 (d : F64.t) : t :=
  match d with
  | S754_finite s m e => binary_round prec emax s m e
  | _ => d
  end.

Definition zero : t := S754_zero false.
Definition one : t := Eval vm_compute in of_Z 1.

(** A decimal literal [n/d] with the [f] suffix: the binary32 value nearest
    to the quotient of two exactly representable integers. *)
Definition lit (n d : Z) : t := div (of_Z n) (of_Z d).

(** [std::round] on [float]: nearest integer, halfway cases away from
    zero; the result is again a [float]. *)
Definition round (x : t) : t :=
  match x with
  | S754_finite s m (Zneg p) =>
      match (2 * Zpos m + 2 ^ Zpos p) / 2 ^ (Zpos p + 1) with
      | Zpos q => binary_round prec emax s q 0
      | _ => S754_zero s
      end
  | _ => x
  end.

(** [int(x)]: truncation toward zero.  The conversion is undefined when
    the truncated value does not fit an [int], and for infinities and
    NaN: [None]. *)
Definition to_int (x : t) : option Z :=
  match x with
  | S754_zero _ => Some 0
  | S754_finite s m e =>
      let a := match e with
               | Zneg p => Zpos m / 2 ^ Zpos p
               | _ => Zpos m * 2 ^ e
               end in
      let v := cond_Zopp s a in
      if Int.in_range v then Some v else None
  | _ => None
  end.

(** The magnitude of a finite value counted in units of [2^-149], the
    smallest positive binary32 number; every valid finite binary32 value
    is an integer number of such units. *)
Definition units (x : t) : Z :=
  match x with
  | S754_finite _ m e => Zpos m * 2 ^ (e + 149)
  | _ => 0
  end.

Definition sign (x : t) : bool :=
  match x with
  | S754_zero s | S754_infinity s | S754_finite s _ _ => s
  | S754_nan => false
  end.

Definition is_finite (x : t) : bool :=
  match x with
  | S754_zero _ | S754_finite _ _ _ => true
  | _ => false
  end.

Definition valid (x : t) : bool := valid_binary prec emax x.

(** The rational number a finite value stands for. *)
Definition to_Q (x : t) : Q :=
  match x with
  | S754_finite s m e => (inject_Z (cond_Zopp s (Zpos m)) * Qpower (2 # 1) e)%Q
  | _ => 0%Q
  end.
End F32.

(** ** Configuration constants *)

Definition WINDOW_W : Z := 800.
Definition WINDOW_H : Z := 600.

(** ** Components *)

Module Vec2.
Record t := mk { x : F32.t; y : F32.t }.
End Vec2.

Module Transform.
Record t := mk { pos : Vec2.t; rot : F32.t; scale : Vec2.t }.
(** [Transform()]: the default member initialisers. *)
Definition default : t :=
  mk (Vec2.mk F32.zero F32.zero) F32.zero (Vec2.mk F32.one F32.one).
End Transform.

Module Sprite.
(** [tex] is the texture pointer, [0] for [nullptr]. *)
Record t := mk { tex : Z; w : Z; h : Z }.
Definition default : t := mk 0 0 0.
End Sprite.

Module Rigidbody.
Record t := mk { vel : Vec2.t; mass : F32.t }.
Definition default : t := mk (Vec2.mk F32.zero F32.zero) F32.one.
End Rigidbody.

(** ** Entities *)

(** [using Entity = int;] *)
Abbreviation Entity := Z (only parsing).

Record EntityManager := mkEM {
  nextId : Entity;
  entities : list Entity;
  transforms : gmap Z Transform.t;
  sprites : gmap Z Sprite.t;
  bodies : gmap Z Rigidbody.t
}.

(** A freshly constructed [EntityManager]. *)
Definition em_init : EntityManager := mkEM 1 [] ∅ ∅ ∅.

(** [EntityManager::create].  [nextId++] is written with the wrap-around the
    target performs; the increment overflows only at [Int.max_signed]. *)
Definition create (em : EntityManager) : Entity * EntityManager :=
  let e := nextId em in
  (e, mkEM (Int.wrap (e + 1))
           (entities em ++ [e])
           (<[e := Transform.default]> (transforms em))
           (sprites em)
           (bodies em)).

(** [EntityManager::destroyAll]. *)
Definition destroyAll (em : EntityManager) : EntityManager :=
  mkEM 1 [] ∅ ∅ ∅.

(** Writes through [operator[]], as [main] performs them when it sets a
    scene up: [em.transforms[e] = t], [em.sprites[e] = sp],
    [em.bodies[e] = rb]. *)
Definition set_transform (e : Entity) (tr : Transform.t) (em : EntityManager) :=
  mkEM (nextId em) (entities em) (<[e := tr]> (transforms em)) (sprites em) (bodies em).

Definition set_sprite (e : Entity) (sp : Sprite.t) (em : EntityManager) :=
  mkEM (nextId em) (entities em) (transforms em) (<[e := sp]> (sprites em)) (bodies em).

Definition set_body (e : Entity) (rb : Rigidbody.t) (em : EntityManager) :=
  mkEM (nextId em) (entities em) (transforms em) (sprites em) (<[e := rb]> (bodies em)).

(** ** Input *)

Inductive SDL_Keycode :=
  SDLK_a | SDLK_d | SDLK_w | SDLK_s | SDLK_ESCAPE | SDLK_other.

(** The events [SDL_PollEvent] hands over, as far as [processInput]
    distinguishes them. *)
Inductive SDL_Event :=
  | SDL_QUIT
  | SDL_KEYDOWN (sym : SDL_Keycode)
  | SDL_KEYUP (sym : SDL_Keycode)
  | SDL_OTHEREVENT.

Module InputState.
Record t := mk {
  quit : bool;
  axisX : F32.t;
  axisY : F32.t;
  left : bool; right : bool; up : bool; down : bool
}.
Definition default : t := mk false F32.zero F32.zero false false false false.
End InputState.

(** The [switch] on the key symbol; [dn] is [e.type == SDL_KEYDOWN]. *)
Definition handle_key (sym : SDL_Keycode) (dn : bool) (i : InputState.t) : InputState.t :=
  let '(InputState.mk q ax ay l r u d) := i in
  match sym with
  | SDLK_a => InputState.mk q ax ay dn r u d
  | SDLK_d => InputState.mk q ax ay l dn u d
  | SDLK_w => InputState.mk q ax ay l r dn d
  | SDLK_s => InputState.mk q ax ay l r u dn
  | SDLK_ESCAPE => if dn then InputState.mk true ax ay l r u d else i
  | SDLK_other => i
  end.

(** One turn of the [while (SDL_PollEvent(&e))] body. *)
Definition handle_event (i : InputState.t) (e : SDL_Event) : InputState.t :=
  match e with
  | SDL_QUIT =>
      let '(InputState.mk _ ax ay l r u d) := i in InputState.mk true ax ay l r u d
  | SDL_KEYDOWN sym => handle_key sym true i
  | SDL_KEYUP sym => handle_key sym false i
  | SDL_OTHEREVENT => i
  end.

(** [processInput]; [events] is what [SDL_PollEvent] delivers during this
    call, in order, until the queue is empty. *)
Definition processInput (events : list SDL_Event) (i : InputState.t) : InputState.t :=
  let i0 := InputState.mk (InputState.quit i) (F32.of_Z 0) (F32.of_Z 0)
                          false false false false in
  let '(InputState.mk q ax ay l r u d) := fold_left handle_event events i0 in
  let ax := if l then F32.sub ax F32.one else ax in
  let ax := if r then F32.add ax F32.one else ax in
  let ay := if u then F32.sub ay F32.one else ay in
  let ay := if d then F32.add ay F32.one else ay in
  InputState.mk q ax ay l r u d.

(** ** Systems *)

(** The literal [0.98f]. *)
Definition DAMPING : F32.t := F32.lit 98 100.

(** The body of the loop of [physicsSystem] for one entity. *)
Definition physics_step (dt : F32.t) (em : EntityManager) (e : Entity) : EntityManager :=
  match bodies em !! e, transforms em !! e with
  | Some rb, Some t =>
      let v := Rigidbody.vel rb in
      let p := Transform.pos t in
      let p' := Vec2.mk (F32.add (Vec2.x p) (F32.mul (Vec2.x v) dt))
                        (F32.add (Vec2.y p) (F32.mul (Vec2.y v) dt)) in
      let v' := Vec2.mk (F32.mul (Vec2.x v) DAMPING) (F32.mul (Vec2.y v) DAMPING) in
      mkEM (nextId em) (entities em)
           (<[e := Transform.mk p' (Transform.rot t) (Transform.scale t)]> (transforms em))
           (sprites em)
           (<[e := Rigidbody.mk v' (Rigidbody.mass rb)]> (bodies em))
  | _, _ => em
  end.

Definition physicsSystem (em : EntityManager) (dt : F32.t) : EntityManager :=
  fold_left (physics_step dt) (entities em) em.

Definition playerControlSystem (player : Entity) (em : EntityManager)
    (i : InputState.t) (speed : F32.t) : EntityManager :=
  match bodies em !! player with
  | None => em
  | Some rb =>
      let v := Rigidbody.vel rb in
      let v' := Vec2.mk (F32.add (Vec2.x v) (F32.mul (InputState.axisX i) speed))
                        (F32.add (Vec2.y v) (F32.mul (InputState.axisY i) speed)) in
      mkEM (nextId em) (entities em) (transforms em) (sprites em)
           (<[player := Rigidbody.mk v' (Rigidbody.mass rb)]> (bodies em))
  end.

(** ** Rendering *)

Module SDL_Rect.
Record t := mk { x : Z; y : Z; w : Z; h : Z }.
End SDL_Rect.

Inductive SDL_RendererFlip := SDL_FLIP_NONE | SDL_FLIP_HORIZONTAL | SDL_FLIP_VERTICAL.

(** The calls [renderSystem] makes on the renderer. *)
Inductive RenderCmd :=
  | SetRenderDrawColor (r g b a : Z)
  | RenderClear
  | RenderCopyEx (tex : Z) (dst : SDL_Rect.t) (angle : F64.t) (flip : SDL_RendererFlip)
  | RenderPresent.

(** The destination rectangle, field by field in the order of the source. *)
Definition dst_rect (sp : Sprite.t) (tr : Transform.t) : option SDL_Rect.t :=
  w ← F32.to_int (F32.mul (F32.of_Z (Sprite.w sp)) (Vec2.x (Transform.scale tr)));
  h ← F32.to_int (F32.mul (F32.of_Z (Sprite.h sp)) (Vec2.y (Transform.scale tr)));
  x ← F32.to_int (F32.round (F32.sub (Vec2.x (Transform.pos tr)) (F32.of_Z (Int.div w 2))));
  y ← F32.to_int (F32.round (F32.sub (Vec2.y (Transform.pos tr)) (F32.of_Z (Int.div h 2))));
  Some (SDL_Rect.mk x y w h).

(** The loop of [renderSystem]; [out] is the list of calls made so far.
    [operator[]] is applied to keys that [count] found, so the tables are
    only read. *)
Fixpoint render_loop (em : EntityManager) (es : list Entity) (out : list RenderCmd)
    : option (list RenderCmd) :=
  match es with
  | [] => Some out
  | e :: es' =>
      match sprites em !! e, transforms em !! e with
      | Some sp, Some tr =>
          if Sprite.tex sp =? 0 then render_loop em es' out
          else
            dst ← dst_rect sp tr;
            render_loop em es'
              (out ++ [RenderCopyEx (Sprite.tex sp) dst (F64.of_f32 (Transform.rot tr)) SDL_FLIP_NONE])
      | _, _ => render_loop em es' out
      end
  end.

(** [renderSystem]: the calls made on the renderer, or [None] when a
    conversion to [int] is undefined. *)
Definition renderSystem (em : EntityManager) : option (list RenderCmd) :=
  out ← render_loop em (entities em) [SetRenderDrawColor 50 50 60 255; RenderClear];
  Some (out ++ [RenderPresent]).

(** ** The loop driver *)

(** [1.0f / 60.0f] *)
Definition TARGET_DT : F32.t := F32.div F32.one (F32.of_Z 60).

(** [200.0f * TARGET_DT], the speed handed to [playerControlSystem]. *)
Definition PLAYER_SPEED : F32.t := F32.mul (F32.of_Z 200) TARGET_DT.

(** What stays alive across outer iterations of [main]. *)
Record LoopState := mkLoop {
  loop_em : EntityManager;
  loop_input : InputState.t;
  loop_prev : Z;
  loop_accumulator : F32.t
}.

(** The calls an outer iteration makes, recorded in order. *)
Inductive Call :=
  | CallInput
  | CallControl
  | CallPhysics
  | CallRender (frame : option (list RenderCmd)).

(** The inner [while (accumulator >= TARGET_DT)].  The loop need not
    terminate, hence the fuel: [None] means the fuel ran out. *)
Fixpoint drain (fuel : nat) (player : Entity) (i : InputState.t)
    (em : EntityManager) (acc : F32.t) : option (EntityManager * F32.t * list Call) :=
  if F32.geb acc TARGET_DT then
    match fuel with
    | O => None
    | S fuel' =>
        let em1 := playerControlSystem player em i PLAYER_SPEED in
        let em2 := physicsSystem em1 TARGET_DT in
        '(em', acc', calls) ← drain fuel' player i em2 (F32.sub acc TARGET_DT);
        Some (em', acc', CallControl :: CallPhysics :: calls)
    end
  else Some (em, acc, []).

(** [(now - prev) / (double)SDL_GetPerformanceFrequency()] *)
Definition elapsed_seconds (now prev freq : Z) : F64.t :=
  F64.div (F64.of_Z (Uint64.sub now prev)) (F64.of_Z freq).

(** The body of [while (!input.quit)]: [now] and [freq] are what the
    performance counter and its frequency read, [events] what the event queue
    holds. *)
Definition outer_iteration (fuel : nat) (player : Entity) (now freq : Z)
    (events : list SDL_Event) (st : LoopState) : option (LoopState * list Call) :=
  let elapsed := elapsed_seconds now (loop_prev st) freq in
  let acc := F32.add (loop_accumulator st) (F32.of_f64 elapsed) in
  let i := processInput events (loop_input st) in
  '(em', acc', ticks) ← drain fuel player i (loop_em st) acc;
  Some (mkLoop em' i now acc', CallInput :: ticks ++ [CallRender (renderSystem em')]).

(** [em.transforms[e]], read through [operator[]]. *)
Definition transform_at (em : EntityManager) (e : Entity) : Transform.t :=
  default Transform.default (transforms em !! e).

(** [em.transforms[e].pos = p] and [em.transforms[e].scale = s]. *)
Definition set_pos (e : Entity) (p : Vec2.t) (em : EntityManager) : EntityManager :=
  let t := transform_at em e in
  set_transform e (Transform.mk p (Transform.rot t) (Transform.scale t)) em.

Definition set_scale (e : Entity) (s : Vec2.t) (em : EntityManager) : EntityManager :=
  let t := transform_at em e in
  set_transform e (Transform.mk (Transform.pos t) (Transform.rot t) s) em.

(** One turn of the loop over the static objects of [main]. *)
Definition scene_static (player : Entity) (em : EntityManager) (i : Z) : EntityManager :=
  let '(e, em) := create em in
  let px := F32.add (F32.of_Z 100) (F32.mul (F32.of_Z i) (F32.of_Z 120)) in
  let py := F32.add (F32.of_Z 150) (F32.mul (F32.of_Z (Z.rem i 2)) (F32.of_Z 80)) in
  let em := set_pos e (Vec2.mk px py) em in
  let em := set_scale e (Vec2.mk (F32.lit 8 10) (F32.lit 8 10)) em in
  set_sprite e (default Sprite.default (sprites em !! player)) em.

(** The scene [main] builds before it enters the loop; [tex] is the texture
    pointer it ended up with.  Returns the player and the store. *)
Definition scene (tex : Z) : Entity * EntityManager :=
  let '(player, em) := create em_init in
  let c := Vec2.mk (F32.div (F32.of_Z WINDOW_W) (F32.of_Z 2))
                   (F32.div (F32.of_Z WINDOW_H) (F32.of_Z 2)) in
  let em := set_pos player c em in
  let em := set_scale player (Vec2.mk F32.one F32.one) em in
  let em := set_body player (Rigidbody.mk (Vec2.mk F32.zero F32.zero) F32.one) em in
  let em := set_sprite player (Sprite.mk tex 64 64) em in
  (player, fold_left (scene_static player) [0; 1; 2; 3; 4] em).

(** ** States of the store that the operations can produce *)

(** The store after any sequence of the operations of the core, started from
    a fresh registry: creation, the bulk reset, writes of a component of a
    live entity, and the systems.  [nextId++] overflows at [Int.max_signed],
    which is undefined; executions stay below it. *)
Inductive reachable : EntityManager -> Prop :=
  | reach_init : reachable em_init
  | reach_create em :
      reachable em -> nextId em < Int.max_signed -> reachable (snd (create em))
  | reach_destroyAll em :
      reachable em -> reachable (destroyAll em)
  | reach_set_transform em e tr :
      reachable em -> e ∈ entities em -> reachable (set_transform e tr em)
  | reach_set_sprite em e sp :
      reachable em -> e ∈ entities em -> reachable (set_sprite e sp em)
  | reach_set_body em e rb :
      reachable em -> e ∈ entities em -> reachable (set_body e rb em)
  | reach_control em player i speed :
      reachable em -> reachable (playerControlSystem player em i speed)
  | reach_physics em dt :
      reachable em -> reachable (physicsSystem em dt).

(** ** Notions used to state the properties *)

(** The events that ask the loop to stop: closing the window, or the
    Escape key going down. *)
Definition is_quit_event (e : SDL_Event) : bool :=
  match e with
  | SDL_QUIT | SDL_KEYDOWN SDLK_ESCAPE => true
  | _ => false
  end.

(** Two snapshots that agree on everything but, possibly, [quit]. *)
Definition same_keys (a b : InputState.t) : Prop :=
  InputState.axisX a = InputState.axisX b ∧ InputState.axisY a = InputState.axisY b ∧
  InputState.left a = InputState.left b ∧ InputState.right a = InputState.right b ∧
  InputState.up a = InputState.up b ∧ InputState.down a = InputState.down b.

(** The entities [renderSystem] is to draw: those with a Sprite whose
    texture is not null and a Transform. *)
Definition drawable (em : EntityManager) (e : Entity) : bool :=
  match sprites em !! e, transforms em !! e with
  | Some sp, Some _ => negb (Sprite.tex sp =? 0)
  | _, _ => false
  end.

(** The one draw of a drawable entity. *)
Definition draw_of (em : EntityManager) (e : Entity) : option RenderCmd :=
  sp ← sprites em !! e;
  tr ← transforms em !! e;
  dst ← dst_rect sp tr;
  Some (RenderCopyEx (Sprite.tex sp) dst (F64.of_f32 (Transform.rot tr)) SDL_FLIP_NONE).

(** The destination rectangle in the words of the spec, over the rationals:
    width and height are intrinsic size times scale, and the top-left corner
    is an integer point nearest to position minus half of them. *)
Definition rect_as_specified (sp : Sprite.t) (tr : Transform.t) (r : SDL_Rect.t) : Prop :=
  (inject_Z (SDL_Rect.w r)
     == inject_Z (Sprite.w sp) * F32.to_Q (Vec2.x (Transform.scale tr)))%Q ∧
  (inject_Z (SDL_Rect.h r)
     == inject_Z (Sprite.h sp) * F32.to_Q (Vec2.y (Transform.scale tr)))%Q ∧
  (Qabs (inject_Z (SDL_Rect.x r)
         - (F32.to_Q (Vec2.x (Transform.pos tr)) - inject_Z (SDL_Rect.w r) / 2))
     <= 1 # 2)%Q ∧
  (Qabs (inject_Z (SDL_Rect.y r)
         - (F32.to_Q (Vec2.y (Transform.pos tr)) - inject_Z (SDL_Rect.h r) / 2))
     <= 1 # 2)%Q.

(** What holds of the store between any two operations. *)
Record store_inv (em : EntityManager) : Prop := mk_store_inv {
  inv_nextId : 1 <= nextId em <= Int.max_signed;
  inv_entities : entities em = Z.of_nat <$> seq 1 (Z.to_nat (nextId em - 1));
  inv_transforms : ∀ e, is_Some (transforms em !! e) <-> e ∈ entities em;
  inv_sprites : ∀ e, is_Some (sprites em !! e) -> e ∈ entities em;
  inv_bodies : ∀ e, is_Some (bodies em !! e) -> e ∈ entities em
}.

(** What one turn of the loop of [physicsSystem] leaves in the two tables
    for an entity that has both components. *)
Definition integrated (dt : F32.t) (rb : Rigidbody.t) (t : Transform.t) : Transform.t :=
  let v := Rigidbody.vel rb in
  let p := Transform.pos t in
  Transform.mk (Vec2.mk (F32.add (Vec2.x p) (F32.mul (Vec2.x v) dt))
                        (F32.add (Vec2.y p) (F32.mul (Vec2.y v) dt)))
               (Transform.rot t) (Transform.scale t).

Definition damped (rb : Rigidbody.t) : Rigidbody.t :=
  let v := Rigidbody.vel rb in
  Rigidbody.mk (Vec2.mk (F32.mul (Vec2.x v) DAMPING) (F32.mul (Vec2.y v) DAMPING))
               (Rigidbody.mass rb).

(** ** Notions used in the proofs about rounding *)

(** What the round and sticky bits say about twice the part shifted out,
    against the weight [unit] of the last kept bit. *)
Definition loc_value (r s : bool) (twice_rem unit : Z) : Prop :=
  match r, s with
  | false, false => twice_rem = 0
  | false, true => 0 < twice_rem < unit
  | true, false => twice_rem = unit
  | true, true => unit < twice_rem
  end.

(** [rec] is [M] shifted right by [n] bits. *)
Definition shr_inv (M n : Z) (rec : shr_record) : Prop :=
  0 <= shr_m rec ∧
  0 <= M - 2 ^ n * shr_m rec < 2 ^ n ∧
  loc_value (shr_r rec) (shr_s rec) (2 * (M - 2 ^ n * shr_m rec)) (2 ^ n).

(** The float [binary_round_aux] builds from a rounded mantissa [q] of at
    most 25 bits on the grid of exponent [e1]: a carry into the 25th bit
    moves to the next exponent, and an exponent above the largest one gives
    an infinity. *)
Definition pack (s : bool) (q e1 : Z) : spec_float :=
  match q with
  | Z0 => S754_zero s
  | Zpos p =>
      if q <? 16777216
      then (if e1 <=? 104 then S754_finite s p e1 else S754_infinity s)
      else (if e1 + 1 <=? 104 then S754_finite s 8388608 (e1 + 1) else S754_infinity s)
  | Zneg _ => S754_nan
  end.

(** The accumulators from which the inner loop of [main] comes to an end:
    everything but plus infinity and the finite values above [2^19], which
    is [2^168] units.  Above [2^19] the spacing of binary32 numbers is more
    than twice [TARGET_DT], and subtracting [TARGET_DT] changes nothing. *)
Definition drainable (acc : F32.t) : bool :=
  match acc with
  | S754_infinity false => false
  | S754_finite false m e => Zpos m * 2 ^ (e + 149) <=? 2 ^ 168
  | _ => true
  end.

(** One fixed tick of the inner loop on the store. *)
Definition fixed_tick (player : Entity) (i : InputState.t) (em : EntityManager)
    : EntityManager :=
  physicsSystem (playerControlSystem player em i PLAYER_SPEED) TARGET_DT.

(** The calls of [n] fixed ticks. *)
Definition tick_calls (n : nat) : list Call :=
  concat (replicate n [CallControl; CallPhysics]).

(** [accumulator -= TARGET_DT] *)
Definition subtract_dt (a : F32.t) : F32.t := F32.sub a TARGET_DT.

(** One damping step of a velocity component. *)
Definition damp (v : F32.t) : F32.t := F32.mul v DAMPING.

(** ** Resources *)

(** [const char* WINDOW_TITLE] *)
Definition WINDOW_TITLE : string := "Motor 2D - Revisado".

(** The calls [ResourceManager] and [main] make on SDL and on [std::cerr],
    each with the value SDL answered where the program looks at it.
    Pointers are numbers, [0] for [nullptr].  [Cerr] carries the fixed
    leading text of the line.  [Frame] is a call made inside the main
    loop. *)
Inductive SDLCall :=
  | SDL_Init (rc : Z)
  | SDL_CreateWindow (title : string) (w h : Z) (window : Z)
  | SDL_CreateRenderer (window : Z) (renderer : Z)
  | SDL_LoadBMP (path : string) (surf : Z)
  | SDL_CreateRGBSurfaceWithFormat (w h depth : Z) (surf : Z)
  | SDL_FillRect (surf : Z) (r g b : Z)
  | SDL_CreateTextureFromSurface (renderer surf : Z) (tex : Z)
  | SDL_FreeSurface (surf : Z)
  | SDL_DestroyTexture (tex : Z)
  | SDL_DestroyRenderer (renderer : Z)
  | SDL_DestroyWindow (window : Z)
  | SDL_Quit
  | Cerr (msg : string)
  | Frame (c : Call).

Record ResourceManager := mkRM {
  renderer : Z;
  textures : gmap string Z
}.

(** [ResourceManager::loadTexture].  [surf] and [tex] are what
    [SDL_LoadBMP] and [SDL_CreateTextureFromSurface] answer if the call
    gets as far as asking them.  Returns the texture, the manager and the
    calls made. *)
Definition loadTexture (path : string) (surf tex : Z) (rm : ResourceManager)
    : Z * ResourceManager * list SDLCall :=
  match textures rm !! path with
  | Some t => (t, rm, [])
  | None =>
      if surf =? 0 then
        (0, rm, [SDL_LoadBMP path 0; Cerr "Erro ao carregar BMP: "])
      else
        let calls := [SDL_LoadBMP path surf;
                      SDL_CreateTextureFromSurface (renderer rm) surf tex;
                      SDL_FreeSurface surf] in
        if tex =? 0 then (0, rm, calls ++ [Cerr "Erro ao criar textura: "])
        else (tex, mkRM (renderer rm) (<[path := tex]> (textures rm)), calls)
  end.

(** [ResourceManager::cleanup].  The order in which an [unordered_map] is
    walked is not specified; [map_to_list] fixes one. *)
Definition cleanup (rm : ResourceManager) : ResourceManager * list SDLCall :=
  (mkRM (renderer rm) ∅, SDL_DestroyTexture <$> (map_to_list (textures rm)).*2).

(** A call of [loadTexture] together with SDL's answers. *)
Record LoadRequest := mkLoad { load_path : string; load_surf : Z; load_tex : Z }.

(** A sequence of calls of [loadTexture] on one manager: the manager
    afterwards and all calls made, in order. *)
Definition load_step (st : ResourceManager * list SDLCall) (r : LoadRequest)
    : ResourceManager * list SDLCall :=
  let '(_, rm', calls) := loadTexture (load_path r) (load_surf r) (load_tex r) st.1 in
  (rm', st.2 ++ calls).

Definition loads (reqs : list LoadRequest) (rm : ResourceManager)
    : ResourceManager * list SDLCall :=
  fold_left load_step reqs (rm, []).

(** ** The program *)

(** What one outer iteration reads from its environment. *)
Record FrameInput := mkFrame {
  frame_now : Z;
  frame_freq : Z;
  frame_events : list SDL_Event
}.

(** Everything [main] reads from its environment: the answers of SDL during
    start-up and while the player's texture is obtained, the first reading
    of the performance counter, and the inputs of the outer iterations. *)
Record World := mkWorld {
  w_init : Z;
  w_window : Z;
  w_renderer : Z;
  w_bmp_surf : Z;
  w_bmp_tex : Z;
  w_fallback_surf : Z;
  w_fallback_tex : Z;
  w_counter : Z;
  w_frames : list FrameInput
}.

(** The texture of the player: [resources.loadTexture("player.bmp")], and
    the red square made on the spot when that gives [nullptr]. *)
Definition player_texture (bmp_surf bmp_tex fb_surf fb_tex : Z) (rm : ResourceManager)
    : Z * ResourceManager * list SDLCall :=
  let '(tex, rm', calls) := loadTexture "player.bmp" bmp_surf bmp_tex rm in
  if tex =? 0 then
    if fb_surf =? 0 then
      (0, rm', calls ++ [SDL_CreateRGBSurfaceWithFormat 64 64 32 0])
    else
      (fb_tex, rm',
       calls ++ [SDL_CreateRGBSurfaceWithFormat 64 64 32 fb_surf;
                 SDL_FillRect fb_surf 200 80 80;
                 SDL_CreateTextureFromSurface (renderer rm') fb_surf fb_tex;
                 SDL_FreeSurface fb_surf])
  else (tex, rm', calls).

(** How a run of the main loop over the given inputs ends: the loop was
    left, the inputs were used up with the loop still running, or an inner
    loop ran out of fuel. *)
Inductive LoopResult :=
  | LoopExit (st : LoopState) (calls : list Call)
  | LoopRunning (st : LoopState) (calls : list Call)
  | LoopNoFuel.

(** [while (!input.quit) { ... }]; [fuel] bounds each inner loop, [log] is
    the list of calls made so far. *)
Fixpoint main_loop (fuel : nat) (player : Entity) (frames : list FrameInput)
    (st : LoopState) (log : list Call) : LoopResult :=
  if InputState.quit (loop_input st) then LoopExit st log
  else
    match frames with
    | [] => LoopRunning st log
    | f :: rest =>
        match outer_iteration fuel player (frame_now f) (frame_freq f)
                              (frame_events f) st with
        | None => LoopNoFuel
        | Some (st', calls) => main_loop fuel player rest st' (log ++ calls)
        end
    end.

Inductive MainResult :=
  | Exit (code : Z) (trace : list SDLCall)
  | Running (trace : list SDLCall)
  | NoFuel.

(** The calls of a start-up that got as far as the renderer. *)
Definition startup_calls (w : World) : list SDLCall :=
  [SDL_Init 0;
   SDL_CreateWindow WINDOW_TITLE WINDOW_W WINDOW_H (w_window w);
   SDL_CreateRenderer (w_window w) (w_renderer w)].

(** [main]. *)
Definition main (fuel : nat) (w : World) : MainResult :=
  if negb (w_init w =? 0) then
    Exit 1 [SDL_Init (w_init w); Cerr "Erro SDL_Init: "]
  else if w_window w =? 0 then
    Exit 1 [SDL_Init 0; SDL_CreateWindow WINDOW_TITLE WINDOW_W WINDOW_H 0;
            Cerr "Erro SDL_CreateWindow: "; SDL_Quit]
  else if w_renderer w =? 0 then
    Exit 1 [SDL_Init 0; SDL_CreateWindow WINDOW_TITLE WINDOW_W WINDOW_H (w_window w);
            SDL_CreateRenderer (w_window w) 0;
            Cerr "Erro SDL_CreateRenderer: ";
            SDL_DestroyWindow (w_window w); SDL_Quit]
  else
    let '(tex, resources, tcalls) :=
      player_texture (w_bmp_surf w) (w_bmp_tex w) (w_fallback_surf w) (w_fallback_tex w)
                     (mkRM (w_renderer w) ∅) in
    let '(player, em) := scene tex in
    let st := mkLoop em InputState.default (w_counter w) F32.zero in
    match main_loop fuel player (w_frames w) st [] with
    | LoopNoFuel => NoFuel
    | LoopRunning _ calls => Running (startup_calls w ++ tcalls ++ (Frame <$> calls))
    | LoopExit st' calls =>
        let '(_, dcalls) := cleanup resources in
        Exit 0 (startup_calls w ++ tcalls ++ (Frame <$> calls) ++ dcalls
                ++ [SDL_DestroyRenderer (w_renderer w);
                    SDL_DestroyWindow (w_window w); SDL_Quit])
    end.

(** ** Notions used to state the further properties *)

(** What an event says about the key [sym]: pressed, released, or
    nothing. *)
Definition key_change (sym : SDL_Keycode) (e : SDL_Event) : option bool :=
  match e with
  | SDL_KEYDOWN s =>
      match s, sym with
      | SDLK_a, SDLK_a | SDLK_d, SDLK_d | SDLK_w, SDLK_w | SDLK_s, SDLK_s => Some true
      | _, _ => None
      end
  | SDL_KEYUP s =>
      match s, sym with
      | SDLK_a, SDLK_a | SDLK_d, SDLK_d | SDLK_w, SDLK_w | SDLK_s, SDLK_s => Some false
      | _, _ => None
      end
  | _ => None
  end.

(** The key [sym] as the events of one poll leave it: down when the last
    event about it is a press, up when it is a release or there is none. *)
Definition key_held (sym : SDL_Keycode) (evs : list SDL_Event) : bool :=
  default false (last (omap (key_change sym) evs)).

(** The events [processInput] reacts to. *)
Definition relevant (e : SDL_Event) : bool :=
  match e with
  | SDL_QUIT => true
  | SDL_KEYDOWN SDLK_other => false
  | SDL_KEYDOWN _ => true
  | SDL_KEYUP SDLK_other | SDL_KEYUP SDLK_ESCAPE => false
  | SDL_KEYUP _ => true
  | SDL_OTHEREVENT => false
  end.

(** The store after the fixed ticks of a list of snapshots, one tick per
    snapshot. *)
Definition ticks (player : Entity) (snaps : list InputState.t) (em : EntityManager)
    : EntityManager :=
  fold_left (λ em i, fixed_tick player i em) snaps em.

(** A frame without a draw. *)
Definition empty_frame : list RenderCmd :=
  [SetRenderDrawColor 50 50 60 255; RenderClear; RenderPresent].

(** The textures a trace creates, destroys; the surfaces it obtains,
    frees. *)
Definition created_textures (tr : list SDLCall) : list Z :=
  omap (λ c, match c with
             | SDL_CreateTextureFromSurface _ _ t => if t =? 0 then None else Some t
             | _ => None
             end) tr.

Definition destroyed_textures (tr : list SDLCall) : list Z :=
  omap (λ c, match c with SDL_DestroyTexture t => Some t | _ => None end) tr.

Definition obtained_surfaces (tr : list SDLCall) : list Z :=
  omap (λ c, match c with
             | SDL_LoadBMP _ s | SDL_CreateRGBSurfaceWithFormat _ _ _ s =>
                 if s =? 0 then None else Some s
             | _ => None
             end) tr.

Definition freed_surfaces (tr : list SDLCall) : list Z :=
  omap (λ c, match c with SDL_FreeSurface s => Some s | _ => None end) tr.

(** [+0] and the positive finite numbers. *)
Definition nonneg_finite (x : F32.t) : bool :=
  match x with
  | S754_zero false | S754_finite false _ _ => true
  | _ => false
  end.

(** What the loop may carry into the next iteration: a value in
    [[0, TARGET_DT)]. *)
Definition carry (acc : F32.t) : bool :=
  F32.valid acc && nonneg_finite acc && negb (F32.geb acc TARGET_DT).

(** An elapsed time of at most [2^18] seconds, which is [2^167] units. *)
Definition short_time (x : F32.t) : bool :=
  F32.valid x && nonneg_finite x && (F32.units x <=? 2 ^ 167).

(** Every iteration of [frames] measures a short time; [prev] is the
    reading of the counter before the first of them. *)
Fixpoint short_frames (prev : Z) (frames : list FrameInput) : bool :=
  match frames with
  | [] => true
  | f :: rest =>
      short_time (F32.of_f64 (elapsed_seconds (frame_now f) prev (frame_freq f)))
      && short_frames (frame_now f) rest
  end.

(** The number of outer iterations the loop makes on [frames] when [q] is
    the [quit] flag it starts with, and whether it leaves the loop. *)
Fixpoint iterations (q : bool) (frames : list FrameInput) : nat :=
  if q then O
  else match frames with
       | [] => O
       | f :: rest => S (iterations (existsb is_quit_event (frame_events f)) rest)
       end.

Fixpoint leaves (q : bool) (frames : list FrameInput) : bool :=
  if q then true
  else match frames with
       | [] => false
       | f :: rest => leaves (existsb is_quit_event (frame_events f)) rest
       end.

Definition is_CallInput (c : Call) : bool :=
  match c with CallInput => true | _ => false end.

Definition is_CallRender (c : Call) : bool :=
  match c with CallRender _ => true | _ => false end.

(** The flag of the snapshot that the key [sym] drives; the other keys
    drive none. *)
Definition flag_of (sym : SDL_Keycode) (i : InputState.t) : bool :=
  match sym with
  | SDLK_a => InputState.left i
  | SDLK_d => InputState.right i
  | SDLK_w => InputState.up i
  | SDLK_s => InputState.down i
  | _ => false
  end.

(** No cached texture is null. *)
Definition cache_ok (rm : ResourceManager) : Prop :=
  ∀ p t, textures rm !! p = Some t -> t ≠ 0.

(** The number of calls of a kind in a log. *)
Definition count_calls (p : Call -> bool) (calls : list Call) : nat :=
  length (List.filter p calls).

(** The calls a trace makes inside the main loop. *)
Definition frame_calls (tr : list SDLCall) : list Call :=
  omap (λ c, match c with Frame c => Some c | _ => None end) tr.

(** The windows and renderers a trace creates and destroys, and how often
    it starts SDL up and shuts it down. *)
Definition created_windows (tr : list SDLCall) : list Z :=
  omap (λ c, match c with
             | SDL_CreateWindow _ _ _ w => if w =? 0 then None else Some w
             | _ => None
             end) tr.

Definition destroyed_windows (tr : list SDLCall) : list Z :=
  omap (λ c, match c with SDL_DestroyWindow w => Some w | _ => None end) tr.

Definition created_renderers (tr : list SDLCall) : list Z :=
  omap (λ c, match c with
             | SDL_CreateRenderer _ r => if r =? 0 then None else Some r
             | _ => None
             end) tr.

Definition destroyed_renderers (tr : list SDLCall) : list Z :=
  omap (λ c, match c with SDL_DestroyRenderer r => Some r | _ => None end) tr.

Definition started (tr : list SDLCall) : list Z :=
  omap (λ c, match c with
             | SDL_Init rc => if rc =? 0 then Some rc else None
             | _ => None
             end) tr.

Definition shut_down (tr : list SDLCall) : list Z :=
  omap (λ c, match c with SDL_Quit => Some 0 | _ => None end) tr.

(** SDL started, and gave a window and a renderer. *)
Definition startup_ok (w : World) : bool :=
  (w_init w =? 0) && negb (w_window w =? 0) && negb (w_renderer w =? 0).

(** The bitmap of the player was loaded and made into a texture. *)
Definition bitmap_ok (w : World) : bool :=
  negb (w_bmp_surf w =? 0) && negb (w_bmp_tex w =? 0).

(** The same environment with other inputs for the outer iterations. *)
Definition with_frames (w : World) (frames : list FrameInput) : World :=
  mkWorld (w_init w) (w_window w) (w_renderer w) (w_bmp_surf w) (w_bmp_tex w)
          (w_fallback_surf w) (w_fallback_tex w) (w_counter w) frames.

(** No event of the frame asks the loop to stop. *)
Definition quiet (f : FrameInput) : bool :=
  negb (existsb is_quit_event (frame_events f)).

(** A whole number [n] below [2^24] in magnitude as binary32 has it: the
    mantissa is [|n|] shifted up to 24 bits, the exponent the opposite of
    the shift. *)
Definition whole_shift (n : Z) : Z := 24 - Zpos (digits2_pos (Z.to_pos (Z.abs n))).
Definition whole_mantissa (n : Z) : positive := Z.to_pos (Z.abs n * 2 ^ whole_shift n).

(** * Properties *)

(** ** The constants *)

Lemma DAMPING_value : DAMPING = S754_finite false 16441672 (-24).
Proof. vm_compute. reflexivity. Qed.

Lemma TARGET_DT_value : TARGET_DT = S754_finite false 8947849 (-29).
Proof. vm_compute. reflexivity. Qed.

(** ** Rounding in binary32

    [binary_round_aux] shifts the bits below the grid out of the mantissa,
    rounds to nearest with ties to even, and renormalises.  The lemmas below
    bound the error of that rounding by half a grid step; this is what the
    facts about damping and about the end of the inner loop rest on. *)

Lemma digits2_pos_bounds (p : positive) :
  2 ^ (Zpos (digits2_pos p) - 1) <= Zpos p < 2 ^ Zpos (digits2_pos p).
Proof.
  induction p as [p IH|p IH|]; simpl digits2_pos.
  - rewrite Pos2Z.inj_succ, Z.pow_succ_r by lia.
    replace (Z.succ (Zpos (digits2_pos p)) - 1) with (Z.succ (Zpos (digits2_pos p) - 1)) by lia.
    rewrite Z.pow_succ_r by lia. lia.
  - rewrite Pos2Z.inj_succ, Z.pow_succ_r by lia.
    replace (Z.succ (Zpos (digits2_pos p)) - 1) with (Z.succ (Zpos (digits2_pos p) - 1)) by lia.
    rewrite Z.pow_succ_r by lia. lia.
  - simpl. lia.
Qed.

(** The number of binary digits is determined by the bounds. *)
Lemma digits2_pos_unique (p : positive) (d : Z) :
  2 ^ (d - 1) <= Zpos p < 2 ^ d -> Zpos (digits2_pos p) = d.
Proof.
  intros [Hl Hu]. pose proof (digits2_pos_bounds p) as [Hl' Hu'].
  assert (0 < d) as Hd.
  { destruct (Z.ltb_spec 0 d) as [|Hd]; [assumption|].
    apply Zle_lt_or_eq in Hd as [Hd | ->]; [|simpl in Hu; lia].
    rewrite (Z.pow_neg_r 2 d) in Hu by lia. lia. }
  destruct (Z.lt_trichotomy (Zpos (digits2_pos p)) d) as [H | [H | H]]; [|assumption|].
  - assert (2 ^ Zpos (digits2_pos p) <= 2 ^ (d - 1)) by (apply Z.pow_le_mono_r; lia). lia.
  - assert (2 ^ d <= 2 ^ (Zpos (digits2_pos p) - 1)) by (apply Z.pow_le_mono_r; lia). lia.
Qed.

Lemma digits2_pos_le (p : positive) (d : Z) :
  0 <= d -> Zpos p < 2 ^ d -> Zpos (digits2_pos p) <= d.
Proof.
  intros Hd Hu. pose proof (digits2_pos_bounds p) as [Hl' _].
  destruct (Z.leb_spec (Zpos (digits2_pos p)) d); [assumption|].
  assert (2 ^ d <= 2 ^ (Zpos (digits2_pos p) - 1)) by (apply Z.pow_le_mono_r; lia). lia.
Qed.

Lemma digits2_pos_ge (p : positive) (d : Z) :
  2 ^ (d - 1) <= Zpos p -> d <= Zpos (digits2_pos p).
Proof.
  intros Hl. pose proof (digits2_pos_bounds p) as [_ Hu'].
  destruct (Z.leb_spec d (Zpos (digits2_pos p))); [assumption|].
  assert (2 ^ (Zpos (digits2_pos p)) <= 2 ^ (d - 1)) by (apply Z.pow_le_mono_r; lia). lia.
Qed.

(** [iter_pos] is iteration. *)
Lemma iter_pos_nat {A} (f : A -> A) (p : positive) (x : A) :
  SpecFloat.iter_pos f p x = Nat.iter (Pos.to_nat p) f x.
Proof.
  revert x. induction p as [p IH|p IH|]; intros x; simpl SpecFloat.iter_pos.
  - rewrite !IH, Pos2Nat.inj_xI.
    replace (S (2 * Pos.to_nat p)) with (Pos.to_nat p + (Pos.to_nat p + 1))%nat by lia.
    rewrite !Nat.iter_add. simpl. reflexivity.
  - rewrite !IH, Pos2Nat.inj_xO.
    replace (2 * Pos.to_nat p)%nat with (Pos.to_nat p + Pos.to_nat p)%nat by lia.
    now rewrite Nat.iter_add.
  - reflexivity.
Qed.

Lemma shr_inv_start (M : Z) : 0 <= M -> shr_inv M 0 (Build_shr_record M false false).
Proof. intros H. unfold shr_inv; simpl. lia. Qed.

Lemma shr_inv_step (M n : Z) (rec : shr_record) :
  0 <= n -> shr_inv M n rec -> shr_inv M (n + 1) (shr_1 rec).
Proof.
  intros Hn. destruct rec as [m r s]. unfold shr_inv; simpl shr_m; simpl shr_r; simpl shr_s.
  rewrite Z.pow_add_r by lia. change (2 ^ 1) with 2.
  assert (0 < 2 ^ n) as HP by (apply Z.pow_pos_nonneg; lia).
  generalize dependent (2 ^ n). intros P HP (Hm & Hrem & Hloc).
  destruct m as [|[p|p|]|p]; try lia; simpl;
    destruct r, s; simpl in *; lia.
Qed.

Lemma shr_inv_iter (M : Z) (k : nat) (rec : shr_record) :
  shr_inv M 0 rec -> shr_inv M (Z.of_nat k) (Nat.iter k shr_1 rec).
Proof.
  intros H0. induction k as [|k IH]; [exact H0|].
  rewrite Nat2Z.inj_succ, <- Z.add_1_r. simpl Nat.iter.
  apply shr_inv_step; [lia | exact IH].
Qed.

Lemma round_nearest_even_bounds (M n : Z) (rec : shr_record) :
  shr_inv M n rec ->
  let q := round_nearest_even (shr_m rec) (loc_of_shr_record rec) in
  shr_m rec <= q <= shr_m rec + 1 ∧
  - 2 ^ n <= 2 * (M - 2 ^ n * q) <= 2 ^ n.
Proof.
  destruct rec as [m r s]. unfold shr_inv; simpl.
  intros (Hm & Hrem & Hloc).
  destruct r, s; simpl in *; try destruct (Z.even m); lia.
Qed.

Lemma shr_nonpos (rec : shr_record) (e n : Z) : n <= 0 -> shr rec e n = (rec, e).
Proof. destruct n; [reflexivity | lia | reflexivity]. Qed.

Lemma fexp32 (x : Z) : fexp 24 128 x = Z.max (x - 24) (-149).
Proof. reflexivity. Qed.

Lemma pow2_le (a b : Z) : 0 <= a <= b -> 2 ^ a <= 2 ^ b.
Proof. intros H. apply Z.pow_le_mono_r; lia. Qed.

Lemma pow2_pos (a : Z) : 0 <= a -> 0 < 2 ^ a.
Proof. intros H. apply Z.pow_pos_nonneg; lia. Qed.

(** The second normalisation of [binary_round_aux], on a rounded mantissa
    of at most 25 bits. *)
Lemma second_shift (s : bool) (q e1 : Z) :
  0 <= q <= 16777216 -> -149 <= e1 ->
  (let '(mrs, e'') := shr_fexp 24 128 q e1 loc_Exact in
   match shr_m mrs with
   | Z0 => S754_zero s
   | Zpos m => if e'' <=? 128 - 24 then S754_finite s m e'' else S754_infinity s
   | Zneg _ => S754_nan
   end) = pack s q e1.
Proof.
  intros Hq He. unfold shr_fexp. rewrite fexp32.
  destruct q as [|qp|qp]; [| |lia].
  - simpl Zdigits2. rewrite shr_nonpos by lia. reflexivity.
  - simpl Zdigits2. simpl shr_record_of_loc.
    destruct (Z.ltb_spec (Zpos qp) 16777216) as [Hlt | Hge].
    + assert (Zpos (digits2_pos qp) <= 24) by (apply digits2_pos_le; [lia | exact Hlt]).
      rewrite shr_nonpos by lia. unfold pack.
      destruct (Z.ltb_spec (Zpos qp) 16777216); [|lia]. reflexivity.
    + assert (qp = 16777216%positive) as -> by lia.
      change (digits2_pos 16777216) with 25%positive.
      replace (Z.max (25 + e1 - 24) (-149) - e1) with 1 by lia.
      unfold pack. simpl. reflexivity.
Qed.

Lemma binary_round_aux_pack (s : bool) (m : positive) (e : Z) :
  let d := Zpos (digits2_pos m) in
  let e1 := Z.max e (fexp 24 128 (d + e)) in
  let n := e1 - e in
  ∃ q,
    0 <= q <= 16777216 ∧
    - 2 ^ n <= 2 * (Zpos m - 2 ^ n * q) <= 2 ^ n ∧
    binary_round_aux 24 128 s (Zpos m) e loc_Exact = pack s q e1 ∧
    (e <= fexp 24 128 (d + e) -> valid_binary 24 128 (pack s q e1) = true).
Proof.
  intros d e1 n.
  pose proof (digits2_pos_bounds m) as [Hdl Hdu]. fold d in Hdl, Hdu.
  assert (0 < d) as Hd by (subst d; lia).
  unfold binary_round_aux.
  unfold shr_fexp at 1. simpl Zdigits2. fold d. simpl shr_record_of_loc.
  destruct (Z.leb_spec (fexp 24 128 (d + e) - e) 0) as [Hn | Hn].
  - (* nothing is shifted out *)
    rewrite shr_nonpos by exact Hn. simpl loc_of_shr_record. simpl round_nearest_even.
    assert (e1 = e) as He1 by (subst e1; lia).
    assert (n = 0) as Hn0 by (subst n; lia).
    rewrite fexp32 in Hn.
    assert (d <= 24) as Hd24 by lia.
    assert (Zpos m < 16777216) as Hm.
    { assert (2 ^ d <= 2 ^ 24) by (apply pow2_le; lia). change (2 ^ 24) with 16777216 in *. lia. }
    exists (Zpos m). rewrite Hn0, He1. simpl (2 ^ 0).
    split; [lia|]. split; [lia|].
    assert (binary_round_aux_tail :
      (let '(mrs, e'') := shr_fexp 24 128 (Zpos m) e loc_Exact in
       match shr_m mrs with
       | Z0 => S754_zero s
       | Zpos m0 => if e'' <=? 128 - 24 then S754_finite s m0 e'' else S754_infinity s
       | Zneg _ => S754_nan
       end) = pack s (Zpos m) e).
    { unfold shr_fexp. simpl Zdigits2. fold d. rewrite fexp32.
      rewrite shr_nonpos by lia. unfold pack.
      destruct (Z.ltb_spec (Zpos m) 16777216); [|lia]. reflexivity. }
    split; [exact binary_round_aux_tail|].
    intros Hle. unfold pack.
    destruct (Z.ltb_spec (Zpos m) 16777216); [|lia].
    destruct (Z.leb_spec e 104); [|reflexivity].
    simpl. unfold bounded, canonical_mantissa. fold d. rewrite fexp32 in *.
    apply andb_true_intro. split; [apply Z.eqb_eq; lia | apply Z.leb_le; lia].
  - (* [n] bits are shifted out and the rest is rounded *)
    assert (e1 = fexp 24 128 (d + e)) as He1 by (subst e1; lia).
    assert (fexp 24 128 (d + e) - e = n) as Hnn by (subst n; lia).
    rewrite Hnn in *. rewrite fexp32 in He1.
    destruct n as [|p|p] eqn:Hp; [lia| |lia].
    simpl shr. rewrite iter_pos_nat.
    pose proof (shr_inv_iter (Zpos m) (Pos.to_nat p) _ (shr_inv_start (Zpos m) ltac:(lia)))
      as Hinv.
    rewrite positive_nat_Z in Hinv.
    set (rec := Nat.iter (Pos.to_nat p) shr_1 _) in *.
    pose proof (round_nearest_even_bounds _ _ _ Hinv) as [Hq Hround].
    destruct Hinv as (Hm0 & Hrem & _).
    set (q := round_nearest_even (shr_m rec) (loc_of_shr_record rec)) in *.
    assert (0 < 2 ^ Zpos p) as HP by (apply pow2_pos; lia).
    assert (d - 24 <= Zpos p) as Hnd by lia.
    assert (shr_m rec < 16777216) as Hm24.
    { destruct (Z.ltb_spec (shr_m rec) 16777216) as [|Hge]; [assumption|].
      assert (2 ^ d <= 2 ^ (Zpos p + 24)) by (apply pow2_le; lia).
      rewrite Z.pow_add_r in * by lia. change (2 ^ 24) with 16777216 in *. nia. }
    exists q.
    split; [lia|]. split; [exact Hround|].
    replace (e + Zpos p) with e1 by lia.
    split; [apply second_shift; lia|].
    intros _. unfold pack.
    destruct q as [|qp|qp] eqn:Eq; [reflexivity| |reflexivity].
    destruct (Z.ltb_spec (Zpos qp) 16777216) as [Hlt | Hge].
    + destruct (Z.leb_spec e1 104); [|reflexivity].
      simpl. unfold bounded, canonical_mantissa. rewrite fexp32.
      apply andb_true_intro. split; [|apply Z.leb_le; lia].
      apply Z.eqb_eq.
      assert (Zpos (digits2_pos qp) <= 24) by (apply digits2_pos_le; [lia | exact Hlt]).
      destruct (Z.leb_spec (-149) (d + e - 24)) as [Hnorm | Hsub]; [|lia].
      (* normal: the floor has 24 bits *)
      assert (Zpos p = d - 24) as Hpd by lia.
      assert (24 <= Zpos (digits2_pos qp)); [|lia].
      apply digits2_pos_ge. change (2 ^ (24 - 1)) with 8388608.
      replace d with (Zpos p + 24) in Hdl by lia.
      replace (Zpos p + 24 - 1) with (Zpos p + 23) in Hdl by lia.
      rewrite Z.pow_add_r in Hdl by lia. change (2 ^ 23) with 8388608 in Hdl. nia.
    + destruct (Z.leb_spec (e1 + 1) 104); [|reflexivity].
      simpl. unfold bounded, canonical_mantissa. rewrite fexp32.
      apply andb_true_intro. split; [|apply Z.leb_le; lia].
      apply Z.eqb_eq. change (digits2_pos 8388608) with 24%positive.
      destruct (Z.leb_spec (-149) (d + e - 24)) as [Hnorm | Hsub]; [lia|].
      (* subnormal: the floor is below 2^23, so no carry to 2^24 *)
      exfalso.
      assert (d - 23 <= Zpos p) by lia.
      assert (2 ^ d <= 2 ^ (Zpos p + 23)) by (apply pow2_le; lia).
      rewrite Z.pow_add_r in * by lia. change (2 ^ 23) with 8388608 in *. nia.
Qed.

Lemma units_pack (s : bool) (q e1 : Z) :
  0 <= q <= 16777216 -> -149 <= e1 -> pack s q e1 <> S754_infinity s ->
  F32.units (pack s q e1) = q * 2 ^ (e1 + 149).
Proof.
  intros Hq He Hinf. unfold pack in *.
  destruct q as [|qp|qp]; [reflexivity| |lia].
  destruct (Z.ltb_spec (Zpos qp) 16777216).
  - destruct (Z.leb_spec e1 104); [reflexivity | congruence].
  - destruct (Z.leb_spec (e1 + 1) 104); [|congruence].
    assert (Zpos qp = 16777216) as -> by lia. simpl F32.units.
    replace (e1 + 1 + 149) with (e1 + 149 + 1) by lia.
    rewrite Z.pow_add_r by lia. change (2 ^ 1) with 2. lia.
Qed.

Lemma bounded_canonical (m : positive) (e : Z) :
  bounded 24 128 m e = true ->
  let d := Zpos (digits2_pos m) in
  d <= 24 ∧ -149 <= e <= 104 ∧ (d = 24 ∨ e = -149).
Proof.
  unfold bounded, canonical_mantissa. rewrite fexp32.
  intros H. apply andb_prop in H as [Hc Hb].
  apply Z.eqb_eq in Hc. apply Z.leb_le in Hb. simpl in Hb. lia.
Qed.

Lemma mul_damping_finite (s : bool) (mx : positive) (ex : Z) :
  bounded 24 128 mx ex = true ->
  ∃ m' e',
    SFmul 24 128 (S754_finite s mx ex) (S754_finite false 16441672 (-24))
      = S754_finite s m' e' ∧
    bounded 24 128 m' e' = true ∧
    Zpos m' * 2 ^ (e' + 149) <= Zpos mx * 2 ^ (ex + 149) ∧
    (26 <= Zpos mx * 2 ^ (ex + 149) ->
     Zpos m' * 2 ^ (e' + 149) < Zpos mx * 2 ^ (ex + 149)).
Proof.
  intros Hb. apply bounded_canonical in Hb as (Hdx & Hex & Hcan).
  pose proof (digits2_pos_bounds mx) as [Hxl Hxu].
  set (dx := Zpos (digits2_pos mx)) in *.
  assert (0 < dx) as Hdx0 by (subst dx; lia).
  assert (Zpos mx < 16777216) as Hx24.
  { assert (2 ^ dx <= 2 ^ 24) by (apply pow2_le; lia).
    change (2 ^ 24) with 16777216 in *. lia. }
  simpl SFmul. rewrite xorb_false_r.
  destruct (binary_round_aux_pack s (mx * 16441672) (ex + -24)) as (q & Hq & Hr & -> & Hv).
  pose proof (digits2_pos_bounds (mx * 16441672)) as [Hdl Hdu].
  set (d := Zpos (digits2_pos (mx * 16441672))) in *.
  rewrite Pos2Z.inj_mul in *.
  rewrite fexp32 in *.
  set (X := Zpos mx) in *.
  (* the product has 23 or 24 bits more than [mx] *)
  assert (dx + 23 <= d) as Hd1.
  { apply digits2_pos_ge. rewrite Pos2Z.inj_mul. fold X.
    replace (dx + 23 - 1) with ((dx - 1) + 23) by lia.
    rewrite Z.pow_add_r by lia. change (2 ^ 23) with 8388608.
    assert (0 < 2 ^ (dx - 1)) by (apply pow2_pos; lia).
    assert (2 ^ (dx - 1) * 8388608 <= X * 8388608)
      by (apply Z.mul_le_mono_nonneg_r; lia).
    lia. }
  assert (d <= dx + 24) as Hd2.
  { apply digits2_pos_le; [lia|]. rewrite Pos2Z.inj_mul. fold X.
    rewrite Z.pow_add_r by lia. change (2 ^ 24) with 16777216.
    assert (X * 16777216 < 2 ^ dx * 16777216)
      by (apply Z.mul_lt_mono_pos_r; lia).
    lia. }
  set (e1 := Z.max (ex + -24) (Z.max (d + (ex + -24) - 24) (-149))) in *.
  assert (-149 <= e1 <= ex) as He1 by lia.
  assert (ex + -24 <= e1) as He1' by lia.
  set (t := ex - e1).
  replace (e1 - (ex + -24)) with (24 - t) in Hr by lia.
  assert (0 <= t <= 24) as Ht by lia.
  assert (2 ^ (24 - t) * 2 ^ t = 16777216) as HAB.
  { rewrite <- Z.pow_add_r by lia. replace (24 - t + t) with 24 by lia. reflexivity. }
  assert (0 < 2 ^ (24 - t)) as HA by (apply pow2_pos; lia).
  assert (0 < 2 ^ t) as HB by (apply pow2_pos; lia).
  assert (2 ^ (ex + 149) = 2 ^ t * 2 ^ (e1 + 149)) as Hux.
  { rewrite <- Z.pow_add_r by lia. f_equal. lia. }
  assert (0 < 2 ^ (e1 + 149)) as HU by (apply pow2_pos; lia).
  assert (e1 = -149 -> 2 ^ (e1 + 149) = 1) as HW1 by (intros ->; reflexivity).
  (* a normal result: [mx * 2^t] has 24 bits *)
  assert (e1 <> -149 -> 8388608 <= X * 2 ^ t) as Hnormal.
  { intros Hne.
    assert (2 ^ (24 - dx) <= 2 ^ t) by (apply pow2_le; lia).
    assert (2 ^ (dx - 1) * 2 ^ (24 - dx) = 8388608) as H23.
    { rewrite <- Z.pow_add_r by lia.
      replace (dx - 1 + (24 - dx)) with 23 by lia. reflexivity. }
    assert (0 < 2 ^ (24 - dx)) by (apply pow2_pos; lia).
    assert (0 < 2 ^ (dx - 1)) by (apply pow2_pos; lia).
    assert (2 ^ (dx - 1) * 2 ^ (24 - dx) <= X * 2 ^ t)
      by (apply Z.mul_le_mono_nonneg; lia).
    lia. }
  assert (2 ^ (24 - t) <= 16777216) as HA'.
  { change 16777216 with (2 ^ 24). apply pow2_le. lia. }
  set (A := 2 ^ (24 - t)) in *.
  set (B := 2 ^ t) in *.
  set (W := 2 ^ (e1 + 149)) in *.
  assert (q <= X * B) as Hle.
  { destruct (Z.leb_spec q (X * B)) as [|Hgt]; [assumption|].
    assert (A * (X * B + 1) <= A * q) by (apply Z.mul_le_mono_nonneg_l; lia).
    assert (A * (X * B + 1) = 16777216 * X + A)
      by (rewrite <- HAB; ring).
    lia. }
  assert (1 <= q) as Hq1.
  { destruct (Z.leb_spec 1 q); [assumption|].
    assert (q = 0) as Hq0 by lia. rewrite Hq0 in Hr. lia. }
  assert (pack s q e1 <> S754_infinity s) as Hinf.
  { unfold pack. destruct q as [|qp|qp]; [discriminate| |lia].
    destruct (Z.ltb_spec (Zpos qp) 16777216).
    - destruct (Z.leb_spec e1 104); [discriminate | lia].
    - destruct (Z.leb_spec (e1 + 1) 104); [discriminate|].
      assert (t = 0) as Ht0 by lia.
      assert (B = 1) as HB1 by (subst B; rewrite Ht0; reflexivity).
      rewrite HB1 in Hle. lia. }
  pose proof (units_pack s q e1 Hq ltac:(lia) Hinf) as Hunits.
  assert (∃ m' e', pack s q e1 = S754_finite s m' e') as (m' & e' & Hpk).
  { unfold pack in *. destruct q as [|qp|qp]; [lia| |lia].
    destruct (Zpos qp <? 16777216).
    - destruct (e1 <=? 104); [eauto | congruence].
    - destruct (e1 + 1 <=? 104); [eauto | congruence]. }
  exists m', e'. split; [exact Hpk|].
  rewrite Hpk in Hv, Hunits. simpl in Hv, Hunits.
  split; [apply Hv; lia|].
  fold W in Hunits. rewrite Hunits, Hux. fold B W.
  replace (X * (B * W)) with (X * B * W) by ring.
  split; [apply Z.mul_le_mono_nonneg_r; lia|].
  intros H26.
  apply Z.mul_lt_mono_pos_r; [lia|].
  destruct (Z.ltb_spec q (X * B)) as [|Hge]; [assumption|]. exfalso.
  assert (q = X * B) as Heq by lia.
  assert (A * q = 16777216 * X) as HAq by (rewrite Heq, <- HAB; ring).
  assert (671088 * X <= A) as HXA by lia.
  assert (671088 * X * B <= A * B) by (apply Z.mul_le_mono_nonneg_r; lia).
  assert (X * B <= 25) as H25 by lia.
  destruct (Z.eqb_spec e1 (-149)) as [Heq1 | Hne1].
  - rewrite (HW1 Heq1) in H26. lia.
  - specialize (Hnormal Hne1). lia.
Qed.

Lemma iter_xO (m k : positive) : Zpos (Pos.iter xO m k) = Zpos m * 2 ^ Zpos k.
Proof.
  induction k as [|k IH] using Pos.peano_ind.
  - simpl. lia.
  - rewrite Pos.iter_succ, Pos2Z.inj_xO, IH, Pos2Z.inj_succ, Z.pow_succ_r by lia. ring.
Qed.

Lemma digits2_pos_shift (m k : positive) :
  Zpos (digits2_pos (Pos.iter xO m k)) = Zpos (digits2_pos m) + Zpos k.
Proof.
  apply digits2_pos_unique. rewrite iter_xO.
  pose proof (digits2_pos_bounds m) as [Hl Hu].
  assert (0 < 2 ^ Zpos k) by (apply pow2_pos; lia).
  replace (Zpos (digits2_pos m) + Zpos k - 1) with (Zpos (digits2_pos m) - 1 + Zpos k) by lia.
  rewrite !Z.pow_add_r by lia.
  split; [apply Z.mul_le_mono_nonneg_r; lia | apply Z.mul_lt_mono_pos_r; lia].
Qed.

Lemma shl_align_le (m : positive) (e e' : Z) :
  e <= e' -> shl_align m e e' = (m, e).
Proof. unfold shl_align. destruct (e' - e) eqn:H; [reflexivity | reflexivity | lia]. Qed.

Lemma shl_align_gt (m : positive) (e e' : Z) :
  e' < e -> shl_align m e e' = (Pos.iter xO m (Z.to_pos (e - e')), e').
Proof.
  unfold shl_align. destruct (e' - e) as [|k|k] eqn:H; [lia | lia |].
  intros _. do 2 f_equal. lia.
Qed.

(** [binary_round]: the mantissa is first shifted left up to 24 bits, then
    rounded.  [e1] is the exponent of the grid the result lies on. *)
Lemma binary_round_pack (s : bool) (m : positive) (e : Z) :
  let d := Zpos (digits2_pos m) in
  let e1 := fexp 24 128 (d + e) in
  ∃ q,
    0 <= q <= 16777216 ∧
    (e1 <= e -> q = Zpos m * 2 ^ (e - e1)) ∧
    (e <= e1 -> - 2 ^ (e1 - e) <= 2 * (Zpos m - 2 ^ (e1 - e) * q) <= 2 ^ (e1 - e)) ∧
    binary_round 24 128 s m e = pack s q e1 ∧
    valid_binary 24 128 (pack s q e1) = true.
Proof.
  intros d e1. unfold binary_round. fold d. fold e1.
  destruct (Z.leb_spec e e1) as [Hle | Hgt].
  - rewrite shl_align_le by exact Hle.
    destruct (binary_round_aux_pack s m e) as (q & Hq & Hr & Hp & Hv).
    fold d in Hr, Hp, Hv. fold e1 in Hr, Hp, Hv.
    replace (Z.max e e1) with e1 in * by lia.
    exists q. split; [exact Hq|].
    split.
    { intros Hle'. assert (e1 = e) as Heq by lia. rewrite Heq in *.
      replace (e - e) with 0 in * by lia. simpl (2 ^ 0) in *. lia. }
    split; [intros _; exact Hr|].
    split; [exact Hp | apply Hv; lia].
  - rewrite shl_align_gt by exact Hgt.
    set (k := Z.to_pos (e - e1)).
    assert (Zpos k = e - e1) as Hk by (subst k; lia).
    destruct (binary_round_aux_pack s (Pos.iter xO m k) e1) as (q & Hq & Hr & Hp & Hv).
    rewrite digits2_pos_shift in Hr, Hp, Hv. fold d in Hr, Hp, Hv.
    replace (d + Zpos k + e1) with (d + e) in * by lia. fold e1 in Hr, Hp, Hv.
    replace (Z.max e1 e1) with e1 in * by lia.
    replace (e1 - e1) with 0 in Hr by lia. simpl (2 ^ 0) in Hr.
    rewrite iter_xO, Hk in Hr.
    exists q. split; [exact Hq|].
    split; [intros _; lia|].
    split; [intros; lia|].
    split; [exact Hp | apply Hv; lia].
Qed.

Lemma binary_round_valid (s : bool) (m : positive) (e : Z) :
  valid_binary 24 128 (binary_round 24 128 s m e) = true.
Proof.
  destruct (binary_round_pack s m e) as (q & _ & _ & _ & -> & Hv). exact Hv.
Qed.

Lemma binary_normalize_valid (m e : Z) (sz : bool) :
  valid_binary 24 128 (binary_normalize 24 128 m e sz) = true.
Proof.
  destruct m; simpl; [reflexivity | apply binary_round_valid | apply binary_round_valid].
Qed.

Lemma SFadd_valid (x y : spec_float) :
  valid_binary 24 128 x = true -> valid_binary 24 128 y = true ->
  valid_binary 24 128 (SFadd 24 128 x y) = true.
Proof.
  intros Hx Hy.
  destruct x as [sx|sx| |sx mx ex], y as [sy|sy| |sy my ey]; simpl SFadd;
    try reflexivity; try assumption;
    try (destruct sx, sy; reflexivity).
  apply binary_normalize_valid.
Qed.

Lemma SFsub_valid (x y : spec_float) :
  valid_binary 24 128 x = true -> valid_binary 24 128 y = true ->
  valid_binary 24 128 (SFsub 24 128 x y) = true.
Proof.
  intros Hx Hy.
  destruct x as [sx|sx| |sx mx ex], y as [sy|sy| |sy my ey]; simpl SFsub;
    try reflexivity; try assumption;
    try (destruct sx, sy; reflexivity).
  apply binary_normalize_valid.
Qed.

Lemma pack_not_inf (s : bool) (q e1 : Z) :
  0 <= q <= 16777216 -> e1 <= 103 -> pack s q e1 <> S754_infinity s.
Proof.
  intros Hq He. unfold pack. destruct q as [|qp|qp]; [discriminate| |discriminate].
  destruct (Zpos qp <? 16777216).
  - destruct (Z.leb_spec e1 104); [discriminate | lia].
  - destruct (Z.leb_spec (e1 + 1) 104); [discriminate | lia].
Qed.

Lemma sub_dt_step (m : positive) (e : Z) :
  bounded 24 128 m e = true ->
  SFleb TARGET_DT (S754_finite false m e) = true ->
  Zpos m * 2 ^ (e + 149) < 2 ^ 168 ->
  let a' := SFsub 24 128 (S754_finite false m e) TARGET_DT in
  valid_binary 24 128 a' = true ∧
  a' <> S754_infinity false ∧
  F32.units a' < Zpos m * 2 ^ (e + 149).
Proof.
  rewrite TARGET_DT_value. intros Hb Hle Hlt.
  apply bounded_canonical in Hb as (Hd & He & Hcan).
  pose proof (digits2_pos_bounds m) as [Hml Hmu].
  set (dm := Zpos (digits2_pos m)) in *.
  (* [dt <= a] read off the comparison *)
  assert (-29 <= e ∧ (e = -29 -> 8947849 <= Zpos m)) as [He29 Hm29].
  { unfold SFleb, SFcompare in Hle.
    destruct (Z.compare_spec (-29) e) as [Heq | Hlt' | Hgt]; [| lia | discriminate].
    split; [lia|]. intros _.
    destruct (Pos.compare_cont Eq 8947849 m) eqn:Hc; try discriminate.
    - apply Pos.compare_eq in Hc. lia.
    - assert (8947849 < m)%positive as Hc' by exact Hc. lia. }
  intros a'. split; [apply SFsub_valid; [|reflexivity]|].
  { simpl. unfold bounded, canonical_mantissa. rewrite fexp32. fold dm.
    apply andb_true_intro. split; [apply Z.eqb_eq; lia | apply Z.leb_le; simpl; lia]. }
  subst a'. simpl SFsub.
  rewrite Z.min_r by lia.
  rewrite (shl_align_le 8947849 (-29) (-29)) by lia. simpl fst.
  set (U := Zpos m * 2 ^ (e + 29)).
  assert (Zpos (fst (shl_align m e (-29))) = U) as ->.
  { subst U. destruct (Z.eqb_spec e (-29)) as [-> | Hne].
    - rewrite shl_align_le by lia. simpl. lia.
    - rewrite shl_align_gt by lia. simpl fst. rewrite iter_xO. f_equal. f_equal. lia. }
  assert (2 ^ (e + 149) = 2 ^ (e + 29) * 2 ^ 120) as Hpow.
  { rewrite <- Z.pow_add_r by lia. f_equal. lia. }
  rewrite Hpow in *. rewrite Z.mul_assoc in *. fold U in Hlt |- *.
  assert (0 < 2 ^ (e + 29)) as HP by (apply pow2_pos; lia).
  assert (8947849 <= U) as HU.
  { subst U. destruct (Z.eqb_spec e (-29)) as [-> | Hne].
    - simpl (2 ^ (-29 + 29)). specialize (Hm29 eq_refl). lia.
    - assert (dm = 24) as Hdm by lia. rewrite Hdm in Hml.
      change (2 ^ (24 - 1)) with 8388608 in Hml.
      assert (2 ^ 1 <= 2 ^ (e + 29)) by (apply pow2_le; lia).
      change (2 ^ 1) with 2 in *.
      assert (8388608 * 2 <= Zpos m * 2 ^ (e + 29))
        by (apply Z.mul_le_mono_nonneg; lia).
      lia. }
  assert (U < 2 ^ 48) as HU48.
  { change (2 ^ 168) with (2 ^ 48 * 2 ^ 120) in Hlt.
    apply Z.mul_lt_mono_pos_r in Hlt; [exact Hlt | reflexivity]. }
  simpl cond_Zopp.
  destruct (U - 8947849) as [|Dp|Dp] eqn:HD; [| |lia].
  - simpl. split; [discriminate|]. change (2 ^ 120) with 1329227995784915872903807060280344576. lia.
  - simpl binary_normalize.
    destruct (binary_round_pack false Dp (-29)) as (q & Hq & Hex & Hr & -> & _).
    pose proof (digits2_pos_bounds Dp) as [Hdl Hdu].
    set (d := Zpos (digits2_pos Dp)) in *.
    assert (0 < d) as Hd0 by (subst d; lia).
    assert (d <= 48) as Hd48 by (apply digits2_pos_le; lia).
    rewrite fexp32 in *.
    replace (Z.max (d + -29 - 24) (-149)) with (d - 53) in * by lia.
    assert (pack false q (d - 53) <> S754_infinity false) as Hinf
      by (apply pack_not_inf; lia).
    split; [exact Hinf|].
    rewrite (units_pack false q (d - 53) Hq ltac:(lia) Hinf).
    destruct (Z.leb_spec d 24) as [Hsmall | Hbig].
    + (* the difference has at most 24 bits: it is exact *)
      rewrite (Hex ltac:(lia)).
      rewrite <- Z.mul_assoc, <- Z.pow_add_r by lia.
      replace (-29 - (d - 53) + (d - 53 + 149)) with 120 by lia.
      apply Z.mul_lt_mono_pos_r; [reflexivity | lia].
    + (* rounded: the error is at most 2^23 < dt *)
      specialize (Hr ltac:(lia)).
      replace (d - 53 - -29) with (d - 24) in Hr by lia.
      replace (d - 53 + 149) with ((d - 24) + 120) by lia.
      rewrite Z.pow_add_r by lia. rewrite Z.mul_assoc.
      apply Z.mul_lt_mono_pos_r; [reflexivity|].
      assert (2 ^ (d - 24) <= 2 ^ 24) by (apply pow2_le; lia).
      change (2 ^ 24) with 16777216 in *.
      lia.
Qed.

(** At [2^19] the subtraction still takes one step down. *)
Lemma sub_dt_step_le (m : positive) (e : Z) :
  bounded 24 128 m e = true ->
  SFleb TARGET_DT (S754_finite false m e) = true ->
  Zpos m * 2 ^ (e + 149) <= 2 ^ 168 ->
  let a' := SFsub 24 128 (S754_finite false m e) TARGET_DT in
  valid_binary 24 128 a' = true ∧
  a' <> S754_infinity false ∧
  F32.units a' < Zpos m * 2 ^ (e + 149).
Proof.
  intros Hb Hle Hu.
  destruct (Z.eq_dec (Zpos m * 2 ^ (e + 149)) (2 ^ 168)) as [Heq | Hne];
    [|apply sub_dt_step; [assumption | assumption | lia]].
  pose proof (bounded_canonical m e Hb) as (Hd & He & Hcan).
  pose proof (digits2_pos_bounds m) as [Hml Hmu].
  set (dm := Zpos (digits2_pos m)) in *.
  assert (Zpos m < 16777216) as Hm24.
  { assert (2 ^ dm <= 2 ^ 24) by (apply pow2_le; lia).
    change (2 ^ 24) with 16777216 in *. lia. }
  assert (e = -4) as ->.
  { destruct (Z.lt_trichotomy (e + 149) 145) as [Hlt | [Heq' | Hgt]]; [exfalso | lia | exfalso].
    - assert (2 ^ (e + 149) <= 2 ^ 144) by (apply pow2_le; lia).
      assert (Zpos m * 2 ^ (e + 149) < 16777216 * 2 ^ 144); [|rewrite Heq in *; lia].
      assert (0 < 2 ^ (e + 149)) by (apply pow2_pos; lia).
      apply Z.le_lt_trans with (Zpos m * 2 ^ 144).
      + apply Z.mul_le_mono_nonneg_l; lia.
      + apply Z.mul_lt_mono_pos_r; [reflexivity | lia].
    - assert (dm = 24) as Hdm by lia. rewrite Hdm in Hml.
      change (2 ^ (24 - 1)) with 8388608 in Hml.
      assert (2 ^ 146 <= 2 ^ (e + 149)) by (apply pow2_le; lia).
      assert (8388608 * 2 ^ 146 <= Zpos m * 2 ^ (e + 149))
        by (apply Z.mul_le_mono_nonneg; lia).
      rewrite Heq in *. lia. }
  assert (m = 8388608%positive) as ->.
  { change (-4 + 149) with 145 in Heq.
    change (2 ^ 168) with (8388608 * 2 ^ 145) in Heq.
    apply Z.mul_reg_r in Heq; [lia | discriminate]. }
  vm_compute. repeat split; discriminate.
Qed.

(** Above [2^19] the subtraction is absorbed. *)
Lemma sub_dt_absorbed (m : positive) (e : Z) :
  bounded 24 128 m e = true ->
  2 ^ 168 < Zpos m * 2 ^ (e + 149) ->
  SFleb TARGET_DT (S754_finite false m e) = true ∧
  SFsub 24 128 (S754_finite false m e) TARGET_DT = S754_finite false m e.
Proof.
  rewrite TARGET_DT_value. intros Hb Hu.
  apply bounded_canonical in Hb as (Hd & He & Hcan).
  pose proof (digits2_pos_bounds m) as [Hml Hmu].
  set (dm := Zpos (digits2_pos m)) in *.
  assert (Zpos m < 16777216) as Hm24.
  { assert (2 ^ dm <= 2 ^ 24) by (apply pow2_le; lia).
    change (2 ^ 24) with 16777216 in *. lia. }
  assert (-4 <= e) as He4.
  { destruct (Z.leb_spec (-4) e); [assumption | exfalso].
    assert (2 ^ (e + 149) <= 2 ^ 144) by (apply pow2_le; lia).
    assert (0 < 2 ^ (e + 149)) by (apply pow2_pos; lia).
    assert (Zpos m * 2 ^ (e + 149) <= Zpos m * 2 ^ 144)
      by (apply Z.mul_le_mono_nonneg_l; lia).
    assert (Zpos m * 2 ^ 144 < 16777216 * 2 ^ 144)
      by (apply Z.mul_lt_mono_pos_r; [reflexivity | lia]).
    change (2 ^ 168) with (16777216 * 2 ^ 144) in Hu. lia. }
  assert (dm = 24) as Hdm by lia. rewrite Hdm in Hml.
  change (2 ^ (24 - 1)) with 8388608 in Hml.
  assert (e = -4 -> 8388608 < Zpos m) as Hm4.
  { intros ->. change (-4 + 149) with 145 in Hu.
    change (2 ^ 168) with (8388608 * 2 ^ 145) in Hu.
    apply Z.mul_lt_mono_pos_r in Hu; [exact Hu | reflexivity]. }
  split.
  { unfold SFleb, SFcompare.
    destruct (Z.compare_spec (-29) e); [lia | reflexivity | lia]. }
  simpl SFsub. rewrite Z.min_r by lia.
  rewrite (shl_align_le 8947849 (-29) (-29)) by lia.
  rewrite shl_align_gt by lia. simpl fst. simpl cond_Zopp. rewrite iter_xO.
  replace (Zpos (Z.to_pos (e - -29))) with (e + 29) by lia.
  set (P := 2 ^ (e + 29)).
  assert (33554432 <= P) as HP.
  { change 33554432 with (2 ^ 25). apply pow2_le. lia. }
  destruct (Zpos m * P - 8947849) as [|Dp|Dp] eqn:HD; [nia| |nia].
  simpl binary_normalize.
  destruct (binary_round_pack false Dp (-29)) as (q & Hq & _ & Hr & -> & _).
  pose proof (digits2_pos_bounds Dp) as [Hdl Hdu].
  set (d := Zpos (digits2_pos Dp)) in *.
  rewrite fexp32 in *.
  destruct (Z.eq_dec (Zpos m) 8388608) as [Hm | Hm].
  - (* a power of two: the difference has one bit less *)
    assert (-3 <= e) as He3 by (destruct (Z.eq_dec e (-4)) as [E|E]; [specialize (Hm4 E) | ]; lia).
    set (P' := 2 ^ (e + 28)).
    assert (P = 2 * P') as HPP.
    { subst P P'. replace (e + 29) with (e + 28 + 1) by lia.
      rewrite Z.pow_add_r by lia. change (2 ^ 1) with 2. ring. }
    assert (33554432 <= P') as HP'.
    { change 33554432 with (2 ^ 25). apply pow2_le. lia. }
    rewrite Hm, HPP in HD.
    assert (d = e + 52) as Hdd.
    { apply digits2_pos_unique.
      replace (e + 52 - 1) with (e + 28 + 23) by lia.
      replace (e + 52) with (e + 28 + 24) by lia.
      rewrite (Z.pow_add_r 2 (e + 28) 23), (Z.pow_add_r 2 (e + 28) 24) by lia.
      fold P'. change (2 ^ 23) with 8388608. change (2 ^ 24) with 16777216. lia. }
    rewrite Hdd in Hr |- *.
    replace (Z.max (e + 52 + -29 - 24) (-149)) with (e - 1) in * by lia.
    specialize (Hr ltac:(lia)).
    replace (e - 1 - -29) with (e + 28) in Hr by lia. fold P' in Hr.
    assert (q = 16777216) as ->.
    { destruct (Z.lt_trichotomy q 16777216) as [Hlt | [Heq | Hgt]]; [exfalso | exact Heq | exfalso].
      - assert (P' * q <= P' * 16777215) by (apply Z.mul_le_mono_nonneg_l; lia). lia.
      - lia. }
    unfold pack. change (16777216 <? 16777216) with false. cbv iota.
    replace (e - 1 + 1) with e by lia.
    destruct (Z.leb_spec e 104); [|lia].
    assert (m = 8388608%positive) as Em by lia.
    rewrite Em. reflexivity.
  - (* otherwise the difference has as many bits as the accumulator *)
    assert (d = e + 53) as Hdd.
    { apply digits2_pos_unique.
      replace (e + 53 - 1) with (e + 29 + 23) by lia.
      replace (e + 53) with (e + 29 + 24) by lia.
      rewrite (Z.pow_add_r 2 (e + 29) 23), (Z.pow_add_r 2 (e + 29) 24) by lia.
      fold P. change (2 ^ 23) with 8388608. change (2 ^ 24) with 16777216.
      assert (P * 8388609 <= P * Zpos m) by (apply Z.mul_le_mono_nonneg_l; lia).
      assert (P * Zpos m <= P * 16777215) by (apply Z.mul_le_mono_nonneg_l; lia).
      lia. }
    rewrite Hdd in Hr |- *.
    replace (Z.max (e + 53 + -29 - 24) (-149)) with e in * by lia.
    specialize (Hr ltac:(lia)).
    replace (e - -29) with (e + 29) in Hr by lia. fold P in Hr.
    assert (q = Zpos m) as ->.
    { destruct (Z.lt_trichotomy q (Zpos m)) as [Hlt | [Heq | Hgt]]; [exfalso | exact Heq | exfalso].
      - assert (P * q <= P * (Zpos m - 1)) by (apply Z.mul_le_mono_nonneg_l; lia). lia.
      - assert (P * (Zpos m + 1) <= P * q) by (apply Z.mul_le_mono_nonneg_l; lia). lia. }
    unfold pack.
    destruct (Z.ltb_spec (Zpos m) 16777216); [|lia].
    destruct (Z.leb_spec e 104); [reflexivity | lia].
Qed.


(** ** The physics system *)

Section Physics.
Variable dt : F32.t.

Lemma physics_step_frame em e :
  nextId (physics_step dt em e) = nextId em ∧
  entities (physics_step dt em e) = entities em ∧
  sprites (physics_step dt em e) = sprites em.
Proof.
  unfold physics_step.
  destruct (bodies em !! e), (transforms em !! e); auto.
Qed.

Lemma physics_step_other em e k :
  k ≠ e ->
  transforms (physics_step dt em e) !! k = transforms em !! k ∧
  bodies (physics_step dt em e) !! k = bodies em !! k.
Proof.
  intros Hne. unfold physics_step.
  destruct (bodies em !! e), (transforms em !! e); simpl; auto.
  split; apply lookup_insert_ne; congruence.
Qed.

Lemma physics_step_skip em e :
  bodies em !! e = None ∨ transforms em !! e = None ->
  physics_step dt em e = em.
Proof.
  unfold physics_step.
  intros [H | H]; rewrite H; [reflexivity|].
  destruct (bodies em !! e); reflexivity.
Qed.

(** The entries at [k] after the turn for [k] are a function of the
    entries at [k] before it. *)
Lemma physics_step_self em k :
  transforms (physics_step dt em k) !! k
    = match bodies em !! k, transforms em !! k with
      | Some rb, Some t => Some (integrated dt rb t)
      | _, _ => transforms em !! k
      end ∧
  bodies (physics_step dt em k) !! k
    = match bodies em !! k, transforms em !! k with
      | Some rb, Some t => Some (damped rb)
      | _, _ => bodies em !! k
      end.
Proof.
  unfold physics_step.
  destruct (bodies em !! k) as [rb|] eqn:Eb, (transforms em !! k) as [t|] eqn:Et;
    simpl; rewrite ?lookup_insert_eq; auto.
Qed.

Lemma physics_fold_frame es em :
  nextId (fold_left (physics_step dt) es em) = nextId em ∧
  entities (fold_left (physics_step dt) es em) = entities em ∧
  sprites (fold_left (physics_step dt) es em) = sprites em.
Proof.
  revert em. induction es as [|a es IH]; intros em; simpl; [auto|].
  destruct (IH (physics_step dt em a)) as (-> & -> & ->).
  apply physics_step_frame.
Qed.

Lemma physics_fold_notin es em k :
  k ∉ es ->
  transforms (fold_left (physics_step dt) es em) !! k = transforms em !! k ∧
  bodies (fold_left (physics_step dt) es em) !! k = bodies em !! k.
Proof.
  revert em. induction es as [|a es IH]; intros em Hk; simpl; [auto|].
  apply not_elem_of_cons in Hk as [Hne Hk].
  destruct (IH (physics_step dt em a) Hk) as [-> ->].
  now apply physics_step_other.
Qed.

(** With no entity listed twice, the loop does to key [k] what its one
    turn for [k] does. *)
Lemma physics_fold_in es em k :
  NoDup es -> k ∈ es ->
  transforms (fold_left (physics_step dt) es em) !! k
    = transforms (physics_step dt em k) !! k ∧
  bodies (fold_left (physics_step dt) es em) !! k
    = bodies (physics_step dt em k) !! k.
Proof.
  revert em. induction es as [|a es IH]; intros em Hnd Hk; simpl.
  - now apply elem_of_nil in Hk.
  - apply NoDup_cons in Hnd as [Ha Hnd].
    apply elem_of_cons in Hk as [<- | Hk].
    + now apply physics_fold_notin.
    + assert (k ≠ a) as Hne by (intros ->; contradiction).
      destruct (IH (physics_step dt em a) Hnd Hk) as [-> ->].
      destruct (physics_step_other em a k Hne) as [Et Eb].
      destruct (physics_step_self (physics_step dt em a) k) as [-> ->].
      destruct (physics_step_self em k) as [-> ->].
      now rewrite Et, Eb.
Qed.

(** The tables at a key the loop does not integrate are as before. *)
Lemma physics_untouched em k :
  bodies em !! k = None ∨ transforms em !! k = None ∨ k ∉ entities em ->
  transforms (physicsSystem em dt) !! k = transforms em !! k ∧
  bodies (physicsSystem em dt) !! k = bodies em !! k.
Proof.
  unfold physicsSystem. generalize (entities em) as es.
  intros es H. revert em H.
  induction es as [|a es IH]; intros em H; simpl; [auto|].
  destruct (decide (k = a)) as [-> | Hne].
  - destruct H as [H | [H | H]].
    + rewrite physics_step_skip by auto. apply IH. auto.
    + rewrite physics_step_skip by auto. apply IH. auto.
    + apply not_elem_of_cons in H as [H _]. congruence.
  - destruct (physics_step_other em a k Hne) as [Et Eb].
    assert (bodies (physics_step dt em a) !! k = None
            ∨ transforms (physics_step dt em a) !! k = None ∨ k ∉ es) as H'.
    { rewrite Et, Eb. destruct H as [H | [H | H]]; auto.
      apply not_elem_of_cons in H as [_ H]. auto. }
    destruct (IH _ H') as [-> ->]. auto.
Qed.
End Physics.

(** An entity of a duplicate-free live list that has both components is
    integrated and damped once. *)
Lemma physicsSystem_both em dt e rb t :
  NoDup (entities em) -> e ∈ entities em ->
  bodies em !! e = Some rb -> transforms em !! e = Some t ->
  transforms (physicsSystem em dt) !! e = Some (integrated dt rb t) ∧
  bodies (physicsSystem em dt) !! e = Some (damped rb).
Proof.
  intros Hnd He Hb Ht. unfold physicsSystem.
  destruct (physics_fold_in dt (entities em) em e Hnd He) as [-> ->].
  destruct (physics_step_self dt em e) as [-> ->].
  now rewrite Hb, Ht.
Qed.

(** C1.  One call of [physicsSystem] with timestep [dt], on a live list
    without duplicates: an entity of the list that has a Rigidbody and a
    Transform gets position + velocity * dt (componentwise, in binary32
    arithmetic) and then velocity * 0.98f; rotation, scale and mass are
    kept; every other key of the two tables, the sprites, the live list and
    the identifier counter are as before.  [0.98f] is the binary32 number
    nearest to 0.98.  For a velocity.x of 100 and dt = 1/60 the new
    velocity.x is exactly 98, and the position.x grows by the binary32
    product 100 * (1/60), which is within 2^-23 of 100/60. *)
Theorem physicsSystem_integrates (em : EntityManager) (dt : F32.t) :
  NoDup (entities em) ->
  let em' := physicsSystem em dt in
  (∀ e rb t,
      e ∈ entities em -> bodies em !! e = Some rb -> transforms em !! e = Some t ->
      transforms em' !! e
        = Some (Transform.mk
                  (Vec2.mk
                     (F32.add (Vec2.x (Transform.pos t)) (F32.mul (Vec2.x (Rigidbody.vel rb)) dt))
                     (F32.add (Vec2.y (Transform.pos t)) (F32.mul (Vec2.y (Rigidbody.vel rb)) dt)))
                  (Transform.rot t) (Transform.scale t)) ∧
      bodies em' !! e
        = Some (Rigidbody.mk
                  (Vec2.mk (F32.mul (Vec2.x (Rigidbody.vel rb)) DAMPING)
                           (F32.mul (Vec2.y (Rigidbody.vel rb)) DAMPING))
                  (Rigidbody.mass rb))) ∧
  (∀ e,
      bodies em !! e = None ∨ transforms em !! e = None ∨ e ∉ entities em ->
      transforms em' !! e = transforms em !! e ∧ bodies em' !! e = bodies em !! e) ∧
  sprites em' = sprites em ∧ entities em' = entities em ∧ nextId em' = nextId em ∧
  (Qabs (F32.to_Q DAMPING - (98 # 100))%Q <= 1 # 33554432)%Q ∧
  (∀ e rb t,
      e ∈ entities em -> bodies em !! e = Some rb -> transforms em !! e = Some t ->
      dt = TARGET_DT -> Vec2.x (Rigidbody.vel rb) = F32.of_Z 100 ->
      ∃ rb' t',
        bodies em' !! e = Some rb' ∧ transforms em' !! e = Some t' ∧
        Vec2.x (Rigidbody.vel rb') = F32.of_Z 98 ∧
        Vec2.x (Transform.pos t')
          = F32.add (Vec2.x (Transform.pos t)) (F32.mul (F32.of_Z 100) TARGET_DT)) ∧
  (Qabs (F32.to_Q (F32.mul (F32.of_Z 100) TARGET_DT) - (100 # 60))%Q < 1 # 8388608)%Q.
Proof.
  intros Hnd em'.
  assert (∀ e rb t,
      e ∈ entities em -> bodies em !! e = Some rb -> transforms em !! e = Some t ->
      transforms em' !! e = Some (integrated dt rb t) ∧
      bodies em' !! e = Some (damped rb)) as Hboth.
  { intros e rb t He Hb Ht. now apply physicsSystem_both. }
  split; [exact Hboth|].
  split; [intros e H; now apply physics_untouched|].
  destruct (physics_fold_frame dt (entities em) em) as (Hn & He & Hs).
  split; [exact Hs|]. split; [exact He|]. split; [exact Hn|].
  split; [vm_compute; discriminate|].
  split; [|vm_compute; reflexivity].
  intros e rb t Hin Hb Ht -> Hv.
  destruct (Hboth e rb t Hin Hb Ht) as [Et Eb].
  exists (damped rb), (integrated TARGET_DT rb t).
  split; [exact Eb|]. split; [exact Et|].
  unfold damped, integrated; simpl. rewrite Hv.
  split; [vm_compute; reflexivity | reflexivity].
Qed.

Lemma physicsSystem_integrates_witness :
  let em := snd (scene 7) in
  NoDup (entities em) ∧
  transforms (physicsSystem em TARGET_DT) !! 2 = transforms em !! 2.
Proof.
  assert (NoDup (entities (snd (scene 7)))) as Hnd.
  { apply (bool_decide_unpack _). vm_compute. exact I. }
  split; [exact Hnd|].
  apply (physicsSystem_integrates (snd (scene 7)) TARGET_DT Hnd).
  left. vm_compute. reflexivity.
Defined.

(** ** The control system *)

Lemma control_frame player em i speed :
  let em' := playerControlSystem player em i speed in
  nextId em' = nextId em ∧ entities em' = entities em ∧
  transforms em' = transforms em ∧ sprites em' = sprites em ∧
  ∀ k, k ≠ player -> bodies em' !! k = bodies em !! k.
Proof.
  unfold playerControlSystem.
  destruct (bodies em !! player); simpl; repeat split; auto.
  intros k Hk. apply lookup_insert_ne. congruence.
Qed.

Lemma zero_times_speed : F32.mul F32.zero PLAYER_SPEED = F32.zero.
Proof. vm_compute. reflexivity. Qed.

(** C6.  [playerControlSystem] for player [p], snapshot [i] and speed [s]:
    when [p] has a Rigidbody, its velocity becomes the old velocity plus
    (axisX * s, axisY * s) in binary32 arithmetic and its mass is kept, the
    Rigidbody of every other entity, all transforms, all sprites, the live
    list and the identifier counter are unchanged; when [p] has no Rigidbody
    the store is returned as it is.  With both axes zero and the speed of
    the loop, a finite nonzero velocity component is left as it is: releasing
    the keys does not stop the entity. *)
Theorem playerControlSystem_adds_axis_speed
    (p : Entity) (em : EntityManager) (i : InputState.t) (s : F32.t) :
  let em' := playerControlSystem p em i s in
  (∀ rb, bodies em !! p = Some rb ->
     bodies em' !! p
       = Some (Rigidbody.mk
                 (Vec2.mk
                    (F32.add (Vec2.x (Rigidbody.vel rb)) (F32.mul (InputState.axisX i) s))
                    (F32.add (Vec2.y (Rigidbody.vel rb)) (F32.mul (InputState.axisY i) s)))
                 (Rigidbody.mass rb))) ∧
  (∀ k, k ≠ p -> bodies em' !! k = bodies em !! k) ∧
  transforms em' = transforms em ∧ sprites em' = sprites em ∧
  entities em' = entities em ∧ nextId em' = nextId em ∧
  (bodies em !! p = None -> em' = em) ∧
  (∀ rb sg m e,
     bodies em !! p = Some rb -> s = PLAYER_SPEED ->
     InputState.axisX i = F32.zero -> InputState.axisY i = F32.zero ->
     (Vec2.x (Rigidbody.vel rb) = S754_finite sg m e ->
      Vec2.x ∘ Rigidbody.vel <$> bodies em' !! p = Some (S754_finite sg m e)) ∧
     (Vec2.y (Rigidbody.vel rb) = S754_finite sg m e ->
      Vec2.y ∘ Rigidbody.vel <$> bodies em' !! p = Some (S754_finite sg m e))).
Proof.
  intros em'.
  assert (∀ rb, bodies em !! p = Some rb ->
     bodies em' !! p
       = Some (Rigidbody.mk
                 (Vec2.mk
                    (F32.add (Vec2.x (Rigidbody.vel rb)) (F32.mul (InputState.axisX i) s))
                    (F32.add (Vec2.y (Rigidbody.vel rb)) (F32.mul (InputState.axisY i) s)))
                 (Rigidbody.mass rb))) as Hp.
  { intros rb Hb. subst em'. unfold playerControlSystem. rewrite Hb. simpl.
    apply lookup_insert_eq. }
  destruct (control_frame p em i s) as (Hn & He & Ht & Hs & Hk).
  repeat (split; [assumption|]).
  split.
  - intros Hb. subst em'. unfold playerControlSystem. now rewrite Hb.
  - intros rb sg m e Hb -> Hx Hy. rewrite (Hp rb Hb). simpl.
    rewrite Hx, Hy, zero_times_speed.
    split; intros ->; reflexivity.
Qed.

(** C8, as the spec words it: no system of the fixed tick other than the
    physics system changes a velocity.  Refuted by the player of the scene of
    [main] with the D key down. *)
Lemma control_leaves_velocity_refuted :
  ¬ (∀ (player : Entity) (em : EntityManager) (i : InputState.t) (e : Entity),
        Rigidbody.vel <$> bodies (playerControlSystem player em i PLAYER_SPEED) !! e
        = Rigidbody.vel <$> bodies em !! e).
Proof.
  intros H.
  specialize (H 1 (snd (scene 7))
                (processInput [SDL_KEYDOWN SDLK_d] InputState.default) 1).
  vm_compute in H. discriminate H.
Qed.

(** C8, amended.  In a fixed tick the physics system is the only writer of
    positions: the control system, the other system of the tick, leaves every
    transform as it is, and it leaves the velocity of every entity other than
    the controlled one as it is; the velocity of the controlled entity is
    written by both systems. *)
Theorem control_writes_only_player_velocity
    (player : Entity) (em : EntityManager) (i : InputState.t) (speed : F32.t) :
  let em' := playerControlSystem player em i speed in
  transforms em' = transforms em ∧
  (∀ e, Transform.pos <$> transforms em' !! e = Transform.pos <$> transforms em !! e) ∧
  (∀ e, e ≠ player ->
        Rigidbody.vel <$> bodies em' !! e = Rigidbody.vel <$> bodies em !! e).
Proof.
  intros em'.
  destruct (control_frame player em i speed) as (_ & _ & Ht & _ & Hk).
  fold em' in Ht, Hk.
  split; [exact Ht|]. split.
  - intros e. now rewrite Ht.
  - intros e He. now rewrite (Hk e He).
Qed.

(** ** The input snapshot *)

(** Handling an event never touches the axes, and it changes the flags in a
    way that does not depend on the snapshot it starts from. *)
Lemma handle_event_axes i e :
  InputState.axisX (handle_event i e) = InputState.axisX i ∧
  InputState.axisY (handle_event i e) = InputState.axisY i.
Proof.
  destruct i as [q ax ay l r u d], e as [|[]|[]|]; simpl; auto.
Qed.

Lemma fold_handle_event_axes evs i :
  InputState.axisX (fold_left handle_event evs i) = InputState.axisX i ∧
  InputState.axisY (fold_left handle_event evs i) = InputState.axisY i.
Proof.
  revert i. induction evs as [|e evs IH]; intros i; simpl; [auto|].
  destruct (IH (handle_event i e)) as [-> ->]. apply handle_event_axes.
Qed.

(** C5.  After [processInput], whatever the events and the previous
    snapshot: axisX is (+1 if right) + (-1 if left) and axisY is
    (+1 if down) + (-1 if up) for the flags of the snapshot; left and right
    together give axisX = 0, up and down together give axisY = 0; each axis
    is one of -1, 0, 1. *)
Theorem processInput_axes (evs : list SDL_Event) (i : InputState.t) :
  let o := processInput evs i in
  InputState.axisX o
    = F32.of_Z ((if InputState.right o then 1 else 0)
                + (if InputState.left o then -1 else 0)) ∧
  InputState.axisY o
    = F32.of_Z ((if InputState.down o then 1 else 0)
                + (if InputState.up o then -1 else 0)) ∧
  (InputState.left o = true -> InputState.right o = true ->
   InputState.axisX o = F32.of_Z 0) ∧
  (InputState.up o = true -> InputState.down o = true ->
   InputState.axisY o = F32.of_Z 0) ∧
  (InputState.axisX o = F32.of_Z (-1) ∨ InputState.axisX o = F32.of_Z 0
   ∨ InputState.axisX o = F32.of_Z 1) ∧
  (InputState.axisY o = F32.of_Z (-1) ∨ InputState.axisY o = F32.of_Z 0
   ∨ InputState.axisY o = F32.of_Z 1).
Proof.
  unfold processInput.
  set (i0 := InputState.mk _ _ _ _ _ _ _).
  destruct (fold_handle_event_axes evs i0) as [Hx Hy].
  destruct (fold_left handle_event evs i0) as [q ax ay l r u d].
  simpl in Hx, Hy. subst ax ay. simpl.
  destruct l, r, u, d; vm_compute; repeat split; auto; discriminate.
Qed.

Lemma handle_event_same_keys a b e :
  same_keys a b -> same_keys (handle_event a e) (handle_event b e).
Proof.
  destruct a as [q ax ay l r u d], b as [q' ax' ay' l' r' u' d'].
  unfold same_keys; simpl. intros (-> & -> & -> & -> & -> & ->).
  destruct e as [|[]|[]|]; simpl; auto 10.
Qed.

Lemma handle_event_quit i e :
  InputState.quit (handle_event i e) = InputState.quit i || is_quit_event e.
Proof.
  destruct i as [q ax ay l r u d], e as [|[]|[]|]; simpl;
    rewrite ?orb_true_r, ?orb_false_r; reflexivity.
Qed.

Lemma fold_handle_event_same_keys evs a b :
  same_keys a b ->
  same_keys (fold_left handle_event evs a) (fold_left handle_event evs b).
Proof.
  revert a b. induction evs as [|e evs IH]; intros a b H; simpl; [exact H|].
  apply IH. now apply handle_event_same_keys.
Qed.

Lemma fold_handle_event_quit evs i :
  InputState.quit (fold_left handle_event evs i)
  = InputState.quit i || existsb is_quit_event evs.
Proof.
  revert i. induction evs as [|e evs IH]; intros i; simpl.
  - now rewrite orb_false_r.
  - rewrite IH, handle_event_quit. now rewrite orb_assoc.
Qed.

Lemma processInput_quit evs i :
  InputState.quit (processInput evs i) = InputState.quit i || existsb is_quit_event evs.
Proof.
  unfold processInput.
  set (i0 := InputState.mk _ _ _ _ _ _ _).
  pose proof (fold_handle_event_quit evs i0) as H.
  destruct (fold_left handle_event evs i0); simpl in *. exact H.
Qed.

Lemma processInput_same_keys evs a b :
  same_keys (processInput evs a) (processInput evs b).
Proof.
  unfold processInput.
  set (a0 := InputState.mk (InputState.quit a) _ _ _ _ _ _).
  set (b0 := InputState.mk (InputState.quit b) _ _ _ _ _ _).
  assert (same_keys a0 b0) as H0 by (unfold same_keys; simpl; auto 10).
  pose proof (fold_handle_event_same_keys evs a0 b0 H0) as H.
  destruct (fold_left handle_event evs a0) as [q ax ay l r u d],
           (fold_left handle_event evs b0) as [q' ax' ay' l' r' u' d'].
  unfold same_keys in *; simpl in *.
  destruct H as (-> & -> & -> & -> & -> & ->). auto 10.
Qed.

(** C9, as the spec words it: two polls that see the same events end in
    equal snapshots, whatever the snapshots before.  Refuted by an empty poll
    after a snapshot whose [quit] is set and after one whose [quit] is not. *)
Lemma processInput_memoryless_refuted :
  ¬ (∀ (evs : list SDL_Event) (a b : InputState.t),
        processInput evs a = processInput evs b).
Proof.
  intros H.
  specialize (H [] (InputState.mk true F32.zero F32.zero false false false false)
                InputState.default).
  vm_compute in H. discriminate H.
Qed.

(** C9, amended.  Two polls that see the same events end in snapshots with
    the same left, right, up, down, axisX and axisY, whatever the snapshots
    before.  The quit flag is carried over: after a poll it is set exactly
    when it was set before or the poll saw a quit event (the window closed,
    or Escape went down); so the whole snapshots are equal as soon as the
    quit flags before the polls are. *)
Theorem processInput_depends_on_events_and_quit
    (evs : list SDL_Event) (a b : InputState.t) :
  InputState.left (processInput evs a) = InputState.left (processInput evs b) ∧
  InputState.right (processInput evs a) = InputState.right (processInput evs b) ∧
  InputState.up (processInput evs a) = InputState.up (processInput evs b) ∧
  InputState.down (processInput evs a) = InputState.down (processInput evs b) ∧
  InputState.axisX (processInput evs a) = InputState.axisX (processInput evs b) ∧
  InputState.axisY (processInput evs a) = InputState.axisY (processInput evs b) ∧
  InputState.quit (processInput evs a)
    = InputState.quit a || existsb is_quit_event evs ∧
  (InputState.quit a = InputState.quit b ->
   processInput evs a = processInput evs b).
Proof.
  destruct (processInput_same_keys evs a b) as (Hx & Hy & Hl & Hr & Hu & Hd).
  repeat (split; [assumption|]).
  split; [apply processInput_quit|].
  intros Hq.
  pose proof (processInput_quit evs a) as Qa.
  pose proof (processInput_quit evs b) as Qb.
  rewrite Hq, <- Qb in Qa.
  destruct (processInput evs a), (processInput evs b); simpl in *.
  congruence.
Qed.

(** ** The registry *)

(** The identifiers [1, 2, ..., n]. *)
Lemma ids_snoc (n : nat) :
  Z.of_nat <$> seq 1 (S n) = (Z.of_nat <$> seq 1 n) ++ [Z.of_nat n + 1].
Proof.
  rewrite seq_S, fmap_app. simpl. do 2 f_equal. lia.
Qed.

Lemma ids_bounds (n : nat) (x : Z) :
  x ∈ Z.of_nat <$> seq 1 n <-> 1 <= x <= Z.of_nat n.
Proof.
  rewrite list_elem_of_fmap. split.
  - intros (k & -> & Hk). apply elem_of_seq in Hk. lia.
  - intros Hx. exists (Z.to_nat x). split; [lia|]. apply elem_of_seq. lia.
Qed.

Lemma wrap_small (z : Z) :
  Int.min_signed <= z <= Int.max_signed -> Int.wrap z = z.
Proof.
  unfold Int.wrap, Int.min_signed, Int.max_signed, Int.modulus. intros H.
  rewrite Z.mod_small; lia.
Qed.

(** Systems keep the set of keys of every table. *)
Lemma physics_step_dom dt em e k :
  (is_Some (transforms (physics_step dt em e) !! k) <-> is_Some (transforms em !! k)) ∧
  (is_Some (bodies (physics_step dt em e) !! k) <-> is_Some (bodies em !! k)).
Proof.
  destruct (decide (k = e)) as [-> | Hne].
  - destruct (physics_step_self dt em e) as [-> ->].
    destruct (bodies em !! e), (transforms em !! e); split; split;
      intros [? H]; eauto; discriminate.
  - destruct (physics_step_other dt em e k Hne) as [-> ->]. tauto.
Qed.

Lemma physicsSystem_dom dt em k :
  (is_Some (transforms (physicsSystem em dt) !! k) <-> is_Some (transforms em !! k)) ∧
  (is_Some (bodies (physicsSystem em dt) !! k) <-> is_Some (bodies em !! k)).
Proof.
  unfold physicsSystem. generalize (entities em) as es. intros es. revert em.
  induction es as [|a es IH]; intros em; simpl; [tauto|].
  destruct (IH (physics_step dt em a)) as [Ht Hb].
  destruct (physics_step_dom dt em a k) as [Ht' Hb']. tauto.
Qed.

Lemma control_dom player em i speed k :
  is_Some (bodies (playerControlSystem player em i speed) !! k)
  <-> is_Some (bodies em !! k).
Proof.
  unfold playerControlSystem.
  destruct (bodies em !! player) as [rb|] eqn:Hb; [|tauto]. simpl.
  destruct (decide (k = player)) as [-> | Hne].
  - rewrite lookup_insert_eq, Hb. split; eauto.
  - rewrite lookup_insert_ne by congruence. tauto.
Qed.

Lemma store_inv_create em :
  store_inv em -> nextId em < Int.max_signed -> store_inv (snd (create em)).
Proof.
  intros [Hn He Ht Hs Hb] Hlt. unfold create.
  assert (Int.wrap (nextId em + 1) = nextId em + 1) as Hw.
  { apply wrap_small. unfold Int.min_signed, Int.max_signed in *. lia. }
  split; simpl; rewrite ?Hw.
  - lia.
  - replace (Z.to_nat (nextId em + 1 - 1)) with (S (Z.to_nat (nextId em - 1))) by lia.
    rewrite ids_snoc, <- He. do 2 f_equal. lia.
  - intros e. rewrite elem_of_app, list_elem_of_singleton, <- Ht.
    destruct (decide (e = nextId em)) as [-> | Hne].
    + rewrite lookup_insert_eq. split; eauto.
    + rewrite lookup_insert_ne by congruence. tauto.
  - intros e H. apply elem_of_app. left. auto.
  - intros e H. apply elem_of_app. left. auto.
Qed.

Lemma store_inv_insert_transform em e tr :
  store_inv em -> e ∈ entities em -> store_inv (set_transform e tr em).
Proof.
  intros [Hn He Ht Hs Hb] Hin. split; simpl; auto.
  intros k. destruct (decide (k = e)) as [-> | Hne].
  - rewrite lookup_insert_eq. split; eauto.
  - rewrite lookup_insert_ne by congruence. apply Ht.
Qed.

Lemma store_inv_insert_sprite em e sp :
  store_inv em -> e ∈ entities em -> store_inv (set_sprite e sp em).
Proof.
  intros [Hn He Ht Hs Hb] Hin. split; simpl; auto.
  intros k. destruct (decide (k = e)) as [-> | Hne].
  - auto.
  - rewrite lookup_insert_ne by congruence. apply Hs.
Qed.

Lemma store_inv_insert_body em e rb :
  store_inv em -> e ∈ entities em -> store_inv (set_body e rb em).
Proof.
  intros [Hn He Ht Hs Hb] Hin. split; simpl; auto.
  intros k. destruct (decide (k = e)) as [-> | Hne].
  - auto.
  - rewrite lookup_insert_ne by congruence. apply Hb.
Qed.

Lemma store_inv_control em player i speed :
  store_inv em -> store_inv (playerControlSystem player em i speed).
Proof.
  intros [Hn He Ht Hs Hb].
  destruct (control_frame player em i speed) as (En & Ee & Et & Es & _).
  split; rewrite ?En, ?Ee, ?Et, ?Es; auto.
  intros e H. apply Hb. now apply control_dom in H.
Qed.

Lemma store_inv_physics em dt :
  store_inv em -> store_inv (physicsSystem em dt).
Proof.
  intros [Hn He Ht Hs Hb].
  destruct (physics_fold_frame dt (entities em) em) as (En & Ee & Es).
  fold (physicsSystem em dt) in En, Ee, Es.
  split; rewrite ?En, ?Ee, ?Es; auto.
  - intros e. destruct (physicsSystem_dom dt em e) as [-> _]. apply Ht.
  - intros e H. apply Hb. now apply physicsSystem_dom in H.
Qed.

Lemma store_inv_init : store_inv em_init.
Proof.
  split; simpl.
  - unfold Int.max_signed. lia.
  - reflexivity.
  - intros e. rewrite lookup_empty, elem_of_nil.
    split; [intros [? ?]; discriminate | tauto].
  - intros e [? H]. now rewrite lookup_empty in H.
  - intros e [? H]. now rewrite lookup_empty in H.
Qed.

Lemma reachable_store_inv em : reachable em -> store_inv em.
Proof.
  induction 1.
  - exact store_inv_init.
  - now apply store_inv_create.
  - exact store_inv_init.
  - now apply store_inv_insert_transform.
  - now apply store_inv_insert_sprite.
  - now apply store_inv_insert_body.
  - now apply store_inv_control.
  - now apply store_inv_physics.
Qed.

Lemma filter_key_absent {A} (l : list (Z * A)) (e : Z) :
  e ∉ l.*1 -> filter (λ kv, kv.1 = e) l = [].
Proof.
  induction l as [|[k w] l IH]; simpl; intros H; [reflexivity|].
  apply not_elem_of_cons in H as [Hne H].
  rewrite filter_cons_False by (simpl; congruence). auto.
Qed.

Lemma filter_key_once {A} (l : list (Z * A)) (e : Z) (v : A) :
  NoDup (l.*1) -> (e, v) ∈ l -> length (filter (λ kv, kv.1 = e) l) = 1%nat.
Proof.
  induction l as [|[k w] l IH]; simpl; intros Hnd Hin.
  - now apply elem_of_nil in Hin.
  - apply NoDup_cons in Hnd as [Hk Hnd].
    apply elem_of_cons in Hin as [Heq | Hin].
    + injection Heq as -> ->.
      rewrite filter_cons_True by reflexivity. simpl.
      now rewrite filter_key_absent.
    + assert (k ≠ e) as Hne.
      { intros ->. apply Hk. apply list_elem_of_fmap. now exists (e, v). }
      rewrite filter_cons_False by (simpl; congruence). auto.
Qed.

Lemma gmap_one_entry {A} (m : gmap Z A) (e : Z) :
  is_Some (m !! e) -> length (filter (λ kv, kv.1 = e) (map_to_list m)) = 1%nat.
Proof.
  intros [v Hv]. apply (filter_key_once _ e v).
  - apply NoDup_fst_map_to_list.
  - now apply elem_of_map_to_list.
Qed.

(** C4.  In a state the operations can produce, and below the overflow of
    the identifier counter: the live list is 1, 2, ..., k, the identifiers
    issued since the registry was made or last reset, in the order they were
    issued; [create] returns k + 1, which is not in the live list and is
    larger than every identifier in it; the identifier is appended to the
    live list and a default Transform (position (0,0), rotation 0, scale
    (1,1)) is stored for it, the other tables being left as they are.  [destroyAll] empties the live list and the
    three tables and sets the counter to 1, so that the next [create]
    returns 1 again. *)
Theorem create_fresh_destroyAll_resets (em : EntityManager) :
  reachable em -> nextId em < Int.max_signed ->
  let e := fst (create em) in
  let em' := snd (create em) in
  entities em = Z.of_nat <$> seq 1 (length (entities em)) ∧
  (e ∉ entities em) ∧
  (∀ x, x ∈ entities em -> 1 <= x < e) ∧
  e = Z.of_nat (length (entities em)) + 1 ∧
  nextId em' = e + 1 ∧
  entities em' = entities em ++ [e] ∧
  transforms em' !! e
    = Some (Transform.mk (Vec2.mk (F32.of_Z 0) (F32.of_Z 0)) (F32.of_Z 0)
                         (Vec2.mk (F32.of_Z 1) (F32.of_Z 1))) ∧
  sprites em' = sprites em ∧ bodies em' = bodies em ∧
  reachable em' ∧
  fst (create em_init) = 1 ∧
  (let r := destroyAll em in
   entities r = [] ∧ transforms r = ∅ ∧ sprites r = ∅ ∧ bodies r = ∅ ∧
   nextId r = 1 ∧ fst (create r) = 1).
Proof.
  intros Hr Hlt e em'.
  destruct (reachable_store_inv em Hr) as [Hn He Ht Hs Hb].
  assert (∀ x, x ∈ entities em -> 1 <= x < e) as Hbelow.
  { intros x Hx. rewrite He in Hx. apply ids_bounds in Hx.
    subst e. simpl. lia. }
  assert (length (entities em) = Z.to_nat (nextId em - 1)) as Hlen.
  { rewrite He at 1. now rewrite length_fmap, length_seq. }
  split; [rewrite Hlen; exact He|].
  split.
  { intros Hin. apply Hbelow in Hin. lia. }
  split; [exact Hbelow|].
  split.
  { subst e. simpl. rewrite Hlen. lia. }
  split.
  { subst e em'. simpl. apply wrap_small.
    unfold Int.min_signed, Int.max_signed in *. lia. }
  split; [reflexivity|].
  split; [subst e em'; simpl; apply lookup_insert_eq|].
  split; [reflexivity|]. split; [reflexivity|].
  split; [now apply reach_create|].
  split; [reflexivity|].
  simpl. repeat split; reflexivity.
Qed.

Lemma create_fresh_destroyAll_resets_witness :
  let em := snd (create em_init) in
  (2 ∉ entities em) ∧ fst (create em) = 2.
Proof.
  assert (reachable (snd (create em_init))) as Hr.
  { apply reach_create; [exact reach_init | reflexivity]. }
  assert (nextId (snd (create em_init)) < Int.max_signed) as Hlt by reflexivity.
  split; [|reflexivity].
  apply (proj2 (create_fresh_destroyAll_resets (snd (create em_init)) Hr Hlt)).
Defined.

(** C7.  In every state the operations can produce (creation, the bulk
    reset, writes of a component of a live entity, the control and physics
    systems; rendering only reads): a key of any of the three tables is in
    the live list, and every identifier of the live list has a Transform
    entry, exactly one. *)
Theorem reachable_tables_follow_live_list (em : EntityManager) :
  reachable em ->
  (∀ e, is_Some (transforms em !! e) ∨ is_Some (sprites em !! e)
        ∨ is_Some (bodies em !! e) ->
        e ∈ entities em) ∧
  (∀ e, e ∈ entities em ->
        is_Some (transforms em !! e) ∧
        length (filter (λ kv, kv.1 = e) (map_to_list (transforms em))) = 1%nat).
Proof.
  intros Hr. destruct (reachable_store_inv em Hr) as [Hn He Ht Hs Hb].
  split.
  - intros e [H | [H | H]]; [now apply Ht | now apply Hs | now apply Hb].
  - intros e Hin. apply Ht in Hin. split; [exact Hin|].
    now apply gmap_one_entry.
Qed.

Lemma reachable_tables_follow_live_list_witness :
  let em := set_body 1 Rigidbody.default (snd (create em_init)) in
  1 ∈ entities em ∧ is_Some (transforms em !! 1).
Proof.
  assert (reachable (set_body 1 Rigidbody.default (snd (create em_init)))) as Hr.
  { apply reach_set_body.
    - apply reach_create; [exact reach_init | reflexivity].
    - simpl. apply list_elem_of_singleton. reflexivity. }
  destruct (reachable_tables_follow_live_list _ Hr) as [Hkeys Hlive].
  assert (1 ∈ entities (set_body 1 Rigidbody.default (snd (create em_init)))) as Hin.
  { apply Hkeys. right. right. eexists. vm_compute. reflexivity. }
  split; [exact Hin | apply (Hlive 1 Hin)].
Defined.

(** ** Rendering *)

(** The conversions behave as the C++ ones on sample values. *)
Example round_half_up : F32.round (F32.lit 5 2) = F32.of_Z 3.
Proof. vm_compute. reflexivity. Qed.

Example round_half_down : F32.round (F32.lit (-5) 2) = F32.of_Z (-3).
Proof. vm_compute. reflexivity. Qed.

Example round_below_half : F32.round (F32.lit 4 10) = F32.zero.
Proof. vm_compute. reflexivity. Qed.

Example to_int_truncates : F32.to_int (F32.lit 512 10) = Some 51.
Proof. vm_compute. reflexivity. Qed.

Example to_int_truncates_neg : F32.to_int (F32.lit (-17) 10) = Some (-1).
Proof. vm_compute. reflexivity. Qed.

Example to_int_out_of_range : F32.to_int (F32.of_Z 2147483648) = None.
Proof. vm_compute. reflexivity. Qed.

Lemma draw_of_eq em e sp tr :
  sprites em !! e = Some sp -> transforms em !! e = Some tr ->
  draw_of em e
  = (λ r, RenderCopyEx (Sprite.tex sp) r (F64.of_f32 (Transform.rot tr)) SDL_FLIP_NONE)
    <$> dst_rect sp tr.
Proof.
  intros Hs Ht. unfold draw_of. rewrite Hs, Ht. simpl.
  destruct (dst_rect sp tr); reflexivity.
Qed.

Lemma render_loop_draws em es out :
  render_loop em es out
  = (λ ds, out ++ ds) <$> mapM (draw_of em) (filter (λ e, drawable em e = true) es).
Proof.
  revert out. induction es as [|e es IH]; intros out; simpl.
  - now rewrite app_nil_r.
  - destruct (drawable em e) eqn:Hd.
    + rewrite filter_cons_True by exact Hd. simpl.
      unfold drawable in Hd.
      destruct (sprites em !! e) as [sp|] eqn:Hs; [|discriminate].
      destruct (transforms em !! e) as [tr|] eqn:Ht; [|discriminate].
      rewrite (draw_of_eq em e sp tr Hs Ht).
      destruct (Sprite.tex sp =? 0); [discriminate|]. simpl.
      destruct (dst_rect sp tr) as [dst|]; simpl; [|reflexivity].
      rewrite IH.
      destruct (mapM (draw_of em) (filter (λ e0, drawable em e0 = true) es));
        simpl; [|reflexivity].
      now rewrite <- app_assoc.
    + rewrite filter_cons_False by (rewrite Hd; discriminate).
      unfold drawable in Hd.
      destruct (sprites em !! e) as [sp|]; [|apply IH].
      destruct (transforms em !! e) as [tr|]; [|apply IH].
      destruct (Sprite.tex sp =? 0); [apply IH | discriminate].
Qed.

(** C3, as the spec words it.  On the first static object of the scene of
    [main] (a 64 x 64 sprite at (100, 150), scale 0.8) the rectangle drawn
    is 51 wide, not 64 * 0.8.  On a 51 x 51 sprite at (100.75, 150), scale
    1, the rectangle drawn starts at x = 76 = round(100.75 - 25), which is
    not an integer nearest to 100.75 - 51/2 = 75.25. *)
Lemma renderSystem_rect_as_specified_refuted :
  (let em := snd (scene 7) in
   ∃ sp tr r cmds,
     sprites em !! 2 = Some sp ∧ transforms em !! 2 = Some tr ∧
     renderSystem em = Some cmds ∧
     RenderCopyEx 7 r (F64.of_f32 (Transform.rot tr)) SDL_FLIP_NONE ∈ cmds ∧
     draw_of em 2 = Some (RenderCopyEx 7 r (F64.of_f32 (Transform.rot tr)) SDL_FLIP_NONE) ∧
     r = SDL_Rect.mk 75 125 51 51 ∧
     ¬ rect_as_specified sp tr r) ∧
  (let sp := Sprite.mk 7 51 51 in
   let tr := Transform.mk (Vec2.mk (F32.lit 10075 100) (F32.of_Z 150)) F32.zero
                          (Vec2.mk F32.one F32.one) in
   let em := set_sprite 1 sp (set_transform 1 tr (snd (create em_init))) in
   renderSystem em
   = Some [SetRenderDrawColor 50 50 60 255; RenderClear;
           RenderCopyEx 7 (SDL_Rect.mk 76 125 51 51) (F64.of_f32 F32.zero) SDL_FLIP_NONE;
           RenderPresent] ∧
   ¬ rect_as_specified sp tr (SDL_Rect.mk 76 125 51 51)).
Proof.
  split.
  - eexists _, _, (SDL_Rect.mk 75 125 51 51), _.
    split; [vm_compute; reflexivity|].
    split; [vm_compute; reflexivity|].
    split; [vm_compute; reflexivity|].
    split; [do 3 (apply elem_of_cons; right); apply elem_of_cons; left; reflexivity|].
    split; [vm_compute; reflexivity|].
    split; [reflexivity|].
    intros [H _]. vm_compute in H. discriminate H.
  - split; [vm_compute; reflexivity|].
    intros (_ & _ & H & _). vm_compute in H. apply H. reflexivity.
Qed.

(** C3, amended.  [renderSystem] clears the frame, issues one draw for each
    entity of the live list that has a Sprite with a non-null texture and a
    Transform, in the order of the live list, issues none for any other
    entity, and presents the frame.  The draw of such an entity copies its
    texture, unflipped, rotated by the rotation of the Transform, into the
    rectangle with
      w = int(sprite.w * scale.x), h = int(sprite.h * scale.y)
          (binary32 product, truncated toward zero),
      x = int(round(pos.x - w / 2)), y = int(round(pos.y - h / 2))
          ([w / 2] the integer quotient, binary32 difference, rounded to the
          nearest integer with halves away from zero).
    The frame is undefined exactly when one of these conversions to [int] is.
    Position (400,300), scale (1,1), a 64 x 64 sprite and rotation 0 give the
    rectangle x = 368, y = 268, w = 64, h = 64. *)
Theorem renderSystem_draws (em : EntityManager) :
  renderSystem em
    = (λ ds, [SetRenderDrawColor 50 50 60 255; RenderClear] ++ ds ++ [RenderPresent])
      <$> mapM (draw_of em) (filter (λ e, drawable em e = true) (entities em)) ∧
  (∀ e, drawable em e = true
        <-> ∃ sp tr, sprites em !! e = Some sp ∧ transforms em !! e = Some tr
                     ∧ Sprite.tex sp ≠ 0) ∧
  (∀ e sp tr,
      sprites em !! e = Some sp -> transforms em !! e = Some tr ->
      draw_of em e
      = (λ r, RenderCopyEx (Sprite.tex sp) r (F64.of_f32 (Transform.rot tr)) SDL_FLIP_NONE)
        <$> dst_rect sp tr) ∧
  (∀ sp tr r,
      dst_rect sp tr = Some r
      <-> F32.to_int (F32.mul (F32.of_Z (Sprite.w sp)) (Vec2.x (Transform.scale tr)))
            = Some (SDL_Rect.w r) ∧
          F32.to_int (F32.mul (F32.of_Z (Sprite.h sp)) (Vec2.y (Transform.scale tr)))
            = Some (SDL_Rect.h r) ∧
          F32.to_int (F32.round (F32.sub (Vec2.x (Transform.pos tr))
                                         (F32.of_Z (SDL_Rect.w r ÷ 2))))
            = Some (SDL_Rect.x r) ∧
          F32.to_int (F32.round (F32.sub (Vec2.y (Transform.pos tr))
                                         (F32.of_Z (SDL_Rect.h r ÷ 2))))
            = Some (SDL_Rect.y r)) ∧
  (∀ tex,
      dst_rect (Sprite.mk tex 64 64)
               (Transform.mk (Vec2.mk (F32.of_Z 400) (F32.of_Z 300)) (F32.of_Z 0)
                             (Vec2.mk (F32.of_Z 1) (F32.of_Z 1)))
      = Some (SDL_Rect.mk 368 268 64 64)).
Proof.
  split.
  { unfold renderSystem. rewrite render_loop_draws.
    destruct (mapM _ _); reflexivity. }
  split.
  { intros e. unfold drawable.
    destruct (sprites em !! e) as [sp|], (transforms em !! e) as [tr|]; split;
      try discriminate; try (intros (? & ? & ? & ? & ?); discriminate).
    - intros H. exists sp, tr. repeat split.
      intros Hz. rewrite Hz in H. discriminate H.
    - intros (sp' & tr' & [= <-] & _ & Hz).
      destruct (Z.eqb_spec (Sprite.tex sp) 0); [contradiction | reflexivity]. }
  split.
  { intros e sp tr. apply draw_of_eq. }
  split; [|intros tex; vm_compute; reflexivity].
  intros sp tr [x y w h]. unfold dst_rect, Int.div. simpl.
  destruct (F32.to_int (F32.mul (F32.of_Z (Sprite.w sp)) _)) as [w'|]; simpl;
    [|split; [discriminate | intros [H _]; discriminate H]].
  destruct (F32.to_int (F32.mul (F32.of_Z (Sprite.h sp)) _)) as [h'|]; simpl;
    [|split; [discriminate | intros (_ & H & _); discriminate H]].
  split.
  - destruct (F32.to_int (F32.round (F32.sub (Vec2.x _) _))) as [x'|] eqn:Hx;
      simpl; [|discriminate].
    destruct (F32.to_int (F32.round (F32.sub (Vec2.y _) _))) as [y'|] eqn:Hy;
      simpl; [|discriminate].
    intros [= <- <- <- <-]. auto.
  - intros ([= ->] & [= ->] & Hx & Hy). rewrite Hx, Hy. reflexivity.
Qed.

(** ** Damping *)

Lemma reachable_NoDup em : reachable em -> NoDup (entities em).
Proof.
  intros Hr. destruct (reachable_store_inv em Hr) as [_ He _ _ _].
  rewrite He. apply NoDup_fmap_2; [intros x y; apply Nat2Z.inj | apply NoDup_seq].
Qed.

(** In a state the operations can produce, every Rigidbody is damped by a
    call of the physics system. *)
Lemma reachable_damped em dt e rb :
  reachable em -> bodies em !! e = Some rb ->
  bodies (physicsSystem em dt) !! e = Some (damped rb).
Proof.
  intros Hr Hb.
  destruct (reachable_store_inv em Hr) as [_ _ Ht _ Hbd].
  assert (e ∈ entities em) as Hin by (apply Hbd; eauto).
  destruct (proj2 (Ht e) Hin) as [t Htr].
  now destruct (physicsSystem_both em dt e rb t (reachable_NoDup em Hr) Hin Hb Htr).
Qed.

Lemma reachable_damped_iter em dt e rb (n : nat) :
  reachable em -> bodies em !! e = Some rb ->
  reachable (Nat.iter n (λ em, physicsSystem em dt) em) ∧
  bodies (Nat.iter n (λ em, physicsSystem em dt) em) !! e = Some (Nat.iter n damped rb).
Proof.
  intros Hr Hb. induction n as [|n [IHr IHb]]; simpl; [auto|].
  split; [now apply reach_physics | now apply reachable_damped].
Qed.

Lemma damped_iter_vel rb (n : nat) :
  Rigidbody.vel (Nat.iter n damped rb)
  = Vec2.mk (Nat.iter n damp (Vec2.x (Rigidbody.vel rb)))
            (Nat.iter n damp (Vec2.y (Rigidbody.vel rb))).
Proof.
  induction n as [|n IH]; simpl; [now destruct (Rigidbody.vel rb)|].
  set (r := Nat.iter n damped rb) in *.
  unfold damped. simpl. rewrite IH. reflexivity.
Qed.

(** One damping step of a valid finite component. *)
Lemma damp_finite (v : F32.t) :
  F32.valid v = true -> F32.is_finite v = true ->
  F32.valid (damp v) = true ∧ F32.is_finite (damp v) = true ∧
  F32.sign (damp v) = F32.sign v ∧
  F32.units (damp v) <= F32.units v ∧
  (26 <= F32.units v -> F32.units (damp v) < F32.units v) ∧
  (0 < F32.units v -> 0 < F32.units (damp v)).
Proof.
  unfold damp. rewrite DAMPING_value.
  destruct v as [s|s| |s m e]; try discriminate; intros Hv _.
  - simpl. rewrite xorb_false_r. repeat split; try reflexivity; lia.
  - destruct (mul_damping_finite s m e Hv) as (m' & e' & Hm & Hb & Hle & Hlt).
    unfold F32.mul, F32.prec, F32.emax. rewrite Hm. simpl.
    repeat split; auto.
    intros _. apply bounded_canonical in Hb as (_ & He' & _).
    assert (0 < 2 ^ (e' + 149)) by (apply pow2_pos; lia). lia.
Qed.

(** The 25 smallest magnitudes are fixed points: the product with [0.98f]
    rounds back up. *)
Lemma damp_small_fixed (s : bool) (m : positive) :
  (m <= 25)%positive -> damp (S754_finite s m (-149)) = S754_finite s m (-149).
Proof.
  intros Hm.
  assert (In m [1; 2; 3; 4; 5; 6; 7; 8; 9; 10; 11; 12; 13; 14; 15; 16; 17; 18; 19;
                20; 21; 22; 23; 24; 25]%positive) as Hin.
  { simpl. lia. }
  simpl in Hin.
  repeat (destruct Hin as [<- | Hin]; [destruct s; vm_compute; reflexivity|]).
  contradiction.
Qed.

Lemma damp_iter (v : F32.t) (n : nat) :
  F32.valid v = true -> F32.is_finite v = true ->
  F32.valid (Nat.iter n damp v) = true ∧ F32.is_finite (Nat.iter n damp v) = true ∧
  F32.sign (Nat.iter n damp v) = F32.sign v ∧
  F32.units (Nat.iter n damp v) <= Z.max 25 (F32.units v - Z.of_nat n).
Proof.
  intros Hv Hf. induction n as [|n (IHv & IHf & IHs & IHu)].
  - simpl. repeat split; auto. lia.
  - simpl Nat.iter.
    destruct (damp_finite _ IHv IHf) as (Hv' & Hf' & Hs' & Hle & Hlt & _).
    repeat split; auto; [congruence|].
    destruct (Z.leb_spec 26 (F32.units (Nat.iter n damp v))) as [H26 | H25].
    + specialize (Hlt H26). lia.
    + lia.
Qed.

(** C10, as the spec words it, on one entity with velocity (100, 0) and no
    control input: after 5300 physics ticks the velocity is (25 * 2^-149, 0),
    which is not zero, and one more tick leaves it as it is: the speed has
    not decreased. *)
Lemma damping_strictly_decreases_refuted :
  let em0 := set_body 1 (Rigidbody.mk (Vec2.mk (F32.of_Z 100) F32.zero) F32.one)
                      (snd (create em_init)) in
  let em := Nat.iter (N.to_nat 5300) (λ em, physicsSystem em TARGET_DT) em0 in
  Rigidbody.vel <$> bodies em !! 1
    = Some (Vec2.mk (S754_finite false 25 (-149)) F32.zero) ∧
  Rigidbody.vel <$> bodies (physicsSystem em TARGET_DT) !! 1
    = Rigidbody.vel <$> bodies em !! 1.
Proof. vm_compute. split; reflexivity. Qed.

(** C10, amended.  In a state the operations can produce, for an entity
    with a Rigidbody whose velocity components are finite binary32 numbers,
    and with no control input: a physics tick keeps the sign of each
    component, never increases the magnitude of a component, strictly
    decreases it as long as it is at least 26 * 2^-149, and leaves a nonzero
    component nonzero; so the squared speed never increases, and strictly
    decreases when a component is that large.  After n ticks each magnitude,
    counted in units of 2^-149, is at most the larger of 25 and the initial
    magnitude minus n.  A magnitude of 1 to 25 units is left as it is. *)
Theorem damping_monotone (em : EntityManager) (e : Entity) (rb : Rigidbody.t) (dt : F32.t) :
  reachable em -> bodies em !! e = Some rb ->
  let vx := Vec2.x (Rigidbody.vel rb) in
  let vy := Vec2.y (Rigidbody.vel rb) in
  F32.valid vx = true -> F32.is_finite vx = true ->
  F32.valid vy = true -> F32.is_finite vy = true ->
  (∃ rb', bodies (physicsSystem em dt) !! e = Some rb' ∧
     let vx' := Vec2.x (Rigidbody.vel rb') in
     let vy' := Vec2.y (Rigidbody.vel rb') in
     F32.valid vx' = true ∧ F32.is_finite vx' = true ∧
     F32.valid vy' = true ∧ F32.is_finite vy' = true ∧
     F32.sign vx' = F32.sign vx ∧ F32.sign vy' = F32.sign vy ∧
     F32.units vx' <= F32.units vx ∧ F32.units vy' <= F32.units vy ∧
     (26 <= F32.units vx -> F32.units vx' < F32.units vx) ∧
     (26 <= F32.units vy -> F32.units vy' < F32.units vy) ∧
     (0 < F32.units vx -> 0 < F32.units vx') ∧
     (0 < F32.units vy -> 0 < F32.units vy') ∧
     F32.units vx' ^ 2 + F32.units vy' ^ 2 <= F32.units vx ^ 2 + F32.units vy ^ 2 ∧
     (26 <= F32.units vx ∨ 26 <= F32.units vy ->
      F32.units vx' ^ 2 + F32.units vy' ^ 2 < F32.units vx ^ 2 + F32.units vy ^ 2)) ∧
  (∀ n : nat,
     ∃ rb', bodies (Nat.iter n (λ em, physicsSystem em dt) em) !! e = Some rb' ∧
       let vx' := Vec2.x (Rigidbody.vel rb') in
       let vy' := Vec2.y (Rigidbody.vel rb') in
       F32.sign vx' = F32.sign vx ∧ F32.sign vy' = F32.sign vy ∧
       F32.units vx' <= Z.max 25 (F32.units vx - Z.of_nat n) ∧
       F32.units vy' <= Z.max 25 (F32.units vy - Z.of_nat n)) ∧
  (∀ (s : bool) (m : positive),
     (m <= 25)%positive ->
     F32.mul (S754_finite s m (-149)) DAMPING = S754_finite s m (-149)).
Proof.
  intros Hr Hb vx vy Hvx Hfx Hvy Hfy. split; [|split].
  - exists (damped rb). split; [now apply reachable_damped|].
    unfold damped. simpl. fold vx vy. fold (damp vx) (damp vy).
    destruct (damp_finite vx Hvx Hfx) as (Vx & Fx & Sx & Lx & Tx & Nx).
    destruct (damp_finite vy Hvy Hfy) as (Vy & Fy & Sy & Ly & Ty & Ny).
    assert (0 <= F32.units (damp vx)) as Px
      by (destruct (damp vx); simpl; lia).
    assert (0 <= F32.units (damp vy)) as Py
      by (destruct (damp vy); simpl; lia).
    repeat (split; [assumption|]).
    split; [nia|]. intros [H | H]; [specialize (Tx H) | specialize (Ty H)]; nia.
  - intros n. exists (Nat.iter n damped rb).
    split; [now apply reachable_damped_iter|].
    rewrite damped_iter_vel. simpl. fold vx vy.
    destruct (damp_iter vx n Hvx Hfx) as (_ & _ & Sx & Ux).
    destruct (damp_iter vy n Hvy Hfy) as (_ & _ & Sy & Uy).
    auto.
  - exact damp_small_fixed.
Qed.

Lemma damping_monotone_witness :
  let em := set_body 1 (Rigidbody.mk (Vec2.mk (F32.of_Z 100) F32.zero) F32.one)
                     (snd (create em_init)) in
  ∃ rb', bodies (physicsSystem em TARGET_DT) !! 1 = Some rb' ∧
         F32.units (Vec2.x (Rigidbody.vel rb')) < F32.units (F32.of_Z 100).
Proof.
  assert (reachable (set_body 1 (Rigidbody.mk (Vec2.mk (F32.of_Z 100) F32.zero) F32.one)
                              (snd (create em_init)))) as Hr.
  { apply reach_set_body.
    - apply reach_create; [exact reach_init | reflexivity].
    - simpl. apply list_elem_of_singleton. reflexivity. }
  destruct (damping_monotone _ 1 _ TARGET_DT Hr
              ltac:(vm_compute; reflexivity)
              ltac:(vm_compute; reflexivity) ltac:(vm_compute; reflexivity)
              ltac:(vm_compute; reflexivity) ltac:(vm_compute; reflexivity))
    as [(rb' & Hb & _ & _ & _ & _ & _ & _ & _ & _ & Hx & _) _].
  exists rb'. split; [exact Hb|].
  apply Hx. vm_compute. discriminate.
Defined.

(** ** The loop driver *)

Lemma drain_eq fuel player i em acc :
  drain fuel player i em acc
  = if F32.geb acc TARGET_DT then
      match fuel with
      | O => None
      | S fuel' =>
          '(em', acc', calls) ← drain fuel' player i (fixed_tick player i em)
                                      (subtract_dt acc);
          Some (em', acc', CallControl :: CallPhysics :: calls)
      end
    else Some (em, acc, []).
Proof. destruct fuel; reflexivity. Qed.

(** More fuel does not change a result. *)
Lemma drain_fuel_mono fuel fuel' player i em acc r :
  (fuel <= fuel')%nat ->
  drain fuel player i em acc = Some r -> drain fuel' player i em acc = Some r.
Proof.
  revert fuel' em acc r.
  induction fuel as [|fuel IH]; intros fuel' em acc r Hle H;
    rewrite drain_eq in H; rewrite drain_eq;
    destruct (F32.geb acc TARGET_DT); try exact H; try discriminate H.
  destruct fuel' as [|fuel']; [lia|].
  destruct (drain fuel player i (fixed_tick player i em) (subtract_dt acc))
    as [r'|] eqn:Hd; [|discriminate H].
  rewrite (IH fuel' _ _ r' ltac:(lia) Hd). exact H.
Qed.

Lemma of_f64_valid (d : F64.t) : F32.valid (F32.of_f64 d) = true.
Proof.
  destruct d; simpl; try reflexivity. apply binary_round_valid.
Qed.

Lemma drainable_of_smaller (a : F32.t) (u : Z) :
  a <> S754_infinity false -> F32.units a < u -> u <= 2 ^ 168 -> drainable a = true.
Proof.
  intros Hinf Hlt Hu. destruct a as [s|[|]| |[|] m e]; try reflexivity.
  - congruence.
  - simpl in *. apply Z.leb_le. lia.
Qed.

(** From a drainable accumulator the inner loop ends, after a number of
    ticks that the accumulator determines. *)
Lemma drain_terminates player i (N : nat) :
  ∀ acc em,
    (Z.to_nat (F32.units acc) < N)%nat ->
    F32.valid acc = true -> drainable acc = true ->
    ∃ n : nat,
      drain n player i em acc
        = Some (Nat.iter n (fixed_tick player i) em, Nat.iter n subtract_dt acc,
                tick_calls n) ∧
      (∀ k, (k < n)%nat -> F32.geb (Nat.iter k subtract_dt acc) TARGET_DT = true) ∧
      F32.geb (Nat.iter n subtract_dt acc) TARGET_DT = false ∧
      F32.valid (Nat.iter n subtract_dt acc) = true.
Proof.
  induction N as [|N IH]; intros acc em HN Hv Hd; [lia|].
  destruct (F32.geb acc TARGET_DT) eqn:Hge.
  - (* one tick, then the rest *)
    assert (∃ m e, acc = S754_finite false m e) as (m & e & ->).
    { unfold F32.geb in Hge. rewrite TARGET_DT_value in Hge.
      destruct acc as [s|[|]| |[|] m e]; try discriminate; eauto. }
    simpl in Hd. apply Z.leb_le in Hd.
    destruct (sub_dt_step_le m e Hv Hge Hd) as (Hv' & Hinf & Hlt).
    change (SFsub 24 128 (S754_finite false m e) TARGET_DT)
      with (subtract_dt (S754_finite false m e)) in Hv', Hinf, Hlt.
    set (acc' := subtract_dt (S754_finite false m e)) in *.
    assert (0 <= F32.units acc') by (destruct acc'; simpl; lia).
    destruct (IH acc' (fixed_tick player i em)) as (n & Hn & Hk & Hend & Hvn).
    { simpl F32.units in HN. lia. }
    { exact Hv'. }
    { apply (drainable_of_smaller _ _ Hinf Hlt Hd). }
    exists (S n). rewrite drain_eq, Hge. fold acc'. rewrite Hn.
    rewrite !Nat.iter_succ_r. fold acc'.
    split; [reflexivity|].
    split; [|auto].
    intros [|k] Hlt'; [exact Hge|].
    rewrite Nat.iter_succ_r. fold acc'. apply Hk. lia.
  - exists O. rewrite drain_eq, Hge. simpl.
    repeat split; auto. intros k Hk. lia.
Qed.

(** From an accumulator that is not drainable the inner loop never ends:
    the subtraction gives the accumulator back. *)
Lemma drain_stuck fuel player i em (acc : F32.t) :
  F32.valid acc = true -> drainable acc = false ->
  drain fuel player i em acc = None.
Proof.
  intros Hv Hd.
  assert (F32.geb acc TARGET_DT = true ∧ subtract_dt acc = acc) as [Hge Hs].
  { destruct acc as [s|[|]| |[|] m e]; try discriminate Hd.
    - split; reflexivity.
    - simpl in Hd. apply Z.leb_gt in Hd.
      exact (sub_dt_absorbed m e Hv Hd). }
  revert em. induction fuel as [|fuel IH]; intros em; rewrite drain_eq, Hge.
  - reflexivity.
  - rewrite Hs, IH. reflexivity.
Qed.

Lemma accumulate_valid (acc : F32.t) (d : F64.t) :
  F32.valid acc = true -> F32.valid (F32.add acc (F32.of_f64 d)) = true.
Proof.
  intros Hv. apply SFadd_valid; [exact Hv | apply of_f64_valid].
Qed.

(** The loop on an accumulator of twice [TARGET_DT]. *)
Lemma drain_two_ticks fuel player i em :
  (2 <= fuel)%nat ->
  drain fuel player i em (S754_finite false 8947849 (-28))
  = Some (fixed_tick player i (fixed_tick player i em), F32.zero,
          [CallControl; CallPhysics; CallControl; CallPhysics]).
Proof.
  intros Hf. apply (drain_fuel_mono 2 fuel); [exact Hf|].
  rewrite drain_eq.
  change (F32.geb (S754_finite false 8947849 (-28)) TARGET_DT) with true.
  change (subtract_dt (S754_finite false 8947849 (-28)))
    with (S754_finite false 8947849 (-29)).
  cbv iota. rewrite drain_eq.
  change (F32.geb (S754_finite false 8947849 (-29)) TARGET_DT) with true.
  change (subtract_dt (S754_finite false 8947849 (-29))) with F32.zero.
  cbv iota. rewrite drain_eq.
  change (F32.geb F32.zero TARGET_DT) with false.
  reflexivity.
Qed.

(** C2.  The claim has every outer iteration reach its render; the code
    does not.  At an iteration that measures 2^20 seconds (the counter
    advanced by 2^20 * 10^9 at a frequency of 10^9, or by 2^20 at a
    frequency of 1) the accumulator is 2^20, which is at least 1/60, and
    subtracting 1/60 from it in binary32 gives 2^20 again: the inner loop
    makes no progress, and whatever the fuel the iteration returns nothing,
    so render is not called and the input is not polled again.  The same
    start with 1/30 of a second measured does what the claim says: two
    ticks, then one render. *)
Theorem outer_iteration_hangs_after_long_pause :
  let st := mkLoop (snd (scene 7)) InputState.default 0 F32.zero in
  let acc := F32.add (loop_accumulator st)
               (F32.of_f64 (elapsed_seconds 1048576000000000 0 1000000000)) in
  let i := processInput [] InputState.default in
  let em' := fixed_tick 1 i (fixed_tick 1 i (snd (scene 7))) in
  acc = F32.of_Z 1048576 ∧
  F32.geb acc TARGET_DT = true ∧
  F32.sub acc TARGET_DT = acc ∧
  (∀ fuel player, drain fuel player i (loop_em st) acc = None) ∧
  (∀ fuel, outer_iteration fuel 1 1048576000000000 1000000000 [] st = None) ∧
  (∀ fuel, outer_iteration fuel 1 1048576 1 [] st = None) ∧
  outer_iteration 2 1 1 30 [] st
  = Some (mkLoop em' i 1 F32.zero,
          [CallInput; CallControl; CallPhysics; CallControl; CallPhysics;
           CallRender (renderSystem em')]).
Proof.
  intros st acc i em'.
  assert (acc = S754_finite false 8388608 (-3)) as E by (vm_compute; reflexivity).
  assert (F32.add F32.zero (F32.of_f64 (elapsed_seconds 1048576000000000 0 1000000000))
          = S754_finite false 8388608 (-3)) as E0 by (vm_compute; reflexivity).
  assert (F32.add F32.zero (F32.of_f64 (elapsed_seconds 1048576 0 1))
          = S754_finite false 8388608 (-3)) as E1 by (vm_compute; reflexivity).
  assert (F32.add F32.zero (F32.of_f64 (elapsed_seconds 1 0 30))
          = S754_finite false 8947849 (-28)) as E2 by (vm_compute; reflexivity).
  split; [rewrite E; vm_compute; reflexivity|].
  split; [rewrite E; vm_compute; reflexivity|].
  split; [rewrite E; vm_compute; reflexivity|].
  split; [intros fuel player; rewrite E; apply drain_stuck; reflexivity|].
  split.
  { intros fuel. unfold outer_iteration.
    change (loop_accumulator st) with F32.zero. change (loop_prev st) with 0.
    change (loop_em st) with (snd (scene 7)).
    rewrite E0, drain_stuck; reflexivity. }
  split.
  { intros fuel. unfold outer_iteration.
    change (loop_accumulator st) with F32.zero. change (loop_prev st) with 0.
    change (loop_em st) with (snd (scene 7)).
    rewrite E1, drain_stuck; reflexivity. }
  unfold outer_iteration.
  change (loop_accumulator st) with F32.zero. change (loop_prev st) with 0.
  change (loop_em st) with (snd (scene 7)).
  change (loop_input st) with InputState.default. fold i.
  rewrite E2.
  rewrite (drain_two_ticks 2 1 i (snd (scene 7)) (Nat.le_refl 2)). reflexivity.
Qed.

(** The outer iteration in general.  It adds the elapsed time (a double,
    converted to float) to the accumulator and polls the input once.  When
    the accumulator is then at most 2^19 seconds (and not plus infinity), the
    inner loop runs a number n of fixed ticks, each being the control system,
    then the physics system, then the subtraction of 1/60 from the
    accumulator; it runs a tick exactly while the accumulator is at least
    1/60; then render runs, once, whatever n is.  Above 2^19 seconds the
    iteration returns nothing, whatever the fuel.  From an accumulator of 0,
    an elapsed time of 1/30 s gives exactly two ticks, a final accumulator of
    exactly 0, and one render. *)
Theorem outer_iteration_sequence
    (player : Entity) (now freq : Z) (events : list SDL_Event) (st : LoopState) :
  F32.valid (loop_accumulator st) = true ->
  let elapsed := elapsed_seconds now (loop_prev st) freq in
  let acc := F32.add (loop_accumulator st) (F32.of_f64 elapsed) in
  let i := processInput events (loop_input st) in
  (drainable acc = true ->
   ∃ n : nat,
     (∀ k, (k < n)%nat -> F32.geb (Nat.iter k subtract_dt acc) TARGET_DT = true) ∧
     F32.geb (Nat.iter n subtract_dt acc) TARGET_DT = false ∧
     F32.valid (Nat.iter n subtract_dt acc) = true ∧
     ∀ fuel, (n <= fuel)%nat ->
       let em' := Nat.iter n (fixed_tick player i) (loop_em st) in
       outer_iteration fuel player now freq events st
       = Some (mkLoop em' i now (Nat.iter n subtract_dt acc),
               CallInput :: tick_calls n ++ [CallRender (renderSystem em')])) ∧
  (drainable acc = false ->
   ∀ fuel, outer_iteration fuel player now freq events st = None) ∧
  (∀ em, fixed_tick player i em
         = physicsSystem (playerControlSystem player em i PLAYER_SPEED) TARGET_DT) ∧
  (∀ a, subtract_dt a = F32.sub a TARGET_DT) ∧
  (loop_accumulator st = F32.zero ->
   elapsed = F64.div (F64.of_Z 1) (F64.of_Z 30) ->
   ∀ fuel, (2 <= fuel)%nat ->
     let em' := fixed_tick player i (fixed_tick player i (loop_em st)) in
     outer_iteration fuel player now freq events st
     = Some (mkLoop em' i now F32.zero,
             [CallInput; CallControl; CallPhysics; CallControl; CallPhysics;
              CallRender (renderSystem em')])).
Proof.
  intros Hv elapsed acc i.
  assert (F32.valid acc = true) as Hva by now apply accumulate_valid.
  split; [|split; [|split; [reflexivity|split; [reflexivity|]]]].
  - intros Hd.
    destruct (drain_terminates player i (S (Z.to_nat (F32.units acc))) acc (loop_em st))
      as (n & Hn & Hk & Hend & Hvn); [lia | exact Hva | exact Hd |].
    exists n. repeat (split; [assumption|]).
    intros fuel Hf em'. unfold outer_iteration.
    fold elapsed. fold acc. fold i.
    rewrite (drain_fuel_mono n fuel _ _ _ _ _ Hf Hn). reflexivity.
  - intros Hd fuel. unfold outer_iteration.
    fold elapsed. fold acc. fold i.
    rewrite (drain_stuck fuel player i (loop_em st) acc Hva Hd). reflexivity.
  - intros Hz He fuel Hf em'. unfold outer_iteration.
    fold elapsed. rewrite Hz, He. fold i.
    change (F32.add F32.zero (F32.of_f64 (F64.div (F64.of_Z 1) (F64.of_Z 30))))
      with (S754_finite false 8947849 (-28)).
    rewrite (drain_two_ticks fuel player i (loop_em st) Hf). reflexivity.
Qed.

Lemma outer_iteration_sequence_witness :
  let st := mkLoop (snd (scene 7)) InputState.default 0 F32.zero in
  let i := processInput [SDL_KEYDOWN SDLK_d] InputState.default in
  let em' := fixed_tick 1 i (fixed_tick 1 i (snd (scene 7))) in
  outer_iteration 2 1 1 30 [SDL_KEYDOWN SDLK_d] st
  = Some (mkLoop em' i 1 F32.zero,
          [CallInput; CallControl; CallPhysics; CallControl; CallPhysics;
           CallRender (renderSystem em')]).
Proof.
  apply (outer_iteration_sequence 1 1 30 [SDL_KEYDOWN SDLK_d]
           (mkLoop (snd (scene 7)) InputState.default 0 F32.zero));
    reflexivity.
Defined.

(** * Further properties *)

(** ** Input: the snapshot in closed form *)

Lemma last_cons_default {A} (x d : A) (l : list A) :
  default d (last (x :: l)) = default x (last l).
Proof.
  revert x d. induction l as [|y l IH]; intros x d; [reflexivity|].
  change (last (x :: y :: l)) with (last (y :: l)).
  rewrite (IH y d). symmetry. apply (IH y x).
Qed.

Lemma handle_event_flag sym i e :
  flag_of sym (handle_event i e) = default (flag_of sym i) (key_change sym e).
Proof. destruct i, sym, e as [|[]|[]|]; reflexivity. Qed.

Lemma fold_handle_event_flag sym evs i :
  flag_of sym (fold_left handle_event evs i)
  = default (flag_of sym i) (last (omap (key_change sym) evs)).
Proof.
  revert i. induction evs as [|e evs IH]; intros i; [reflexivity|].
  simpl fold_left. rewrite IH, handle_event_flag. simpl omap.
  destruct (key_change sym e) as [b|]; simpl; [|reflexivity].
  symmetry. apply last_cons_default.
Qed.

(** X1.  [processInput] in closed form: [quit] is latched, and each of the
    four direction flags is what the last event about its key in this poll
    says, released when the poll has no event about it; the axes are the
    flags' differences.  A key that is held down but sends no event during
    a poll therefore reads as released. *)
Theorem processInput_last_event_wins (evs : list SDL_Event) (i : InputState.t) :
  processInput evs i
  = InputState.mk
      (InputState.quit i || existsb is_quit_event evs)
      (F32.of_Z (Z.b2z (key_held SDLK_d evs) - Z.b2z (key_held SDLK_a evs)))
      (F32.of_Z (Z.b2z (key_held SDLK_s evs) - Z.b2z (key_held SDLK_w evs)))
      (key_held SDLK_a evs) (key_held SDLK_d evs)
      (key_held SDLK_w evs) (key_held SDLK_s evs).
Proof.
  unfold processInput, key_held.
  set (i0 := InputState.mk _ _ _ _ _ _ _).
  pose proof (fold_handle_event_quit evs i0) as Hq.
  pose proof (fold_handle_event_axes evs i0) as [Hx Hy].
  pose proof (fold_handle_event_flag SDLK_a evs i0) as Ha.
  pose proof (fold_handle_event_flag SDLK_d evs i0) as Hd.
  pose proof (fold_handle_event_flag SDLK_w evs i0) as Hw.
  pose proof (fold_handle_event_flag SDLK_s evs i0) as Hs.
  destruct (fold_left handle_event evs i0) as [q ax ay l r u d].
  simpl in Hq, Hx, Hy, Ha, Hd, Hw, Hs. subst q ax ay l r u d.
  destruct (default false (last (omap (key_change SDLK_a) evs))),
           (default false (last (omap (key_change SDLK_d) evs))),
           (default false (last (omap (key_change SDLK_w) evs))),
           (default false (last (omap (key_change SDLK_s) evs)));
    reflexivity.
Qed.

Lemma handle_event_irrelevant i e : relevant e = false -> handle_event i e = i.
Proof. destruct i, e as [|[]|[]|]; simpl; intros H; try discriminate H; reflexivity. Qed.

Lemma fold_handle_event_relevant evs i :
  fold_left handle_event (filter (λ e, relevant e = true) evs) i
  = fold_left handle_event evs i.
Proof.
  revert i. induction evs as [|e evs IH]; intros i; [reflexivity|].
  destruct (relevant e) eqn:Hr.
  - rewrite filter_cons_True by exact Hr. simpl. apply IH.
  - rewrite filter_cons_False by (rewrite Hr; discriminate).
    simpl. rewrite (handle_event_irrelevant i e Hr). apply IH.
Qed.

(** X2.  [processInput] reacts only to [SDL_QUIT], to presses and releases
    of A, D, W and S, and to presses of Escape: every other event of a
    poll, a release of Escape included, can be dropped without changing the
    snapshot. *)
Theorem processInput_ignores_other_events (evs : list SDL_Event) (i : InputState.t) :
  processInput (filter (λ e, relevant e = true) evs) i = processInput evs i.
Proof.
  unfold processInput. rewrite fold_handle_event_relevant. reflexivity.
Qed.

(** ** The systems on the store *)

Lemma fixed_tick_frame player i em :
  nextId (fixed_tick player i em) = nextId em ∧
  entities (fixed_tick player i em) = entities em ∧
  sprites (fixed_tick player i em) = sprites em.
Proof.
  unfold fixed_tick, physicsSystem.
  pose proof (control_frame player em i PLAYER_SPEED) as Hc. cbv zeta in Hc.
  destruct Hc as (Hn & He & _ & Hs & _).
  destruct (physics_fold_frame TARGET_DT
              (entities (playerControlSystem player em i PLAYER_SPEED))
              (playerControlSystem player em i PLAYER_SPEED)) as (Hn' & He' & Hs').
  rewrite Hn', He', Hs'. auto.
Qed.

Lemma ticks_frame player snaps em :
  nextId (ticks player snaps em) = nextId em ∧
  entities (ticks player snaps em) = entities em ∧
  sprites (ticks player snaps em) = sprites em.
Proof.
  revert em. induction snaps as [|i snaps IH]; intros em; [auto|].
  unfold ticks in *. simpl fold_left.
  destruct (IH (fixed_tick player i em)) as (Hn & He & Hs).
  destruct (fixed_tick_frame player i em) as (Hn' & He' & Hs').
  rewrite Hn, He, Hs. auto.
Qed.

Lemma control_bodiless player em i speed e :
  bodies em !! e = None ->
  bodies (playerControlSystem player em i speed) !! e = None.
Proof.
  intros Hb.
  destruct (bodies (playerControlSystem player em i speed) !! e) eqn:E; [|reflexivity].
  assert (is_Some (bodies em !! e)) as [x Hx]
    by (apply (control_dom player em i speed e); eauto).
  rewrite Hb in Hx. discriminate Hx.
Qed.

Lemma fixed_tick_bodiless player i em e :
  bodies em !! e = None ->
  transforms (fixed_tick player i em) !! e = transforms em !! e ∧
  bodies (fixed_tick player i em) !! e = None.
Proof.
  intros Hb. unfold fixed_tick.
  pose proof (control_bodiless player em i PLAYER_SPEED e Hb) as Hb1.
  pose proof (control_frame player em i PLAYER_SPEED) as Hc. cbv zeta in Hc.
  destruct Hc as (_ & _ & Ht & _).
  destruct (physics_untouched TARGET_DT (playerControlSystem player em i PLAYER_SPEED) e
              (or_introl Hb1)) as [H1 H2].
  rewrite H1, H2, Ht. auto.
Qed.

(** X3.  An entity without a Rigidbody, such as the static objects of
    [main], is never moved: after any number of fixed ticks, whatever the
    input, its Transform is the one it had, it still has no Rigidbody, and
    [renderSystem] draws it as before. *)
Theorem bodiless_entity_stays_put
    (player : Entity) (snaps : list InputState.t) (em : EntityManager) (e : Entity) :
  bodies em !! e = None ->
  let em' := ticks player snaps em in
  transforms em' !! e = transforms em !! e ∧
  bodies em' !! e = None ∧
  drawable em' e = drawable em e ∧
  draw_of em' e = draw_of em e.
Proof.
  intros Hb em'.
  assert (transforms em' !! e = transforms em !! e ∧ bodies em' !! e = None) as [Ht Hb'].
  { subst em'. revert em Hb. induction snaps as [|i snaps IH]; intros em Hb; [auto|].
    unfold ticks in *. simpl fold_left.
    destruct (fixed_tick_bodiless player i em e Hb) as [H1 H2].
    destruct (IH _ H2) as [H3 H4]. rewrite H3, H4, H1. auto. }
  destruct (ticks_frame player snaps em) as (_ & _ & Hs). fold em' in Hs.
  unfold drawable, draw_of. rewrite Ht, Hb', Hs. auto.
Qed.

(** A static object of the scene of [main]. *)
Lemma bodiless_entity_stays_put_witness :
  bodies (snd (scene 7)) !! 3 = None ∧
  transforms (ticks 1 [processInput [SDL_KEYDOWN SDLK_d] InputState.default]
                    (snd (scene 7))) !! 3
  = transforms (snd (scene 7)) !! 3.
Proof.
  split; [reflexivity|].
  apply (bodiless_entity_stays_put 1
           [processInput [SDL_KEYDOWN SDLK_d] InputState.default] (snd (scene 7)) 3).
  reflexivity.
Defined.

Lemma physics_step_shape dt em e k :
  Transform.rot <$> transforms (physics_step dt em e) !! k
    = Transform.rot <$> transforms em !! k ∧
  Transform.scale <$> transforms (physics_step dt em e) !! k
    = Transform.scale <$> transforms em !! k ∧
  Rigidbody.mass <$> bodies (physics_step dt em e) !! k
    = Rigidbody.mass <$> bodies em !! k.
Proof.
  destruct (decide (k = e)) as [->|Hne].
  - destruct (physics_step_self dt em e) as [Ht Hb]. rewrite Ht, Hb.
    destruct (bodies em !! e) as [rb|], (transforms em !! e) as [t|]; auto.
  - destruct (physics_step_other dt em e k Hne) as [Ht Hb]. rewrite Ht, Hb. auto.
Qed.

Lemma physics_fold_shape dt es em k :
  Transform.rot <$> transforms (fold_left (physics_step dt) es em) !! k
    = Transform.rot <$> transforms em !! k ∧
  Transform.scale <$> transforms (fold_left (physics_step dt) es em) !! k
    = Transform.scale <$> transforms em !! k ∧
  Rigidbody.mass <$> bodies (fold_left (physics_step dt) es em) !! k
    = Rigidbody.mass <$> bodies em !! k.
Proof.
  revert em. induction es as [|e es IH]; intros em; [auto|].
  simpl fold_left. destruct (IH (physics_step dt em e)) as (H1 & H2 & H3).
  destruct (physics_step_shape dt em e k) as (H4 & H5 & H6).
  rewrite H1, H2, H3. auto.
Qed.

Lemma control_mass player em i speed k :
  Rigidbody.mass <$> bodies (playerControlSystem player em i speed) !! k
  = Rigidbody.mass <$> bodies em !! k.
Proof.
  destruct (decide (k = player)) as [->|Hne].
  - unfold playerControlSystem. destruct (bodies em !! player) as [rb|] eqn:E.
    + simpl. rewrite lookup_insert_eq. reflexivity.
    + rewrite E. reflexivity.
  - pose proof (control_frame player em i speed) as Hc. cbv zeta in Hc.
    destruct Hc as (_ & _ & _ & _ & Hb). rewrite (Hb k Hne). reflexivity.
Qed.

(** X4.  Fixed ticks change nothing but positions and velocities: after any
    number of them the live list, the id counter and the sprite table are
    the same, no Transform or Rigidbody has appeared or gone, and every
    rotation, scale and mass is what it was. *)
Theorem ticks_change_only_position_and_velocity
    (player : Entity) (snaps : list InputState.t) (em : EntityManager) :
  let em' := ticks player snaps em in
  nextId em' = nextId em ∧ entities em' = entities em ∧ sprites em' = sprites em ∧
  (∀ e, Transform.rot <$> transforms em' !! e = Transform.rot <$> transforms em !! e) ∧
  (∀ e, Transform.scale <$> transforms em' !! e
        = Transform.scale <$> transforms em !! e) ∧
  (∀ e, Rigidbody.mass <$> bodies em' !! e = Rigidbody.mass <$> bodies em !! e) ∧
  (∀ e, is_Some (transforms em' !! e) <-> is_Some (transforms em !! e)) ∧
  (∀ e, is_Some (bodies em' !! e) <-> is_Some (bodies em !! e)).
Proof.
  intros em'.
  destruct (ticks_frame player snaps em) as (Hn & He & Hs). fold em' in Hn, He, Hs.
  assert (∀ e,
    Transform.rot <$> transforms em' !! e = Transform.rot <$> transforms em !! e ∧
    Transform.scale <$> transforms em' !! e = Transform.scale <$> transforms em !! e ∧
    Rigidbody.mass <$> bodies em' !! e = Rigidbody.mass <$> bodies em !! e) as H.
  { intros e. subst em'. clear Hn He Hs. revert em.
    induction snaps as [|i snaps IH]; intros em; [auto|].
    unfold ticks in *. simpl fold_left.
    destruct (IH (fixed_tick player i em)) as (H1 & H2 & H3).
    rewrite H1, H2, H3. unfold fixed_tick, physicsSystem.
    destruct (physics_fold_shape TARGET_DT
                (entities (playerControlSystem player em i PLAYER_SPEED))
                (playerControlSystem player em i PLAYER_SPEED) e) as (H4 & H5 & H6).
    rewrite H4, H5, H6, control_mass.
    pose proof (control_frame player em i PLAYER_SPEED) as Hc. cbv zeta in Hc.
    destruct Hc as (_ & _ & Ht & _). rewrite Ht. auto. }
  repeat split; auto; try apply H.
  - intros [x Hx]. destruct (H e) as (H1 & _). rewrite Hx in H1.
    destruct (transforms em !! e); [eauto|discriminate H1].
  - intros [x Hx]. destruct (H e) as (H1 & _). rewrite Hx in H1.
    destruct (transforms em' !! e); [eauto|discriminate H1].
  - intros [x Hx]. destruct (H e) as (_ & _ & H1). rewrite Hx in H1.
    destruct (bodies em !! e); [eauto|discriminate H1].
  - intros [x Hx]. destruct (H e) as (_ & _ & H1). rewrite Hx in H1.
    destruct (bodies em' !! e); [eauto|discriminate H1].
Qed.

(** X5.  The entities do not influence one another in [physicsSystem]: on a
    live list without duplicates the result does not depend on the order of
    the list.  Two stores with the same tables whose live lists are
    permutations of each other come out with the same tables. *)
Theorem physicsSystem_order_independent
    (dt : F32.t) (n1 n2 : Z) (l1 l2 : list Z)
    (t : gmap Z Transform.t) (s : gmap Z Sprite.t) (b : gmap Z Rigidbody.t) :
  NoDup l1 -> l1 ≡ₚ l2 ->
  let r1 := physicsSystem (mkEM n1 l1 t s b) dt in
  let r2 := physicsSystem (mkEM n2 l2 t s b) dt in
  transforms r1 = transforms r2 ∧ bodies r1 = bodies r2 ∧ sprites r1 = sprites r2.
Proof.
  intros Hnd Hp r1 r2.
  assert (NoDup l2) as Hnd2 by (rewrite <- Hp; exact Hnd).
  assert (∀ k, transforms r1 !! k = transforms r2 !! k ∧ bodies r1 !! k = bodies r2 !! k)
    as H.
  { intros k. subst r1 r2. unfold physicsSystem. simpl entities.
    destruct (decide (k ∈ l1)) as [Hin|Hnin].
    - assert (k ∈ l2) as Hin2 by (rewrite <- Hp; exact Hin).
      destruct (physics_fold_in dt l1 (mkEM n1 l1 t s b) k Hnd Hin) as [H1 H2].
      destruct (physics_fold_in dt l2 (mkEM n2 l2 t s b) k Hnd2 Hin2) as [H3 H4].
      rewrite H1, H2, H3, H4.
      destruct (physics_step_self dt (mkEM n1 l1 t s b) k) as [H5 H6].
      destruct (physics_step_self dt (mkEM n2 l2 t s b) k) as [H7 H8].
      rewrite H5, H6, H7, H8. auto.
    - assert (k ∉ l2) as Hnin2 by (rewrite <- Hp; exact Hnin).
      destruct (physics_fold_notin dt l1 (mkEM n1 l1 t s b) k Hnin) as [H1 H2].
      destruct (physics_fold_notin dt l2 (mkEM n2 l2 t s b) k Hnin2) as [H3 H4].
      rewrite H1, H2, H3, H4. auto. }
  split; [apply map_eq; intros k; apply H|].
  split; [apply map_eq; intros k; apply H|].
  subst r1 r2. unfold physicsSystem. simpl entities.
  destruct (physics_fold_frame dt l1 (mkEM n1 l1 t s b)) as (_ & _ & H1).
  destruct (physics_fold_frame dt l2 (mkEM n2 l2 t s b)) as (_ & _ & H2).
  rewrite H1, H2. reflexivity.
Qed.

(** Two entities with a velocity, visited in either order. *)
Lemma physicsSystem_order_independent_witness :
  let t : gmap Z Transform.t := <[1 := Transform.default]> (<[2 := Transform.default]> ∅) in
  let b : gmap Z Rigidbody.t :=
    <[1 := Rigidbody.mk (Vec2.mk (F32.of_Z 60) F32.zero) F32.one]>
      (<[2 := Rigidbody.mk (Vec2.mk F32.zero (F32.of_Z 120)) F32.one]> ∅) in
  transforms (physicsSystem (mkEM 3 [1; 2] t ∅ b) TARGET_DT)
  = transforms (physicsSystem (mkEM 3 [2; 1] t ∅ b) TARGET_DT).
Proof.
  intros t b.
  apply (physicsSystem_order_independent TARGET_DT 3 3 [1; 2] [2; 1] t ∅ b).
  - apply NoDup_cons. split; [|apply NoDup_singleton].
    intros H. apply list_elem_of_singleton in H. discriminate H.
  - apply Permutation_swap.
Defined.

(** ** What the frame depends on *)

Lemma render_loop_ext em1 em2 es out :
  transforms em1 = transforms em2 -> sprites em1 = sprites em2 ->
  render_loop em1 es out = render_loop em2 es out.
Proof.
  intros Ht Hs. revert out. induction es as [|e es IH]; intros out; [reflexivity|].
  simpl. rewrite Ht, Hs.
  destruct (sprites em2 !! e) as [sp|]; [|apply IH].
  destruct (transforms em2 !! e) as [tr|]; [|apply IH].
  destruct (Sprite.tex sp =? 0); [apply IH|].
  destruct (dst_rect sp tr) as [r|]; [|reflexivity].
  simpl. apply IH.
Qed.

(** X6.  The frame is a function of the live list, the Transforms and the
    Sprites alone: velocities, masses and the id counter never reach the
    renderer.  In particular [playerControlSystem] on its own never changes
    what is drawn. *)
Theorem renderSystem_reads_transforms_and_sprites (em1 em2 : EntityManager) :
  (entities em1 = entities em2 -> transforms em1 = transforms em2 ->
   sprites em1 = sprites em2 -> renderSystem em1 = renderSystem em2) ∧
  (∀ player i speed,
     renderSystem (playerControlSystem player em1 i speed) = renderSystem em1).
Proof.
  assert (∀ a b, entities a = entities b -> transforms a = transforms b ->
                 sprites a = sprites b -> renderSystem a = renderSystem b) as H.
  { intros a b He Ht Hs. unfold renderSystem.
    rewrite He, (render_loop_ext a b _ _ Ht Hs). reflexivity. }
  split; [apply H|].
  intros player i speed.
  pose proof (control_frame player em1 i speed) as Hc. cbv zeta in Hc.
  destruct Hc as (_ & He & Ht & Hs & _). apply H; assumption.
Qed.

Lemma filter_drawable_null em es :
  (∀ e sp, sprites em !! e = Some sp -> Sprite.tex sp = 0) ->
  filter (λ e, drawable em e = true) es = [].
Proof.
  intros Hnull. induction es as [|e es IH]; [reflexivity|].
  rewrite filter_cons_False; [exact IH|].
  unfold drawable. destruct (sprites em !! e) as [sp|] eqn:E; [|discriminate].
  rewrite (Hnull e sp E). destruct (transforms em !! e); discriminate.
Qed.

(** X7.  With no texture at all, which is where [main] ends up when the
    bitmap cannot be loaded and the fallback cannot be made either, every
    frame is the clear and the present with no draw between them, after any
    number of ticks; no conversion to [int] is attempted, so the frame is
    defined whatever the Transforms hold. *)
Theorem null_textures_draw_nothing
    (player : Entity) (snaps : list InputState.t) (em : EntityManager) :
  (∀ e sp, sprites em !! e = Some sp -> Sprite.tex sp = 0) ->
  renderSystem (ticks player snaps em) = Some empty_frame.
Proof.
  intros Hnull.
  destruct (ticks_frame player snaps em) as (_ & _ & Hs).
  unfold renderSystem. rewrite render_loop_draws.
  rewrite filter_drawable_null by (rewrite Hs; exact Hnull).
  reflexivity.
Qed.

(** The scene of [main] with a null texture, after a tick. *)
Lemma null_textures_draw_nothing_witness :
  renderSystem (ticks 1 [InputState.default] (snd (scene 0))) = Some empty_frame.
Proof.
  apply (null_textures_draw_nothing 1 [InputState.default] (snd (scene 0))).
  intros e sp H.
  assert (sprites (snd (scene 0))
          = <[6 := Sprite.mk 0 64 64]> (<[5 := Sprite.mk 0 64 64]>
            (<[4 := Sprite.mk 0 64 64]> (<[3 := Sprite.mk 0 64 64]>
            (<[2 := Sprite.mk 0 64 64]> (<[1 := Sprite.mk 0 64 64]> ∅)))))) as Hsc
    by reflexivity.
  rewrite Hsc in H.
  repeat (apply lookup_insert_Some in H; destruct H as [[_ <-]|[_ H]]; [reflexivity|]).
  rewrite lookup_empty in H. discriminate H.
Defined.

(** ** A store at rest *)

Lemma add_zero_r (x : F32.t) : x ≠ S754_zero true -> F32.add x F32.zero = x.
Proof. destruct x as [[]| | |]; intros H; try reflexivity. contradiction. Qed.

Lemma physics_fold_fixed dt es em :
  (∀ e, physics_step dt em e = em) -> fold_left (physics_step dt) es em = em.
Proof.
  intros H. induction es as [|e es IH]; [reflexivity|].
  simpl. rewrite H. exact IH.
Qed.

(** X8.  A store at rest stays as it is: when no axis is deflected, every
    velocity is zero and no coordinate is a negative zero, a fixed tick
    returns the very same store. *)
Theorem store_at_rest_is_fixed (player : Entity) (i : InputState.t) (em : EntityManager) :
  InputState.axisX i = F32.zero -> InputState.axisY i = F32.zero ->
  (∀ e rb, bodies em !! e = Some rb -> Rigidbody.vel rb = Vec2.mk F32.zero F32.zero) ->
  (∀ e t, transforms em !! e = Some t ->
          Vec2.x (Transform.pos t) ≠ S754_zero true ∧
          Vec2.y (Transform.pos t) ≠ S754_zero true) ->
  fixed_tick player i em = em.
Proof.
  intros Hx Hy Hv Hp. unfold fixed_tick.
  assert (playerControlSystem player em i PLAYER_SPEED = em) as ->.
  { unfold playerControlSystem. destruct (bodies em !! player) as [rb|] eqn:E; [|reflexivity].
    rewrite Hx, Hy, (Hv _ _ E). simpl Vec2.x. simpl Vec2.y.
    rewrite zero_times_speed.
    change (F32.add F32.zero F32.zero) with F32.zero.
    rewrite <- (Hv _ _ E).
    replace (Rigidbody.mk (Rigidbody.vel rb) (Rigidbody.mass rb)) with rb
      by (destruct rb; reflexivity).
    rewrite (insert_id _ _ _ E). destruct em; reflexivity. }
  unfold physicsSystem. apply physics_fold_fixed. intros e.
  unfold physics_step.
  destruct (bodies em !! e) as [rb|] eqn:Eb; [|reflexivity].
  destruct (transforms em !! e) as [t|] eqn:Et; [|reflexivity].
  destruct (Hp _ _ Et) as [Hpx Hpy].
  rewrite (Hv _ _ Eb). simpl Vec2.x. simpl Vec2.y.
  change (F32.mul F32.zero TARGET_DT) with F32.zero.
  change (F32.mul F32.zero DAMPING) with F32.zero.
  rewrite (add_zero_r _ Hpx), (add_zero_r _ Hpy), <- (Hv _ _ Eb).
  replace (Rigidbody.mk (Rigidbody.vel rb) (Rigidbody.mass rb)) with rb
    by (destruct rb; reflexivity).
  replace (Transform.mk (Vec2.mk (Vec2.x (Transform.pos t)) (Vec2.y (Transform.pos t)))
                        (Transform.rot t) (Transform.scale t)) with t
    by (destruct t as [[] ? ?]; reflexivity).
  rewrite (insert_id _ _ _ Eb), (insert_id _ _ _ Et). destruct em; reflexivity.
Qed.

(** A player standing in the middle of the window, no key held. *)
Lemma store_at_rest_is_fixed_witness :
  let em := set_body 1 Rigidbody.default
              (set_pos 1 (Vec2.mk (F32.of_Z 400) (F32.of_Z 300)) (snd (create em_init))) in
  fixed_tick 1 (processInput [] InputState.default) em = em.
Proof.
  intros em.
  apply (store_at_rest_is_fixed 1 (processInput [] InputState.default) em);
    try reflexivity.
  - intros e rb H.
    change (bodies em) with (<[1 := Rigidbody.default]> (∅ : gmap Z Rigidbody.t)) in H.
    apply lookup_insert_Some in H.
    destruct H as [[_ <-]|[_ H]]; [reflexivity|].
    rewrite lookup_empty in H. discriminate H.
  - intros e t H.
    change (transforms em)
      with (<[1 := Transform.mk (Vec2.mk (F32.of_Z 400) (F32.of_Z 300)) F32.zero
                                (Vec2.mk F32.one F32.one)]>
              (<[1 := Transform.default]> (∅ : gmap Z Transform.t))) in H.
    apply lookup_insert_Some in H.
    destruct H as [[_ <-]|[_ H]].
    + split; discriminate.
    + apply lookup_insert_Some in H. destruct H as [[_ <-]|[_ H]].
      * split; discriminate.
      * rewrite lookup_empty in H. discriminate H.
Defined.

(** ** The texture cache *)

Lemma loadTexture_cached path surf tex rm t :
  textures rm !! path = Some t -> loadTexture path surf tex rm = (t, rm, []).
Proof. intros H. unfold loadTexture. rewrite H. reflexivity. Qed.

Lemma loadTexture_keeps path surf tex rm p t :
  textures rm !! p = Some t ->
  textures (loadTexture path surf tex rm).1.2 !! p = Some t.
Proof.
  intros H. unfold loadTexture.
  destruct (textures rm !! path) as [t0|] eqn:E; [exact H|].
  destruct (surf =? 0); [exact H|]. destruct (tex =? 0); [exact H|].
  simpl. rewrite lookup_insert_ne; [exact H|]. intros ->. congruence.
Qed.

Lemma loadTexture_renderer path surf tex rm :
  renderer (loadTexture path surf tex rm).1.2 = renderer rm.
Proof.
  unfold loadTexture. destruct (textures rm !! path); [reflexivity|].
  destruct (surf =? 0); [reflexivity|]. destruct (tex =? 0); reflexivity.
Qed.

Lemma load_step_eq st r :
  load_step st r
  = ((loadTexture (load_path r) (load_surf r) (load_tex r) st.1).1.2,
     st.2 ++ (loadTexture (load_path r) (load_surf r) (load_tex r) st.1).2).
Proof.
  unfold load_step.
  destruct (loadTexture (load_path r) (load_surf r) (load_tex r) st.1) as [[t rm'] calls].
  reflexivity.
Qed.

Lemma fold_load_step_keeps reqs st p t :
  textures st.1 !! p = Some t ->
  textures (fold_left load_step reqs st).1 !! p = Some t.
Proof.
  revert st. induction reqs as [|r reqs IH]; intros st H; [exact H|].
  simpl fold_left. apply IH. rewrite load_step_eq. simpl.
  apply loadTexture_keeps, H.
Qed.

(** X9.  A texture is loaded once: when [loadTexture] has returned a
    texture for a path, every later call for that path, after any other
    loads, returns the same texture without asking SDL for anything. *)
Theorem loadTexture_hit_after_success
    (path : string) (surf tex : Z) (rm : ResourceManager)
    (reqs : list LoadRequest) (surf' tex' : Z) :
  let r := loadTexture path surf tex rm in
  r.1.1 ≠ 0 ->
  let rm2 := (loads reqs r.1.2).1 in
  loadTexture path surf' tex' rm2 = (r.1.1, rm2, []).
Proof.
  intros r Hr rm2. apply loadTexture_cached.
  subst rm2. unfold loads. apply fold_load_step_keeps. simpl.
  subst r. revert Hr. unfold loadTexture.
  destruct (textures rm !! path) as [t0|] eqn:E; [intros _; exact E|].
  destruct (surf =? 0); [intros H; contradiction|].
  destruct (tex =? 0); [intros H; contradiction|].
  intros _. simpl. apply lookup_insert_eq.
Qed.

(** The bitmap of the player, then another load, then the player again. *)
Lemma loadTexture_hit_after_success_witness :
  let rm := mkRM 5 ∅ in
  let rm1 := (loadTexture "player.bmp" 11 12 rm).1.2 in
  let rm2 := (loads [mkLoad "wall.bmp" 13 14] rm1).1 in
  loadTexture "player.bmp" 0 0 rm2 = (12, rm2, []).
Proof.
  intros rm rm1 rm2.
  apply (loadTexture_hit_after_success "player.bmp" 11 12 rm [mkLoad "wall.bmp" 13 14] 0 0).
  discriminate.
Defined.

Lemma loadTexture_cache_ok path surf tex rm :
  cache_ok rm -> cache_ok (loadTexture path surf tex rm).1.2.
Proof.
  intros Hok. unfold loadTexture.
  destruct (textures rm !! path) as [t0|] eqn:E; [exact Hok|].
  destruct (surf =? 0); [exact Hok|].
  destruct (tex =? 0) eqn:Et; [exact Hok|].
  intros p t. simpl. intros H. apply lookup_insert_Some in H.
  destruct H as [[_ <-]|[_ H]]; [|exact (Hok _ _ H)].
  intros ->. discriminate Et.
Qed.

Lemma fold_load_step_cache_ok reqs st :
  cache_ok st.1 -> cache_ok (fold_left load_step reqs st).1.
Proof.
  revert st. induction reqs as [|r reqs IH]; intros st H; [exact H|].
  simpl fold_left. apply IH. rewrite load_step_eq. simpl.
  apply loadTexture_cache_ok, H.
Qed.

(** X10.  A failed load is not remembered.  When [loadTexture] returns
    [nullptr] on a cache without null entries, the cache is left as it was,
    the path is not in it, and SDL has refused either the bitmap or the
    texture; the next call for the same path asks SDL again and succeeds if
    SDL then answers. *)
Theorem loadTexture_failure_not_cached
    (path : string) (surf tex : Z) (rm : ResourceManager) :
  cache_ok rm ->
  (loadTexture path surf tex rm).1.1 = 0 ->
  (loadTexture path surf tex rm).1.2 = rm ∧
  textures rm !! path = None ∧
  (surf = 0 ∨ tex = 0) ∧
  (∀ surf' tex', surf' ≠ 0 -> tex' ≠ 0 ->
     loadTexture path surf' tex' (loadTexture path surf tex rm).1.2
     = (tex', mkRM (renderer rm) (<[path := tex']> (textures rm)),
        [SDL_LoadBMP path surf';
         SDL_CreateTextureFromSurface (renderer rm) surf' tex';
         SDL_FreeSurface surf'])).
Proof.
  intros Hok H0.
  assert ((loadTexture path surf tex rm).1.2 = rm ∧ textures rm !! path = None
          ∧ (surf = 0 ∨ tex = 0)) as (Hrm & Hnone & Hsdl).
  { revert H0. unfold loadTexture.
    destruct (textures rm !! path) as [t0|] eqn:E.
    - simpl. intros ->. exfalso. exact (Hok _ _ E eq_refl).
    - destruct (surf =? 0) eqn:Es.
      + intros _. apply Z.eqb_eq in Es. auto.
      + destruct (tex =? 0) eqn:Et.
        * intros _. apply Z.eqb_eq in Et. auto.
        * simpl. intros ->. discriminate Et. }
  repeat split; try assumption.
  intros surf' tex' Hs Ht. rewrite Hrm. unfold loadTexture. rewrite Hnone.
  apply Z.eqb_neq in Hs, Ht. rewrite Hs, Ht. reflexivity.
Qed.

(** The bitmap is missing at first and there at the second call. *)
Lemma loadTexture_failure_not_cached_witness :
  (loadTexture "player.bmp" 0 0 (mkRM 5 ∅)).1.2 = mkRM 5 ∅ ∧
  textures (mkRM 5 ∅) !! "player.bmp" = None.
Proof.
  assert (cache_ok (mkRM 5 ∅)) as Hok.
  { intros p t H. simpl in H. rewrite lookup_empty in H. discriminate H. }
  destruct (loadTexture_failure_not_cached "player.bmp" 0 0 (mkRM 5 ∅) Hok eq_refl)
    as (H1 & H2 & _).
  exact (conj H1 H2).
Defined.

Lemma destroyed_textures_destroy (l : list Z) :
  destroyed_textures (SDL_DestroyTexture <$> l) = l.
Proof. induction l as [|t l IH]; [reflexivity|]. simpl. f_equal. exact IH. Qed.

Lemma loadTexture_balance path surf tex rm :
  let r := loadTexture path surf tex rm in
  (map_to_list (textures r.1.2)).*2
    ≡ₚ (map_to_list (textures rm)).*2 ++ created_textures r.2 ∧
  freed_surfaces r.2 = obtained_surfaces r.2 ∧
  destroyed_textures r.2 = [].
Proof.
  unfold loadTexture.
  destruct (textures rm !! path) as [t0|] eqn:E.
  { simpl. rewrite app_nil_r. auto. }
  destruct (surf =? 0) eqn:Es.
  { simpl. rewrite app_nil_r. auto. }
  destruct (tex =? 0) eqn:Et.
  { simpl. unfold created_textures, freed_surfaces, obtained_surfaces. simpl.
    rewrite Es, Et. simpl. rewrite app_nil_r. auto. }
  simpl. unfold created_textures, freed_surfaces, obtained_surfaces. simpl.
  rewrite Es, Et. simpl. split; [|auto].
  rewrite (map_to_list_insert _ _ _ E). simpl.
  rewrite Permutation_app_comm. reflexivity.
Qed.

Lemma fold_load_step_balance reqs st :
  let r := fold_left load_step reqs st in
  ∃ calls,
    r.2 = st.2 ++ calls ∧
    (map_to_list (textures r.1)).*2
      ≡ₚ (map_to_list (textures st.1)).*2 ++ created_textures calls ∧
    freed_surfaces calls = obtained_surfaces calls ∧
    destroyed_textures calls = [].
Proof.
  revert st. induction reqs as [|q reqs IH]; intros st.
  { exists []. simpl. rewrite !app_nil_r. auto. }
  simpl fold_left. destruct (IH (load_step st q)) as (calls & H1 & H2 & H3 & H4).
  assert ((load_step st q).1
          = (loadTexture (load_path q) (load_surf q) (load_tex q) st.1).1.2) as Hs1
    by (rewrite load_step_eq; reflexivity).
  assert ((load_step st q).2
          = st.2 ++ (loadTexture (load_path q) (load_surf q) (load_tex q) st.1).2) as Hs2
    by (rewrite load_step_eq; reflexivity).
  rewrite Hs2 in H1. rewrite Hs1 in H2.
  pose proof (loadTexture_balance (load_path q) (load_surf q) (load_tex q) st.1) as Hb.
  cbv zeta in Hb. destruct Hb as (H5 & H6 & H7).
  exists ((loadTexture (load_path q) (load_surf q) (load_tex q) st.1).2 ++ calls).
  cbv zeta. rewrite H1, <- app_assoc. split; [reflexivity|].
  unfold created_textures, freed_surfaces, obtained_surfaces, destroyed_textures in *.
  rewrite !omap_app. rewrite H3, H4, H6, H7. repeat split; try reflexivity.
  rewrite H2, H5, <- app_assoc. reflexivity.
Qed.

(** X11.  The manager's textures are balanced.  After any sequence of loads
    on a fresh manager followed by [cleanup], the textures destroyed are,
    up to order, exactly the non-null textures SDL created: none is leaked
    and none is destroyed twice.  Nothing is destroyed before [cleanup],
    every surface obtained is freed, no cached texture is null, and
    [cleanup] leaves the cache empty. *)
Theorem textures_created_are_destroyed (reqs : list LoadRequest) (r : Z) :
  let loaded := loads reqs (mkRM r ∅) in
  let cleaned := cleanup loaded.1 in
  destroyed_textures cleaned.2 ≡ₚ created_textures loaded.2 ∧
  destroyed_textures loaded.2 = [] ∧
  freed_surfaces loaded.2 = obtained_surfaces loaded.2 ∧
  cache_ok loaded.1 ∧
  textures cleaned.1 = ∅ ∧
  renderer cleaned.1 = renderer loaded.1.
Proof.
  intros loaded cleaned.
  pose proof (fold_load_step_balance reqs (mkRM r ∅, [])) as Hb. cbv zeta in Hb.
  destruct Hb as (calls & H1 & H2 & H3 & H4).
  fold (loads reqs (mkRM r ∅)) in H1, H2. fold loaded in H1, H2. simpl in H1, H2.
  rewrite map_to_list_empty in H2. simpl in H2.
  subst cleaned. unfold cleanup. simpl. rewrite destroyed_textures_destroy, H1.
  repeat split; try assumption.
  subst loaded. unfold loads. apply fold_load_step_cache_ok.
  intros p t H. simpl in H. rewrite lookup_empty in H. discriminate H.
Qed.

(** ** The accumulator across iterations *)


Lemma shl_align_value (m : positive) (e e' : Z) :
  e' <= e -> Zpos (fst (shl_align m e e')) = Zpos m * 2 ^ (e - e').
Proof.
  intros H. destruct (Z.eq_dec e e') as [->|Hne].
  - rewrite shl_align_le by lia. rewrite Z.sub_diag. simpl. lia.
  - rewrite shl_align_gt by lia. simpl fst. rewrite iter_xO. f_equal. f_equal. lia.
Qed.

Lemma pack_false_cases (q e1 : Z) :
  0 <= q -> nonneg_finite (pack false q e1) = true ∨ pack false q e1 = S754_infinity false.
Proof.
  intros Hq. unfold pack. destruct q as [|p|p]; [auto| |lia].
  destruct (Zpos p <? 16777216).
  - destruct (e1 <=? 104); auto.
  - destruct (e1 + 1 <=? 104); auto.
Qed.

Lemma normalize_nonneg (D e : Z) :
  0 <= D ->
  nonneg_finite (binary_normalize 24 128 D e false) = true
  ∨ binary_normalize 24 128 D e false = S754_infinity false.
Proof.
  intros HD. destruct D as [|p|p]; [auto| |lia].
  simpl. destruct (binary_round_pack false p e) as (q & Hq & _ & _ & -> & _).
  apply pack_false_cases. lia.
Qed.

Lemma units_of_bounded (m : positive) (e : Z) :
  bounded 24 128 m e = true ->
  Zpos m * 2 ^ (e + 149) < 2 ^ (e + 173) ∧
  (-149 < e -> 2 ^ (e + 172) <= Zpos m * 2 ^ (e + 149)).
Proof.
  intros Hb. apply bounded_canonical in Hb as (Hd & He & Hcan).
  pose proof (digits2_pos_bounds m) as [Hml Hmu].
  set (dm := Zpos (digits2_pos m)) in *.
  assert (0 < 2 ^ (e + 149)) as HP by (apply pow2_pos; lia).
  split.
  - replace (e + 173) with (24 + (e + 149)) by lia. rewrite (Z.pow_add_r 2 24 (e + 149)) by lia.
    apply Z.mul_lt_mono_pos_r; [exact HP|].
    assert (2 ^ dm <= 2 ^ 24) by (apply pow2_le; lia). change (2 ^ 24) with 16777216 in *. lia.
  - intros He'. assert (dm = 24) as Hdm by lia. rewrite Hdm in Hml.
    replace (e + 172) with (23 + (e + 149)) by lia. rewrite (Z.pow_add_r 2 23 (e + 149)) by lia.
    apply Z.mul_le_mono_nonneg_r; [lia|]. change (24 - 1) with 23 in Hml. exact Hml.
Qed.

(** [dt <= a] on positive finite values, read on the units. *)
Lemma geb_dt_units (m : positive) (e : Z) :
  bounded 24 128 m e = true ->
  (SFleb TARGET_DT (S754_finite false m e) = true
   <-> 8947849 * 2 ^ 120 <= Zpos m * 2 ^ (e + 149)).
Proof.
  rewrite TARGET_DT_value. intros Hb.
  destruct (units_of_bounded m e Hb) as [Hup Hlow].
  pose proof (bounded_canonical m e Hb) as (Hd & He & Hcan).
  unfold SFleb, SFcompare.
  destruct (Z.compare_spec (-29) e) as [Heq | Hlt | Hgt].
  - subst e. change (-29 + 149) with 120.
    assert (0 < 2 ^ 120) by reflexivity.
    destruct (Pos.compare_cont Eq 8947849 m) eqn:Hc.
    + apply Pos.compare_eq in Hc. subst m. split; [lia|reflexivity].
    + assert (8947849 < m)%positive as Hc' by exact Hc.
      split; [intros _|reflexivity]. apply Z.mul_le_mono_nonneg_r; lia.
    + assert (8947849 > m)%positive as Hc' by exact Hc.
      split; [discriminate|]. intros H'. exfalso.
      apply Z.mul_le_mono_pos_r in H'; lia.
  - split; [intros _|reflexivity].
    specialize (Hlow ltac:(lia)).
    assert (2 ^ 144 <= 2 ^ (e + 172)) by (apply pow2_le; lia).
    assert (8947849 * 2 ^ 120 < 2 ^ 144) by reflexivity. lia.
  - split; [discriminate|]. intros H'. exfalso.
    assert (2 ^ (e + 173) <= 2 ^ 143) by (apply pow2_le; lia).
    assert (2 ^ 143 < 8947849 * 2 ^ 120) by reflexivity. lia.
Qed.

Lemma nonneg_finite_cases (x : F32.t) :
  nonneg_finite x = true ->
  x = S754_zero false ∨ ∃ m e, x = S754_finite false m e.
Proof. destruct x as [[]|[]| |[] m e]; try discriminate; eauto. Qed.

(** The sum of two non-negative values that stays below [2^19]: it is
    non-negative and finite, and at most half a unit in the last place,
    which is at most [2^-6], above the exact sum. *)
Lemma add_nonneg (x y : F32.t) :
  F32.valid x = true -> F32.valid y = true ->
  nonneg_finite x = true -> nonneg_finite y = true ->
  F32.units x + F32.units y < 2 ^ 168 ->
  F32.valid (F32.add x y) = true ∧
  nonneg_finite (F32.add x y) = true ∧
  2 * F32.units (F32.add x y) <= 2 * (F32.units x + F32.units y) + 2 ^ 144.
Proof.
  intros Hvx Hvy Hx Hy Hsum.
  split; [apply SFadd_valid; assumption|].
  assert (0 < 2 ^ 144) as H144 by reflexivity.
  destruct (nonneg_finite_cases x Hx) as [->|(mx & ex & ->)];
    destruct (nonneg_finite_cases y Hy) as [->|(my & ey & ->)];
    try (split; [reflexivity|simpl F32.add; simpl F32.units; lia]).
  pose proof (bounded_canonical mx ex Hvx) as (_ & Hex & _).
  pose proof (bounded_canonical my ey Hvy) as (_ & Hey & _).
  simpl F32.units in Hsum.
  change (F32.units (S754_finite false mx ex)) with (Zpos mx * 2 ^ (ex + 149)).
  change (F32.units (S754_finite false my ey)) with (Zpos my * 2 ^ (ey + 149)).
  unfold F32.add, SFadd. simpl cond_Zopp.
  set (ez := Z.min ex ey).
  assert (ez <= ex ∧ ez <= ey ∧ -149 <= ez) as (Hzx & Hzy & Hz) by (subst ez; lia).
  rewrite (shl_align_value mx ex ez Hzx), (shl_align_value my ey ez Hzy).
  set (P := 2 ^ (ez + 149)).
  assert (0 < P) as HP by (apply pow2_pos; lia).
  assert (2 ^ (ex + 149) = 2 ^ (ex - ez) * P) as Hpx.
  { subst P. rewrite <- Z.pow_add_r by lia. f_equal. lia. }
  assert (2 ^ (ey + 149) = 2 ^ (ey - ez) * P) as Hpy.
  { subst P. rewrite <- Z.pow_add_r by lia. f_equal. lia. }
  rewrite Hpx, Hpy in *. rewrite !Z.mul_assoc in *.
  assert (0 < 2 ^ (ex - ez)) as HPx by (apply pow2_pos; lia).
  assert (0 < 2 ^ (ey - ez)) as HPy by (apply pow2_pos; lia).
  set (A := Zpos mx * 2 ^ (ex - ez)) in *.
  set (B := Zpos my * 2 ^ (ey - ez)) in *.
  assert (0 < A) as HA by (subst A; apply Z.mul_pos_pos; lia).
  assert (0 < B) as HB by (subst B; apply Z.mul_pos_pos; lia).
  rewrite <- Z.mul_add_distr_r in *.
  destruct (A + B) as [|p|p] eqn:HM; [lia| |lia].
  change (binary_normalize F32.prec F32.emax (Z.pos p) ez false)
    with (binary_round 24 128 false p ez).
  destruct (binary_round_pack false p ez) as (q & Hq & Hexact & Hr & -> & _).
  pose proof (digits2_pos_bounds p) as [Hdl Hdu].
  set (d := Zpos (digits2_pos p)) in *.
  assert (0 < d) as Hd0 by (subst d; lia).
  assert (d + ez <= 19) as Hd19.
  { destruct (Z.le_gt_cases (d + ez) 19) as [H|H]; [exact H|exfalso].
    assert (2 ^ 168 <= 2 ^ (d - 1) * P); [|nia].
    subst P. rewrite <- Z.pow_add_r by lia. apply pow2_le. lia. }
  rewrite fexp32 in *.
  set (e1 := Z.max (d + ez - 24) (-149)) in *.
  assert (-149 <= e1 <= -5) as He1 by (subst e1; lia).
  assert (pack false q e1 <> S754_infinity false) as Hinf by (apply pack_not_inf; lia).
  split.
  { destruct (pack_false_cases q e1 ltac:(lia)) as [H|H]; [exact H|contradiction]. }
  rewrite (units_pack false q e1 Hq ltac:(lia) Hinf).
  destruct (Z.le_gt_cases e1 ez) as [Hle|Hgt].
  - rewrite (Hexact Hle).
    assert (2 ^ (ez - e1) * 2 ^ (e1 + 149) = P) as HPe.
    { subst P. rewrite <- Z.pow_add_r by lia. f_equal. lia. }
    rewrite <- Z.mul_assoc, HPe. lia.
  - specialize (Hr ltac:(lia)).
    set (W := 2 ^ (e1 - ez)) in *.
    assert (0 < W) as HW by (apply pow2_pos; lia).
    assert (2 ^ (e1 + 149) = W * P) as HWP.
    { subst W P. rewrite <- Z.pow_add_r by lia. f_equal. lia. }
    assert (W * P <= 2 ^ 144) as HWP144.
    { rewrite <- HWP. apply pow2_le. lia. }
    rewrite HWP.
    assert (2 * (W * q) * P <= (2 * Zpos p + W) * P) as Hmul
      by (apply Z.mul_le_mono_nonneg_r; lia).
    lia.
Qed.

Lemma sub_dt_nonneg (m : positive) (e : Z) :
  bounded 24 128 m e = true ->
  SFleb TARGET_DT (S754_finite false m e) = true ->
  let a' := SFsub 24 128 (S754_finite false m e) TARGET_DT in
  nonneg_finite a' = true ∨ a' = S754_infinity false.
Proof.
  intros Hb Hle. apply (geb_dt_units m e Hb) in Hle.
  destruct (units_of_bounded m e Hb) as [Hup _].
  pose proof (bounded_canonical m e Hb) as (_ & He & _).
  rewrite TARGET_DT_value.
  assert (-29 <= e) as He29.
  { destruct (Z.le_gt_cases (-29) e) as [H|H]; [exact H|exfalso].
    assert (2 ^ (e + 173) <= 2 ^ 143) by (apply pow2_le; lia).
    assert (2 ^ 143 < 8947849 * 2 ^ 120) by reflexivity. lia. }
  intros a'. subst a'. simpl SFsub. rewrite Z.min_r by lia.
  rewrite (shl_align_value m e (-29)), (shl_align_value 8947849 (-29) (-29)) by lia.
  simpl cond_Zopp. apply normalize_nonneg.
  replace (e + 149) with ((e - -29) + 120) in Hle by lia.
  rewrite (Z.pow_add_r 2 (e - -29) 120), Z.mul_assoc in Hle by lia.
  apply Z.mul_le_mono_pos_r in Hle; [|reflexivity].
  change (2 ^ (-29 - -29)) with 1. lia.
Qed.

Lemma subtract_dt_nonneg (a : F32.t) :
  F32.valid a = true -> nonneg_finite a = true -> drainable a = true ->
  F32.geb a TARGET_DT = true ->
  F32.valid (subtract_dt a) = true ∧ nonneg_finite (subtract_dt a) = true ∧
  drainable (subtract_dt a) = true.
Proof.
  intros Hv Hn Hd Hge.
  destruct (nonneg_finite_cases a Hn) as [->|(m & e & ->)].
  { unfold F32.geb in Hge. rewrite TARGET_DT_value in Hge. discriminate Hge. }
  simpl in Hd. apply Z.leb_le in Hd.
  destruct (sub_dt_step_le m e Hv Hge Hd) as (Hv' & Hinf & Hlt).
  destruct (sub_dt_nonneg m e Hv Hge) as [Hn'|Hn']; [|contradiction].
  split; [exact Hv'|]. split; [exact Hn'|].
  exact (drainable_of_smaller _ _ Hinf Hlt Hd).
Qed.

Lemma drain_keeps_nonneg (n : nat) (acc : F32.t) :
  F32.valid acc = true -> nonneg_finite acc = true -> drainable acc = true ->
  (∀ k, (k < n)%nat -> F32.geb (Nat.iter k subtract_dt acc) TARGET_DT = true) ->
  F32.valid (Nat.iter n subtract_dt acc) = true ∧
  nonneg_finite (Nat.iter n subtract_dt acc) = true ∧
  drainable (Nat.iter n subtract_dt acc) = true.
Proof.
  intros Hv Hn Hd. induction n as [|n IH]; intros Hk; [auto|].
  destruct IH as (Hv' & Hn' & Hd'); [intros k Hlt; apply Hk; lia|].
  change (Nat.iter (S n) subtract_dt acc) with (subtract_dt (Nat.iter n subtract_dt acc)).
  apply subtract_dt_nonneg; try assumption. apply Hk. lia.
Qed.

Lemma carry_units (acc : F32.t) :
  carry acc = true ->
  F32.valid acc = true ∧ nonneg_finite acc = true ∧ F32.units acc < 8947849 * 2 ^ 120.
Proof.
  unfold carry. intros H. apply andb_prop in H as [H Hge]. apply andb_prop in H as [Hv Hn].
  split; [exact Hv|]. split; [exact Hn|].
  destruct (nonneg_finite_cases acc Hn) as [->|(m & e & ->)]; [reflexivity|].
  simpl F32.units. unfold F32.geb in Hge.
  destruct (Z.lt_ge_cases (Zpos m * 2 ^ (e + 149)) (8947849 * 2 ^ 120)) as [H|H]; [exact H|].
  apply (geb_dt_units m e Hv) in H. rewrite H in Hge. discriminate Hge.
Qed.

(** Adding a short time to a leftover gives an accumulator from which the
    inner loop comes to an end. *)
Lemma accumulate_carry (acc x : F32.t) :
  carry acc = true -> short_time x = true ->
  F32.valid (F32.add acc x) = true ∧ nonneg_finite (F32.add acc x) = true ∧
  drainable (F32.add acc x) = true.
Proof.
  intros Hc Hs. apply carry_units in Hc as (Hv & Hn & Hu).
  unfold short_time in Hs. apply andb_prop in Hs as [Hs Hux].
  apply andb_prop in Hs as [Hvx Hnx]. apply Z.leb_le in Hux.
  assert (8947849 * 2 ^ 120 < 2 ^ 144) as H1 by reflexivity.
  assert (2 ^ 144 + 2 ^ 167 + 2 ^ 143 < 2 ^ 168) as H2 by reflexivity.
  destruct (add_nonneg acc x Hv Hvx Hn Hnx ltac:(lia)) as (Hva & Hna & Hua).
  split; [exact Hva|]. split; [exact Hna|].
  destruct (nonneg_finite_cases _ Hna) as [->|(m & e & Heq)]; [reflexivity|].
  rewrite Heq in *. simpl in Hua |- *. apply Z.leb_le.
  assert (2 ^ 144 = 2 * 2 ^ 143) as H3 by reflexivity. lia.
Qed.

Lemma carry_intro (acc : F32.t) :
  F32.valid acc = true -> nonneg_finite acc = true ->
  F32.geb acc TARGET_DT = false -> carry acc = true.
Proof. intros Hv Hn Hg. unfold carry. rewrite Hv, Hn, Hg. reflexivity. Qed.

(** An outer iteration that starts with a leftover and measures a short
    time: it ends, and leaves a leftover. *)
Lemma iteration_run player now freq events st :
  carry (loop_accumulator st) = true ->
  short_time (F32.of_f64 (elapsed_seconds now (loop_prev st) freq)) = true ->
  ∃ (n : nat) (acc' : F32.t),
    carry acc' = true ∧
    ∀ fuel, (n <= fuel)%nat ->
      outer_iteration fuel player now freq events st
      = Some (mkLoop (Nat.iter n (fixed_tick player (processInput events (loop_input st)))
                        (loop_em st))
                     (processInput events (loop_input st)) now acc',
              CallInput :: tick_calls n
                ++ [CallRender (renderSystem
                      (Nat.iter n (fixed_tick player (processInput events (loop_input st)))
                         (loop_em st)))]).
Proof.
  intros Hc Hs.
  destruct (accumulate_carry _ _ Hc Hs) as (Hv & Hn & Hd).
  set (acc := F32.add (loop_accumulator st)
                (F32.of_f64 (elapsed_seconds now (loop_prev st) freq))) in *.
  set (i := processInput events (loop_input st)).
  destruct (drain_terminates player i (S (Z.to_nat (F32.units acc))) acc (loop_em st)
              ltac:(lia) Hv Hd) as (n & Hdr & Hk & Hend & _).
  destruct (drain_keeps_nonneg n acc Hv Hn Hd Hk) as (Hv' & Hn' & _).
  exists n, (Nat.iter n subtract_dt acc).
  split; [apply carry_intro; assumption|].
  intros fuel Hfuel. unfold outer_iteration. fold acc i.
  rewrite (drain_fuel_mono n fuel player i (loop_em st) acc _ Hfuel Hdr).
  reflexivity.
Qed.

(** X12.  The leftover time never piles up.  When the accumulator starts an
    outer iteration in [[0, TARGET_DT)] and the time measured is finite,
    not negative and at most [2^18] seconds, the inner loop ends after some
    number [n] of ticks, the frame is rendered after them, and the
    accumulator is back in [[0, TARGET_DT)]: the next iteration starts
    under the same condition. *)
Theorem outer_iteration_keeps_carry
    (player : Entity) (now freq : Z) (events : list SDL_Event) (st : LoopState) :
  carry (loop_accumulator st) = true ->
  short_time (F32.of_f64 (elapsed_seconds now (loop_prev st) freq)) = true ->
  ∃ (n : nat) (st' : LoopState),
    carry (loop_accumulator st') = true ∧
    loop_prev st' = now ∧
    loop_input st' = processInput events (loop_input st) ∧
    loop_em st' = Nat.iter n (fixed_tick player (loop_input st')) (loop_em st) ∧
    ∀ fuel, (n <= fuel)%nat ->
      outer_iteration fuel player now freq events st
      = Some (st', CallInput :: tick_calls n ++ [CallRender (renderSystem (loop_em st'))]).
Proof.
  intros Hc Hs.
  destruct (iteration_run player now freq events st Hc Hs) as (n & acc' & Hc' & Hrun).
  exists n. eexists (mkLoop _ _ now acc'). simpl.
  split; [exact Hc'|]. split; [reflexivity|]. split; [reflexivity|].
  split; [reflexivity|]. exact Hrun.
Qed.

(** The first frame of [main] when a thirtieth of a second has passed. *)
Lemma outer_iteration_keeps_carry_witness :
  ∃ (n : nat) (st' : LoopState),
    carry (loop_accumulator st') = true ∧
    outer_iteration n 1 1 30 [] (mkLoop (snd (scene 7)) InputState.default 0 F32.zero)
    = Some (st', CallInput :: tick_calls n ++ [CallRender (renderSystem (loop_em st'))]).
Proof.
  destruct (outer_iteration_keeps_carry 1 1 30 []
              (mkLoop (snd (scene 7)) InputState.default 0 F32.zero)
              eq_refl eq_refl) as (n & st' & Hc & _ & _ & _ & Hrun).
  exists n, st'. split; [exact Hc|]. apply Hrun. apply Nat.le_refl.
Defined.

(** ** The main loop *)

Lemma count_calls_app p a b :
  count_calls p (a ++ b) = (count_calls p a + count_calls p b)%nat.
Proof. unfold count_calls. rewrite List.filter_app, length_app. reflexivity. Qed.

Lemma count_tick_calls_input n : count_calls is_CallInput (tick_calls n) = O.
Proof. induction n as [|n IH]; [reflexivity|exact IH]. Qed.

Lemma count_tick_calls_render n : count_calls is_CallRender (tick_calls n) = O.
Proof. induction n as [|n IH]; [reflexivity|exact IH]. Qed.

Lemma main_loop_eq fuel player frames st log :
  main_loop fuel player frames st log
  = if InputState.quit (loop_input st) then LoopExit st log
    else
      match frames with
      | [] => LoopRunning st log
      | f :: rest =>
          match outer_iteration fuel player (frame_now f) (frame_freq f)
                                (frame_events f) st with
          | None => LoopNoFuel
          | Some (st', calls) => main_loop fuel player rest st' (log ++ calls)
          end
      end.
Proof. destruct frames; reflexivity. Qed.

(** The loop on inputs that measure short times: it makes [iterations]
    outer iterations, each with one poll and one frame, and it is left
    exactly when [leaves] says so. *)
Lemma main_loop_run player frames :
  ∀ st log,
    carry (loop_accumulator st) = true ->
    short_frames (loop_prev st) frames = true ->
    ∃ (fuel0 : nat) (st' : LoopState) (calls : list Call),
      (∀ fuel, (fuel0 <= fuel)%nat ->
         main_loop fuel player frames st log
         = if leaves (InputState.quit (loop_input st)) frames
           then LoopExit st' (log ++ calls) else LoopRunning st' (log ++ calls)) ∧
      count_calls is_CallInput calls = iterations (InputState.quit (loop_input st)) frames ∧
      count_calls is_CallRender calls = iterations (InputState.quit (loop_input st)) frames ∧
      InputState.quit (loop_input st') = leaves (InputState.quit (loop_input st)) frames ∧
      carry (loop_accumulator st') = true ∧
      (calls = [] ∨ ∃ fr, last calls = Some (CallRender fr)).
Proof.
  induction frames as [|f rest IH]; intros st log Hc Hs.
  - exists O, st, []. rewrite app_nil_r.
    split; [intros fuel _; rewrite main_loop_eq|];
      destruct (InputState.quit (loop_input st)); auto 10.
  - destruct (InputState.quit (loop_input st)) eqn:Hq.
    { exists O, st, []. rewrite app_nil_r.
      split; [intros fuel _; rewrite main_loop_eq, Hq; reflexivity|]. auto 10. }
    simpl in Hs. apply andb_prop in Hs as [Hs1 Hs2].
    destruct (iteration_run player (frame_now f) (frame_freq f) (frame_events f) st Hc Hs1)
      as (n & acc' & Hc' & Hrun).
    set (i := processInput (frame_events f) (loop_input st)) in *.
    set (em' := Nat.iter n (fixed_tick player i) (loop_em st)) in *.
    set (st1 := mkLoop em' i (frame_now f) acc') in *.
    set (calls1 := CallInput :: tick_calls n ++ [CallRender (renderSystem em')]) in *.
    destruct (IH st1 (log ++ calls1) Hc' Hs2)
      as (fuel1 & st' & calls & Hloop & Hci & Hcr & Hq' & Hc'' & Hlast).
    assert (InputState.quit (loop_input st1) = existsb is_quit_event (frame_events f)) as Hq1.
    { subst st1 i. simpl. rewrite processInput_quit, Hq. reflexivity. }
    rewrite Hq1 in *.
    exists (Nat.max n fuel1), st', (calls1 ++ calls).
    split.
    { intros fuel Hfuel. rewrite main_loop_eq, Hq.
      rewrite (Hrun fuel ltac:(lia)), (Hloop fuel ltac:(lia)), <- app_assoc.
      reflexivity. }
    simpl leaves. simpl iterations.
    rewrite !count_calls_app, Hci, Hcr. subst calls1.
    change (CallInput :: tick_calls n ++ [CallRender (renderSystem em')])
      with ([CallInput] ++ tick_calls n ++ [CallRender (renderSystem em')]).
    rewrite !count_calls_app, count_tick_calls_input, count_tick_calls_render.
    split; [reflexivity|]. split; [reflexivity|]. split; [exact Hq'|].
    split; [exact Hc''|]. right.
    destruct Hlast as [->|[fr Hfr]].
    + exists (renderSystem em'). rewrite !last_app. reflexivity.
    + exists fr. rewrite last_app, Hfr. reflexivity.
Qed.

Lemma main_loop_extend fuel player frames more :
  ∀ st log st' calls,
    main_loop fuel player frames st log = LoopExit st' calls ->
    main_loop fuel player (frames ++ more) st log = LoopExit st' calls.
Proof.
  induction frames as [|f rest IH]; intros st log st' calls H.
  - rewrite main_loop_eq in H. rewrite main_loop_eq.
    destruct (InputState.quit (loop_input st)); [exact H|discriminate H].
  - rewrite main_loop_eq in H. rewrite <- app_comm_cons, main_loop_eq.
    destruct (InputState.quit (loop_input st)); [exact H|].
    destruct (outer_iteration fuel player (frame_now f) (frame_freq f) (frame_events f) st)
      as [[st1 calls1]|]; [|discriminate H].
    apply IH, H.
Qed.

Lemma leaves_quiet pre f :
  Forall (λ g, quiet g = true) pre -> quiet f = false ->
  ∀ q, leaves q (pre ++ [f]) = true ∧
       (q = false -> iterations q (pre ++ [f]) = S (length pre)).
Proof.
  intros Hpre Hf. induction Hpre as [|g pre Hg Hpre IH]; intros q.
  - simpl. unfold quiet in Hf. apply negb_false_iff in Hf. rewrite Hf.
    destruct q; split; auto; discriminate.
  - destruct q; [split; [reflexivity|discriminate]|].
    simpl. unfold quiet in Hg. apply negb_true_iff in Hg. rewrite Hg.
    destruct (IH false) as [H1 H2]. split; [exact H1|]. intros _. rewrite H2; auto.
Qed.

(** ** The program as a whole *)

Lemma omap_fmap_none {A B C} (f : B -> option C) (g : A -> B) (l : list A) :
  (∀ x, f (g x) = None) -> omap f (g <$> l) = [].
Proof.
  intros H. induction l as [|x l IH]; [reflexivity|].
  simpl. rewrite H. exact IH.
Qed.

Lemma omap_fmap_some {A B} (f : B -> option A) (g : A -> B) (l : list A) :
  (∀ x, f (g x) = Some x) -> omap f (g <$> l) = l.
Proof.
  intros H. induction l as [|x l IH]; [reflexivity|].
  simpl. rewrite H. simpl. f_equal. exact IH.
Qed.

Lemma player_texture_fresh (bs bt fs ft r : Z) :
  player_texture bs bt fs ft (mkRM r ∅)
  = if bs =? 0 then
      if fs =? 0 then
        (0, mkRM r ∅,
         [SDL_LoadBMP "player.bmp" 0; Cerr "Erro ao carregar BMP: ";
          SDL_CreateRGBSurfaceWithFormat 64 64 32 0])
      else
        (ft, mkRM r ∅,
         [SDL_LoadBMP "player.bmp" 0; Cerr "Erro ao carregar BMP: ";
          SDL_CreateRGBSurfaceWithFormat 64 64 32 fs; SDL_FillRect fs 200 80 80;
          SDL_CreateTextureFromSurface r fs ft; SDL_FreeSurface fs])
    else if bt =? 0 then
      if fs =? 0 then
        (0, mkRM r ∅,
         [SDL_LoadBMP "player.bmp" bs; SDL_CreateTextureFromSurface r bs bt;
          SDL_FreeSurface bs; Cerr "Erro ao criar textura: ";
          SDL_CreateRGBSurfaceWithFormat 64 64 32 0])
      else
        (ft, mkRM r ∅,
         [SDL_LoadBMP "player.bmp" bs; SDL_CreateTextureFromSurface r bs bt;
          SDL_FreeSurface bs; Cerr "Erro ao criar textura: ";
          SDL_CreateRGBSurfaceWithFormat 64 64 32 fs; SDL_FillRect fs 200 80 80;
          SDL_CreateTextureFromSurface r fs ft; SDL_FreeSurface fs])
    else
      (bt, mkRM r {["player.bmp" := bt]},
       [SDL_LoadBMP "player.bmp" bs; SDL_CreateTextureFromSurface r bs bt;
        SDL_FreeSurface bs]).
Proof.
  unfold player_texture, loadTexture. simpl textures. rewrite lookup_empty.
  destruct (bs =? 0) eqn:Ebs.
  - simpl. destruct (fs =? 0); reflexivity.
  - destruct (bt =? 0) eqn:Ebt.
    + simpl. destruct (fs =? 0); reflexivity.
    + rewrite Ebt. rewrite insert_empty. reflexivity.
Qed.

Lemma frame_calls_Frame (calls : list Call) : frame_calls (Frame <$> calls) = calls.
Proof. apply omap_fmap_some. reflexivity. Qed.

(** [main] when start-up succeeds. *)
Lemma main_started fuel w :
  startup_ok w = true ->
  main fuel w
  = let '(tex, resources, tcalls) :=
      player_texture (w_bmp_surf w) (w_bmp_tex w) (w_fallback_surf w) (w_fallback_tex w)
                     (mkRM (w_renderer w) ∅) in
    let '(player, em) := scene tex in
    match main_loop fuel player (w_frames w)
            (mkLoop em InputState.default (w_counter w) F32.zero) [] with
    | LoopNoFuel => NoFuel
    | LoopRunning _ calls => Running (startup_calls w ++ tcalls ++ (Frame <$> calls))
    | LoopExit st' calls =>
        Exit 0 (startup_calls w ++ tcalls ++ (Frame <$> calls)
                ++ (cleanup resources).2
                ++ [SDL_DestroyRenderer (w_renderer w);
                    SDL_DestroyWindow (w_window w); SDL_Quit])
    end.
Proof.
  unfold startup_ok. intros H. apply andb_prop in H as [H Hr]. apply andb_prop in H as [Hi Hw].
  apply negb_true_iff in Hr, Hw. unfold main. rewrite Hi, Hw, Hr. simpl negb. cbv iota.
  destruct (player_texture _ _ _ _ _) as [[tex resources] tcalls].
  destruct (scene tex) as [player em].
  destruct (main_loop _ _ _ _ _); reflexivity.
Qed.

Ltac fold_omap :=
  repeat match goal with
         | |- context [list_omap ?A ?B ?f ?l] => change (list_omap A B f l) with (omap f l)
         end.

Ltac trace_proj :=
  unfold started, shut_down, created_windows, destroyed_windows, created_renderers,
    destroyed_renderers, created_textures, destroyed_textures, obtained_surfaces,
    freed_surfaces, frame_calls, startup_calls, cleanup;
  simpl; fold_omap;
  rewrite ?omap_app;
  rewrite ?(omap_fmap_none _ Frame) by (intros; reflexivity);
  rewrite ?map_to_list_empty, ?map_to_list_singleton;
  simpl.

(** X14.  Whichever way [main] returns, it has released what it acquired.
    The exit code is [0] after a start-up that succeeded and [1] otherwise;
    SDL is shut down exactly when it was started, and then as the very last
    call; the window and the renderer are destroyed exactly when they were
    created; every surface obtained is freed; the texture of the bitmap is
    destroyed once when it was made.  After a failed start-up nothing is
    loaded and the loop is never entered.  The one thing [main] creates and
    does not destroy itself is the texture of the fallback square, which is
    not in the cache that [cleanup] walks. *)
Theorem main_releases_what_it_acquired
    (fuel : nat) (w : World) (code : Z) (tr : list SDLCall) :
  main fuel w = Exit code tr ->
  code = (if startup_ok w then 0 else 1) ∧
  shut_down tr = started tr ∧
  (w_init w = 0 -> last tr = Some SDL_Quit) ∧
  destroyed_windows tr = created_windows tr ∧
  destroyed_renderers tr = created_renderers tr ∧
  freed_surfaces tr = obtained_surfaces tr ∧
  destroyed_textures tr = (if startup_ok w && bitmap_ok w then [w_bmp_tex w] else []) ∧
  (startup_ok w = false -> frame_calls tr = [] ∧ obtained_surfaces tr = []) ∧
  (startup_ok w = true -> bitmap_ok w = false ->
   created_textures tr
   = if (w_fallback_surf w =? 0) || (w_fallback_tex w =? 0) then []
     else [w_fallback_tex w]).
Proof.
  intros H. destruct (startup_ok w) eqn:Hok.
  - rewrite (main_started fuel w Hok) in H.
    unfold startup_ok in Hok. apply andb_prop in Hok as [Hok Hr].
    apply andb_prop in Hok as [Hi Hw]. apply negb_true_iff in Hr, Hw.
    rewrite player_texture_fresh in H. unfold bitmap_ok.
    destruct (w_bmp_surf w =? 0) eqn:Ebs; [|destruct (w_bmp_tex w =? 0) eqn:Ebt];
      try destruct (w_fallback_surf w =? 0) eqn:Efs;
      match type of H with
      | context [scene ?t] => destruct (scene t) as [player em]
      end;
      destruct (main_loop _ _ _ _ _) as [st' calls|st' calls|]; try discriminate H;
      injection H as <- <-;
      (split; [reflexivity|]);
      (split; [trace_proj; rewrite ?Hi; reflexivity|]);
      (split; [intros _; simpl; rewrite ?last_cons, ?last_app; reflexivity|]);
      (split; [trace_proj; rewrite ?Hw; reflexivity|]);
      (split; [trace_proj; rewrite ?Hr; reflexivity|]);
      (split; [trace_proj; rewrite ?Ebs, ?Efs; reflexivity|]);
      (split; [trace_proj; rewrite ?Ebs, ?Ebt; reflexivity|]);
      (split; [discriminate|]);
      intros _ Hb; rewrite ?Ebs, ?Ebt in Hb; try discriminate Hb;
      trace_proj; rewrite ?Ebt; simpl;
      destruct (w_fallback_tex w =? 0); reflexivity.
  - assert (code = 1 ∧
            (tr = [SDL_Init (w_init w); Cerr "Erro SDL_Init: "] ∧ (w_init w =? 0) = false
             ∨ tr = [SDL_Init 0; SDL_CreateWindow WINDOW_TITLE WINDOW_W WINDOW_H 0;
                     Cerr "Erro SDL_CreateWindow: "; SDL_Quit]
             ∨ tr = [SDL_Init 0;
                     SDL_CreateWindow WINDOW_TITLE WINDOW_W WINDOW_H (w_window w);
                     SDL_CreateRenderer (w_window w) 0;
                     Cerr "Erro SDL_CreateRenderer: ";
                     SDL_DestroyWindow (w_window w); SDL_Quit]
               ∧ (w_window w =? 0) = false)) as [-> Htr].
    { unfold startup_ok in Hok. unfold main in H.
      destruct (w_init w =? 0) eqn:Hi; simpl in H.
      - destruct (w_window w =? 0) eqn:Hw.
        + injection H as <- <-. auto.
        + destruct (w_renderer w =? 0) eqn:Hr; [|discriminate Hok].
          injection H as <- <-. auto.
      - injection H as <- <-. auto. }
    split; [reflexivity|].
    destruct Htr as [[-> Hi]|[->|[-> Hw]]]; trace_proj; rewrite ?Hi, ?Hw;
      repeat split; try reflexivity; try discriminate.
    intros Hi'. rewrite Hi' in Hi. discriminate Hi.
Qed.

(** The structure of the trace is witnessed by a run with a bitmap, one
    quiet frame and one frame that closes the window. *)
Lemma main_releases_what_it_acquired_witness :
  ∃ tr,
    main 2 (mkWorld 0 1 2 3 4 0 0 0 [mkFrame 1 30 []; mkFrame 2 30 [SDL_QUIT]]) = Exit 0 tr ∧
    destroyed_textures tr = [4] ∧ last tr = Some SDL_Quit.
Proof.
  eexists. split; [vm_compute; reflexivity|].
  match goal with
  | |- destroyed_textures ?tr = _ ∧ _ =>
      destruct (main_releases_what_it_acquired 2
                  (mkWorld 0 1 2 3 4 0 0 0 [mkFrame 1 30 []; mkFrame 2 30 [SDL_QUIT]])
                  0 tr) as (_ & _ & Hl & _ & _ & _ & Hd & _)
  end.
  - vm_compute. reflexivity.
  - split; [exact Hd|]. apply Hl. reflexivity.
Defined.

(** X13.  The main loop runs until it is asked to stop, and finishes the
    iteration in which it is asked.  After a start-up that succeeded, with
    inputs that measure short times, when the first close request (the
    window being closed, or Escape going down) comes in the iteration after
    the quiet ones [pre], [main] makes exactly [length pre + 1] polls and
    renders exactly as many frames, the last call of the loop being the
    frame of the iteration that saw the request, and then returns [0].
    What the environment would have offered afterwards, [post], is never
    read. *)
Theorem main_runs_until_quit (w : World) (pre : list FrameInput) (f : FrameInput) :
  startup_ok w = true ->
  Forall (λ g, quiet g = true) pre -> quiet f = false ->
  short_frames (w_counter w) (pre ++ [f]) = true ->
  ∃ (fuel0 : nat) (tr : list SDLCall),
    count_calls is_CallInput (frame_calls tr) = S (length pre) ∧
    count_calls is_CallRender (frame_calls tr) = S (length pre) ∧
    (∃ fr, last (frame_calls tr) = Some (CallRender fr)) ∧
    ∀ post fuel, (fuel0 <= fuel)%nat ->
      main fuel (with_frames w (pre ++ f :: post)) = Exit 0 tr.
Proof.
  intros Hok Hpre Hf Hs.
  assert (∀ post, startup_ok (with_frames w (pre ++ f :: post)) = true) as Hok'
    by (intros post; exact Hok).
  destruct (player_texture (w_bmp_surf w) (w_bmp_tex w) (w_fallback_surf w)
              (w_fallback_tex w) (mkRM (w_renderer w) ∅)) as [[tex resources] tcalls] eqn:Ept.
  destruct (scene tex) as [player em] eqn:Esc.
  destruct (main_loop_run player (pre ++ [f])
              (mkLoop em InputState.default (w_counter w) F32.zero) []
              eq_refl Hs) as (fuel0 & st' & calls & Hloop & Hci & Hcr & _ & _ & Hlast).
  destruct (leaves_quiet pre f Hpre Hf false) as [Hlv Hit].
  simpl loop_input in *. simpl InputState.quit in *.
  rewrite Hlv in Hloop. rewrite (Hit eq_refl) in Hci, Hcr. simpl app in Hloop.
  assert (frame_calls tcalls = []) as Htc.
  { rewrite player_texture_fresh in Ept.
    destruct (w_bmp_surf w =? 0); [|destruct (w_bmp_tex w =? 0)];
      try destruct (w_fallback_surf w =? 0); injection Ept as <- <- <-; reflexivity. }
  exists fuel0,
    (startup_calls w ++ tcalls ++ (Frame <$> calls) ++ (cleanup resources).2
     ++ [SDL_DestroyRenderer (w_renderer w); SDL_DestroyWindow (w_window w); SDL_Quit]).
  assert (frame_calls
            (startup_calls w ++ tcalls ++ (Frame <$> calls) ++ (cleanup resources).2
             ++ [SDL_DestroyRenderer (w_renderer w); SDL_DestroyWindow (w_window w);
                 SDL_Quit]) = calls) as Hfc.
  { unfold frame_calls in *. rewrite !omap_app, Htc.
    rewrite (omap_fmap_some _ Frame) by reflexivity.
    unfold cleanup. simpl snd.
    rewrite (omap_fmap_none _ SDL_DestroyTexture) by reflexivity.
    simpl. apply app_nil_r. }
  rewrite Hfc. split; [exact Hci|]. split; [exact Hcr|].
  split.
  { destruct Hlast as [->|H]; [discriminate Hci|exact H]. }
  intros post fuel Hfuel.
  rewrite (main_started fuel _ (Hok' post)).
  unfold with_frames. simpl w_bmp_surf. simpl w_bmp_tex. simpl w_fallback_surf.
  simpl w_fallback_tex. simpl w_renderer. simpl w_frames. simpl w_counter.
  rewrite Ept, Esc.
  replace (pre ++ f :: post) with ((pre ++ [f]) ++ post) by (rewrite <- app_assoc; reflexivity).
  rewrite (main_loop_extend fuel player (pre ++ [f]) post _ _ _ _ (Hloop fuel Hfuel)).
  reflexivity.
Qed.

(** One quiet frame, then the window is closed; a third frame is offered
    and not read. *)
Lemma main_runs_until_quit_witness :
  ∃ (fuel0 : nat) (tr : list SDLCall),
    count_calls is_CallRender (frame_calls tr) = 2%nat ∧
    ∀ fuel, (fuel0 <= fuel)%nat ->
      main fuel (mkWorld 0 1 2 3 4 0 0 0
                   [mkFrame 1 30 []; mkFrame 2 30 [SDL_QUIT]; mkFrame 3 30 []])
      = Exit 0 tr.
Proof.
  destruct (main_runs_until_quit (mkWorld 0 1 2 3 4 0 0 0 [])
              [mkFrame 1 30 []] (mkFrame 2 30 [SDL_QUIT]))
    as (fuel0 & tr & _ & Hr & _ & Hrun).
  - reflexivity.
  - apply Forall_cons. split; [reflexivity|apply Forall_nil_2].
  - reflexivity.
  - vm_compute. reflexivity.
  - exists fuel0, tr. split; [exact Hr|].
    intros fuel Hfuel. exact (Hrun [mkFrame 3 30 []] fuel Hfuel).
Defined.

(** ** Values that are represented exactly *)

Lemma pow2_lt_inv (a b : Z) : 0 <= a -> 0 <= b -> 2 ^ a < 2 ^ b -> a < b.
Proof.
  intros Ha Hb H. destruct (Z.lt_ge_cases a b) as [|Hge]; [assumption|exfalso].
  assert (2 ^ b <= 2 ^ a) by (apply pow2_le; lia). lia.
Qed.

(** Two ways of writing one value have the same position of the leading
    bit. *)
Lemma digits_same_value (M Q : positive) (e eq b : Z) :
  b <= e -> b <= eq ->
  Zpos M * 2 ^ (e - b) = Zpos Q * 2 ^ (eq - b) ->
  Zpos (digits2_pos M) + e = Zpos (digits2_pos Q) + eq.
Proof.
  intros He Heq Hval.
  pose proof (digits2_pos_bounds M) as [HMl HMu].
  pose proof (digits2_pos_bounds Q) as [HQl HQu].
  set (dM := Zpos (digits2_pos M)) in *. set (dQ := Zpos (digits2_pos Q)) in *.
  assert (0 < dM) by (subst dM; lia). assert (0 < dQ) by (subst dQ; lia).
  assert (0 < 2 ^ (e - b)) as HPe by (apply pow2_pos; lia).
  assert (0 < 2 ^ (eq - b)) as HPq by (apply pow2_pos; lia).
  assert (2 ^ (dM - 1 + (e - b)) <= Zpos M * 2 ^ (e - b) < 2 ^ (dM + (e - b))) as [H1 H2].
  { rewrite (Z.pow_add_r 2 (dM - 1) (e - b)), (Z.pow_add_r 2 dM (e - b)) by lia.
    split; [apply Z.mul_le_mono_nonneg_r; lia|apply Z.mul_lt_mono_pos_r; lia]. }
  assert (2 ^ (dQ - 1 + (eq - b)) <= Zpos Q * 2 ^ (eq - b) < 2 ^ (dQ + (eq - b))) as [H3 H4].
  { rewrite (Z.pow_add_r 2 (dQ - 1) (eq - b)), (Z.pow_add_r 2 dQ (eq - b)) by lia.
    split; [apply Z.mul_le_mono_nonneg_r; lia|apply Z.mul_lt_mono_pos_r; lia]. }
  rewrite Hval in H1, H2.
  assert (dM - 1 + (e - b) < dQ + (eq - b)) by (apply pow2_lt_inv; lia).
  assert (dQ - 1 + (eq - b) < dM + (e - b)) by (apply pow2_lt_inv; lia).
  lia.
Qed.

Lemma pack_finite (s : bool) (Q : positive) (eq : Z) :
  bounded 24 128 Q eq = true -> pack s (Zpos Q) eq = S754_finite s Q eq.
Proof.
  intros Hb. pose proof (bounded_canonical Q eq Hb) as (Hd & He & _).
  pose proof (digits2_pos_bounds Q) as [_ Hu].
  assert (2 ^ Zpos (digits2_pos Q) <= 2 ^ 24) by (apply pow2_le; lia).
  change (2 ^ 24) with 16777216 in *.
  unfold pack. destruct (Z.ltb_spec (Zpos Q) 16777216); [|lia].
  destruct (Z.leb_spec eq 104); [reflexivity|lia].
Qed.

Lemma bounded_fexp (Q : positive) (eq : Z) :
  bounded 24 128 Q eq = true -> fexp 24 128 (Zpos (digits2_pos Q) + eq) = eq.
Proof.
  intros Hb. pose proof (bounded_canonical Q eq Hb) as (Hd & He & Hc).
  rewrite fexp32. lia.
Qed.

(** The rounded mantissa of a multiple of the grid is the multiple. *)
Lemma round_multiple (Q q n : Z) :
  0 <= n -> - 2 ^ n <= 2 * (Q * 2 ^ n - 2 ^ n * q) <= 2 ^ n -> q = Q.
Proof.
  intros Hn H. assert (0 < 2 ^ n) as HP by (apply pow2_pos; lia).
  set (W := 2 ^ n) in *.
  replace (2 * (Q * W - W * q)) with ((2 * (Q - q)) * W) in H by ring.
  destruct (Z.lt_trichotomy q Q) as [Hlt|[Heq|Hgt]]; [exfalso|exact Heq|exfalso].
  - assert (2 * W <= 2 * (Q - q) * W) by (apply Z.mul_le_mono_nonneg_r; lia). lia.
  - assert (2 * (Q - q) * W <= -2 * W) by (apply Z.mul_le_mono_nonneg_r; lia). lia.
Qed.

(** Rounding a value that binary32 represents returns its representation. *)
Lemma binary_round_exact (s : bool) (M Q : positive) (e eq b : Z) :
  bounded 24 128 Q eq = true ->
  b <= e -> b <= eq ->
  Zpos M * 2 ^ (e - b) = Zpos Q * 2 ^ (eq - b) ->
  binary_round 24 128 s M e = S754_finite s Q eq.
Proof.
  intros Hb He Heq Hval.
  destruct (binary_round_pack s M e) as (q & Hq & Hexact & Hr & -> & _).
  rewrite (digits_same_value M Q e eq b He Heq Hval), (bounded_fexp Q eq Hb) in *.
  assert (0 < 2 ^ (eq - b)) as HPq by (apply pow2_pos; lia).
  assert (q = Zpos Q) as ->; [|apply pack_finite, Hb].
  destruct (Z.le_gt_cases eq e) as [Hle|Hgt].
  - rewrite (Hexact Hle).
    replace (e - b) with ((e - eq) + (eq - b)) in Hval by lia.
    rewrite (Z.pow_add_r 2 (e - eq) (eq - b)), Z.mul_assoc in Hval by lia.
    apply Z.mul_reg_r in Hval; lia.
  - specialize (Hr ltac:(lia)).
    assert (Zpos M = Zpos Q * 2 ^ (eq - e)) as HM.
    { replace (eq - b) with ((eq - e) + (e - b)) in Hval by lia.
      rewrite (Z.pow_add_r 2 (eq - e) (e - b)), Z.mul_assoc in Hval by lia.
      assert (0 < 2 ^ (e - b)) by (apply pow2_pos; lia).
      apply Z.mul_reg_r in Hval; lia. }
    rewrite HM in Hr. apply (round_multiple (Zpos Q) q (eq - e)); [lia|exact Hr].
Qed.

Lemma binary_round_aux_exact (s : bool) (M Q : positive) (e eq : Z) :
  bounded 24 128 Q eq = true ->
  e <= eq ->
  Zpos M = Zpos Q * 2 ^ (eq - e) ->
  binary_round_aux 24 128 s (Zpos M) e loc_Exact = S754_finite s Q eq.
Proof.
  intros Hb He HM.
  destruct (binary_round_aux_pack s M e) as (q & Hq & Hr & -> & _).
  assert (Zpos (digits2_pos M) + e = Zpos (digits2_pos Q) + eq) as Hd.
  { apply (digits_same_value M Q e eq e); [lia|lia|].
    rewrite Z.sub_diag, Z.mul_1_r. exact HM. }
  rewrite Hd, (bounded_fexp Q eq Hb) in *.
  rewrite Z.max_r in * by lia.
  rewrite HM in Hr.
  rewrite (round_multiple (Zpos Q) q (eq - e) ltac:(lia) Hr).
  apply pack_finite, Hb.
Qed.

(** [x * 1.0f] is [x]. *)
Lemma mul_one_r (x : F32.t) :
  F32.valid x = true -> x <> S754_nan -> F32.mul x F32.one = x.
Proof.
  intros Hv Hn. destruct x as [s|s| |s m e]; [destruct s; reflexivity ..| |].
  - contradiction.
  - unfold F32.mul, F32.one. simpl SFmul. rewrite xorb_false_r.
    apply binary_round_aux_exact; [exact Hv|lia|].
    rewrite Pos2Z.inj_mul. replace (e - (e + -23)) with 23 by lia. reflexivity.
Qed.

(** ** Whole numbers below [2^24] *)


(** The binary32 number [of_Z] gives for a whole number below [2^24] in
    magnitude: the number itself, shifted up to 24 bits. *)
Lemma int_repr (p : positive) :
  Zpos p < 2 ^ 24 ->
  let k := 24 - Zpos (digits2_pos p) in
  let Q := Z.to_pos (Zpos p * 2 ^ k) in
  0 <= k <= 23 ∧ Zpos Q = Zpos p * 2 ^ k ∧ bounded 24 128 Q (- k) = true ∧
  ∀ s, binary_round 24 128 s p 0 = S754_finite s Q (- k).
Proof.
  intros Hp k Q.
  pose proof (digits2_pos_bounds p) as [Hl Hu].
  assert (Zpos (digits2_pos p) <= 24) as Hd by (apply digits2_pos_le; lia).
  set (d := Zpos (digits2_pos p)) in *.
  assert (0 < d) as Hd0 by (subst d; lia).
  assert (0 <= k <= 23) as Hk by (subst k; lia).
  assert (0 < 2 ^ k) as HP by (apply pow2_pos; lia).
  assert (Zpos Q = Zpos p * 2 ^ k) as HQ by (subst Q; apply Z2Pos.id; lia).
  assert (2 ^ (24 - 1) <= Zpos Q < 2 ^ 24) as HQ24.
  { assert (2 ^ (24 - 1) = 2 ^ (d - 1) * 2 ^ k) as ->
      by (rewrite <- Z.pow_add_r by lia; f_equal; lia).
    assert (2 ^ 24 = 2 ^ d * 2 ^ k) as ->
      by (rewrite <- Z.pow_add_r by lia; f_equal; lia).
    rewrite HQ.
    split; [apply Z.mul_le_mono_nonneg_r; lia|apply Z.mul_lt_mono_pos_r; lia]. }
  assert (bounded 24 128 Q (- k) = true) as Hb.
  { unfold bounded, canonical_mantissa. rewrite fexp32.
    rewrite (digits2_pos_unique Q 24 HQ24).
    apply andb_true_intro. split; [apply Z.eqb_eq; lia|apply Z.leb_le; simpl; lia]. }
  repeat split; try assumption; try lia.
  intros s. apply (binary_round_exact s p Q 0 (- k) (- k) Hb); [lia|lia|].
  rewrite HQ, Z.sub_diag, Z.mul_1_r. f_equal. f_equal. lia.
Qed.

Lemma to_int_round_pos (s : bool) (p : positive) :
  Zpos p < 2 ^ 24 ->
  F32.to_int (binary_round 24 128 s p 0) = Some (cond_Zopp s (Zpos p)) ∧
  F32.round (binary_round 24 128 s p 0) = binary_round 24 128 s p 0.
Proof.
  intros Hp. destruct (int_repr p Hp) as (Hk & HQ & Hb & Hr).
  set (k := 24 - Zpos (digits2_pos p)) in *.
  set (Q := Z.to_pos (Zpos p * 2 ^ k)) in *.
  rewrite (Hr s).
  assert (Int.in_range (cond_Zopp s (Zpos p)) = true) as Hin.
  { change (2 ^ 24) with 16777216 in Hp. unfold Int.in_range, Int.min_signed, Int.max_signed.
    apply andb_true_intro. destruct s; simpl cond_Zopp; split; apply Z.leb_le; lia. }
  destruct k as [|kp|kp] eqn:Ek; [| |lia].
  - unfold F32.to_int, F32.round. cbv zeta.
    rewrite HQ. change (- 0) with 0. cbv iota.
    change (2 ^ 0) with 1. rewrite !Z.mul_1_r, Hin. auto.
  - change (- Zpos kp) with (Zneg kp). unfold F32.to_int, F32.round. cbv zeta.
    assert (0 < 2 ^ Zpos kp) as HP by (apply pow2_pos; lia).
    rewrite HQ, Z.div_mul, Hin by lia. split; [reflexivity|].
    assert ((2 * (Zpos p * 2 ^ Zpos kp) + 2 ^ Zpos kp) / 2 ^ (Zpos kp + 1) = Zpos p) as ->.
    { rewrite (Z.pow_add_r 2 (Zpos kp) 1) by lia. change (2 ^ 1) with 2.
      replace (2 * (Zpos p * 2 ^ Zpos kp) + 2 ^ Zpos kp)
        with (2 ^ Zpos kp + Zpos p * (2 ^ Zpos kp * 2)) by ring.
      rewrite Z.div_add by lia. rewrite Z.div_small by lia. reflexivity. }
    unfold F32.prec, F32.emax. rewrite (Hr s). reflexivity.
Qed.

(** [int(float(n))] is [n], and [std::round] leaves [float(n)] alone. *)
Lemma to_int_round_of_Z (n : Z) :
  Z.abs n < 2 ^ 24 ->
  F32.to_int (F32.of_Z n) = Some n ∧ F32.round (F32.of_Z n) = F32.of_Z n.
Proof.
  intros Hn. destruct n as [|p|p]; [auto| |].
  - apply (to_int_round_pos false p). exact Hn.
  - apply (to_int_round_pos true p). exact Hn.
Qed.

(** Rounding a whole number written with a smaller exponent. *)
Lemma normalize_whole (D c e : Z) :
  -23 <= e <= 0 -> Z.abs c < 2 ^ 24 -> D = c * 2 ^ (- e) ->
  binary_normalize 24 128 D e false = F32.of_Z c.
Proof.
  intros He Hc HD. assert (0 < 2 ^ (- e)) as HP by (apply pow2_pos; lia).
  assert (∀ s (pd pc : positive),
            Zpos pc < 2 ^ 24 -> Zpos pd = Zpos pc * 2 ^ (- e) ->
            binary_round 24 128 s pd e = binary_round 24 128 s pc 0) as Hround.
  { intros s pd pc Hpc Hpd. destruct (int_repr pc Hpc) as (Hk & HQ & Hb & Hr).
    rewrite (Hr s).
    set (k := 24 - Zpos (digits2_pos pc)) in *.
    apply (binary_round_exact s pd _ e (- k) (-23) Hb); [lia|lia|].
    rewrite HQ, Hpd, <- !Z.mul_assoc, <- !Z.pow_add_r by lia.
    f_equal. f_equal. lia. }
  unfold F32.of_Z. destruct c as [|pc|pc].
  - rewrite HD. reflexivity.
  - destruct D as [|pd|pd]; [lia| |lia]. simpl. apply Hround; [exact Hc|exact HD].
  - destruct D as [|pd|pd]; [lia|lia|]. simpl. apply Hround; [exact Hc|].
    assert (Zneg pd = - Zpos pd) as H1 by reflexivity.
    assert (Zneg pc = - Zpos pc) as H2 by reflexivity.
    rewrite H1, H2 in HD. lia.
Qed.

Lemma of_Z_whole (n : Z) :
  n <> 0 -> Z.abs n < 2 ^ 24 ->
  0 <= whole_shift n <= 23 ∧
  Zpos (whole_mantissa n) = Z.abs n * 2 ^ whole_shift n ∧
  bounded 24 128 (whole_mantissa n) (- whole_shift n) = true ∧
  F32.of_Z n = S754_finite (n <? 0) (whole_mantissa n) (- whole_shift n).
Proof.
  intros Hn0 Hn. unfold whole_mantissa, whole_shift.
  destruct n as [|p|p]; [contradiction| |];
    destruct (int_repr p Hn) as (Hk & HQ & Hb & Hr); simpl Z.abs; simpl Z.to_pos;
    (split; [exact Hk|]); (split; [exact HQ|]); (split; [exact Hb|]).
  - apply (Hr false).
  - apply (Hr true).
Qed.

Lemma cond_Zopp_neg (n X : Z) : cond_Zopp (n <? 0) (Z.abs n * X) = n * X.
Proof. destruct (Z.ltb_spec n 0); simpl; lia. Qed.

(** The difference of two whole numbers is computed exactly. *)
Lemma sub_of_Z (a b : Z) :
  Z.abs a < 2 ^ 24 -> Z.abs b < 2 ^ 24 -> Z.abs (a - b) < 2 ^ 24 ->
  F32.sub (F32.of_Z a) (F32.of_Z b) = F32.of_Z (a - b).
Proof.
  intros Ha Hb Hab.
  destruct (Z.eq_dec b 0) as [->|Hb0].
  { rewrite Z.sub_0_r. destruct (F32.of_Z a) as [[]|[]| |]; reflexivity. }
  destruct (of_Z_whole b Hb0 Hb) as (Hkb & HQb & Hbb & Hfb).
  destruct (Z.eq_dec a 0) as [->|Ha0].
  { assert (- b <> 0) as Hnb0 by lia.
    assert (Z.abs (- b) < 2 ^ 24) as Hnb by (rewrite Z.abs_opp; exact Hb).
    destruct (of_Z_whole (- b) Hnb0 Hnb) as (_ & _ & _ & Hfnb).
    rewrite Z.sub_0_l, Hfb, Hfnb. unfold whole_mantissa, whole_shift.
    rewrite Z.abs_opp. simpl.
    replace (- b <? 0) with (negb (b <? 0)); [reflexivity|].
    destruct (Z.ltb_spec b 0), (Z.ltb_spec (- b) 0); try reflexivity; lia. }
  destruct (of_Z_whole a Ha0 Ha) as (Hka & HQa & Hba & Hfa).
  rewrite Hfa, Hfb. unfold F32.sub. simpl SFsub.
  set (ka := whole_shift a) in *. set (kb := whole_shift b) in *.
  set (ez := Z.min (- ka) (- kb)).
  assert (ez <= - ka ∧ ez <= - kb ∧ -23 <= ez <= 0) as (Hza & Hzb & Hz) by (subst ez; lia).
  rewrite (shl_align_value _ (- ka) ez Hza), (shl_align_value _ (- kb) ez Hzb).
  apply normalize_whole; [exact Hz|exact Hab|].
  rewrite HQa, HQb, <- !Z.mul_assoc, <- !Z.pow_add_r by lia.
  replace (ka + (- ka - ez)) with (- ez) by lia.
  replace (kb + (- kb - ez)) with (- ez) by lia.
  rewrite !cond_Zopp_neg. ring.
Qed.

Lemma of_Z_not_nan (n : Z) : Z.abs n < 2 ^ 24 -> F32.of_Z n <> S754_nan.
Proof.
  intros Hn. destruct (Z.eq_dec n 0) as [->|Hn0]; [discriminate|].
  destruct (of_Z_whole n Hn0 Hn) as (_ & _ & _ & ->). discriminate.
Qed.

(** X15.  An unscaled sprite at a whole-number position is drawn centred on
    it, exactly: with scale [(1, 1)], a position whose coordinates are the
    whole numbers [px] and [py] below [2^23] in magnitude, and a size below
    [2^24], the destination rectangle has the size of the sprite and its
    corner at [(px - w / 2, py - h / 2)], the halves truncated.  Every
    conversion involved is defined and exact. *)
Theorem dst_rect_unscaled (sp : Sprite.t) (tr : Transform.t) (px py : Z) :
  Transform.scale tr = Vec2.mk F32.one F32.one ->
  Transform.pos tr = Vec2.mk (F32.of_Z px) (F32.of_Z py) ->
  Z.abs (Sprite.w sp) < 2 ^ 24 -> Z.abs (Sprite.h sp) < 2 ^ 24 ->
  Z.abs px < 2 ^ 23 -> Z.abs py < 2 ^ 23 ->
  dst_rect sp tr
  = Some (SDL_Rect.mk (px - Sprite.w sp ÷ 2) (py - Sprite.h sp ÷ 2)
                      (Sprite.w sp) (Sprite.h sp)).
Proof.
  intros Hsc Hpos Hw Hh Hpx Hpy.
  change (2 ^ 24) with 16777216 in Hw, Hh. change (2 ^ 23) with 8388608 in Hpx, Hpy.
  assert (∀ s p, Z.abs s < 16777216 -> Z.abs p < 8388608 ->
            F32.to_int (F32.mul (F32.of_Z s) F32.one) = Some s ∧
            F32.to_int (F32.round (F32.sub (F32.of_Z p) (F32.of_Z (Int.div s 2))))
            = Some (p - s ÷ 2)) as H.
  { intros s p Hs Hp. unfold Int.div.
    assert (Z.abs (s ÷ 2) < 8388608) as Hq.
    { assert (∀ u, 0 <= u < 16777216 -> 0 <= u / 2 < 8388608) as Hhalf.
      { intros u Hu. split; [apply Z.div_pos; lia|apply Z.div_lt_upper_bound; lia]. }
      destruct (Z.le_gt_cases 0 s) as [Hs0|Hs0].
      - rewrite Z.quot_div_nonneg by lia. specialize (Hhalf s ltac:(lia)). lia.
      - replace s with (- - s) by lia.
        rewrite Z.quot_opp_l, Z.quot_div_nonneg by lia.
        specialize (Hhalf (- s) ltac:(lia)). lia. }
    rewrite mul_one_r;
      [|apply binary_normalize_valid|apply of_Z_not_nan; change (2 ^ 24) with 16777216; lia].
    split; [apply to_int_round_of_Z; change (2 ^ 24) with 16777216; lia|].
    assert (Z.abs (p - s ÷ 2) < 2 ^ 24) as Hd by (change (2 ^ 24) with 16777216; lia).
    rewrite sub_of_Z; try (change (2 ^ 24) with 16777216; lia).
    destruct (to_int_round_of_Z (p - s ÷ 2) Hd) as [H1 H2]. rewrite H2. exact H1. }
  unfold dst_rect. rewrite Hsc, Hpos. simpl Vec2.x. simpl Vec2.y.
  destruct (H (Sprite.w sp) px Hw Hpx) as [H1 H2].
  destruct (H (Sprite.h sp) py Hh Hpy) as [H3 H4].
  rewrite H1. simpl. rewrite H3. simpl. rewrite H2. simpl. rewrite H4. reflexivity.
Qed.

(** The player of [main], where the specification has it. *)
Lemma dst_rect_unscaled_witness :
  dst_rect (Sprite.mk 7 64 64)
           (Transform.mk (Vec2.mk (F32.of_Z 400) (F32.of_Z 300)) F32.zero
                         (Vec2.mk F32.one F32.one))
  = Some (SDL_Rect.mk 368 268 64 64).
Proof.
  apply (dst_rect_unscaled (Sprite.mk 7 64 64)
           (Transform.mk (Vec2.mk (F32.of_Z 400) (F32.of_Z 300)) F32.zero
                         (Vec2.mk F32.one F32.one)) 400 300);
    reflexivity.
Defined.

(** ** One tick on the player *)

(** X16.  Within one fixed tick the push of the keys acts before the
    integration: the player moves by the velocity that already includes
    [axis * speed], and that velocity is then damped.  For every other
    entity the tick is [physicsSystem] alone. *)
Theorem fixed_tick_player
    (player : Entity) (i : InputState.t) (em : EntityManager)
    (rb : Rigidbody.t) (t : Transform.t) :
  NoDup (entities em) -> player ∈ entities em ->
  bodies em !! player = Some rb -> transforms em !! player = Some t ->
  let vx := F32.add (Vec2.x (Rigidbody.vel rb)) (F32.mul (InputState.axisX i) PLAYER_SPEED) in
  let vy := F32.add (Vec2.y (Rigidbody.vel rb)) (F32.mul (InputState.axisY i) PLAYER_SPEED) in
  let em' := fixed_tick player i em in
  transforms em' !! player
  = Some (Transform.mk
            (Vec2.mk (F32.add (Vec2.x (Transform.pos t)) (F32.mul vx TARGET_DT))
                     (F32.add (Vec2.y (Transform.pos t)) (F32.mul vy TARGET_DT)))
            (Transform.rot t) (Transform.scale t)) ∧
  bodies em' !! player
  = Some (Rigidbody.mk (Vec2.mk (F32.mul vx DAMPING) (F32.mul vy DAMPING))
                       (Rigidbody.mass rb)) ∧
  ∀ e, e ≠ player ->
    transforms em' !! e = transforms (physicsSystem em TARGET_DT) !! e ∧
    bodies em' !! e = bodies (physicsSystem em TARGET_DT) !! e.
Proof.
  intros Hnd Hin Hb Ht vx vy em'. subst em'. unfold fixed_tick.
  set (em1 := playerControlSystem player em i PLAYER_SPEED).
  pose proof (control_frame player em i PLAYER_SPEED) as Hc. cbv zeta in Hc.
  fold em1 in Hc. destruct Hc as (_ & He & Htr & _ & Hother).
  assert (bodies em1 !! player = Some (Rigidbody.mk (Vec2.mk vx vy) (Rigidbody.mass rb)))
    as Hb1.
  { subst em1. unfold playerControlSystem. rewrite Hb. simpl.
    apply lookup_insert_eq. }
  assert (NoDup (entities em1)) as Hnd1 by (rewrite He; exact Hnd).
  assert (player ∈ entities em1) as Hin1 by (rewrite He; exact Hin).
  assert (transforms em1 !! player = Some t) as Ht1 by (rewrite Htr; exact Ht).
  destruct (physicsSystem_both em1 TARGET_DT player _ t Hnd1 Hin1 Hb1 Ht1) as [H1 H2].
  split; [exact H1|]. split; [exact H2|].
  intros e Hne. unfold physicsSystem. rewrite He.
  destruct (decide (e ∈ entities em)) as [Hine|Hnine].
  - destruct (physics_fold_in TARGET_DT (entities em) em1 e Hnd Hine) as [H3 H4].
    destruct (physics_fold_in TARGET_DT (entities em) em e Hnd Hine) as [H5 H6].
    destruct (physics_step_self TARGET_DT em1 e) as [H7 H8].
    destruct (physics_step_self TARGET_DT em e) as [H9 H10].
    rewrite H3, H4, H5, H6, H7, H8, H9, H10, Htr, (Hother e Hne). auto.
  - destruct (physics_fold_notin TARGET_DT (entities em) em1 e Hnine) as [H3 H4].
    destruct (physics_fold_notin TARGET_DT (entities em) em e Hnine) as [H5 H6].
    rewrite H3, H4, H5, H6, Htr, (Hother e Hne). auto.
Qed.

(** The player of [main] with D held: it moves to the right in the very
    tick that reads the key. *)
Lemma fixed_tick_player_witness :
  Vec2.x ∘ Transform.pos
    <$> transforms (fixed_tick 1 (processInput [SDL_KEYDOWN SDLK_d] InputState.default)
                      (snd (scene 7))) !! 1
  = Some (F32.add (F32.of_Z 400) (F32.mul PLAYER_SPEED TARGET_DT)).
Proof.
  destruct (fixed_tick_player 1 (processInput [SDL_KEYDOWN SDLK_d] InputState.default)
              (snd (scene 7))
              (Rigidbody.mk (Vec2.mk F32.zero F32.zero) F32.one)
              (Transform.mk (Vec2.mk (F32.of_Z 400) (F32.of_Z 300)) F32.zero
                            (Vec2.mk F32.one F32.one))) as (H & _).
  - apply (NoDup_fmap_2 Z.of_nat (seq 1 6)), NoDup_seq.
  - change (entities (snd (scene 7))) with [1; 2; 3; 4; 5; 6]. apply list_elem_of_here.
  - vm_compute. reflexivity.
  - vm_compute. reflexivity.
  - rewrite H. vm_compute. reflexivity.
Defined.
